(** * AntimonyEditor: the Monarch token table, the recommendation modal,
      and the contracts of the language service.

    Texts are lists of characters ([list ascii]); token classes are the
    strings the language definition uses; JavaScript numbers are binary64
    floats. The language service of the specification (position index,
    diagnostics engine, notes normalizer) has no source file of its own
    here; its operations are modelled from the specification where said. *)

From Stdlib Require Import Floats Ascii ZArith.
From stdpp Require Import base list strings gmap sorting lexico.

Local Open Scope list_scope.
Set Warnings "-inexact-float".

(** Literal texts are written as string constants. *)
Abbreviation chars := String.list_ascii_of_string.


(* ===================================================================== *)
(** ** Characters and character classes *)
(* ===================================================================== *)

Module Chars.

Definition charCode (c : ascii) : N := N_of_ascii c.

Definition between (lo hi c : ascii) : bool :=
  ((charCode lo <=? charCode c) && (charCode c <=? charCode hi))%N.

Definition isChar (x c : ascii) : bool := Ascii.eqb x c.
Global Arguments isChar : simpl never.

Definition isDigit (c : ascii) : bool := between "0" "9" c.
Definition isLetter (c : ascii) : bool := between "a" "z" c || between "A" "Z" c.
(** [\w] *)
Definition isWord (c : ascii) : bool := isLetter c || isDigit c || isChar "_" c.
(** [[\w$]] *)
Definition isWordDollar (c : ascii) : bool := isWord c || isChar "$" c.
(** [[0-9a-fA-F]] *)
Definition isHex (c : ascii) : bool :=
  isDigit c || between "a" "f" c || between "A" "F" c.
Definition isOct (c : ascii) : bool := between "0" "7" c.
Definition isBin (c : ascii) : bool := isChar "0" c || isChar "1" c.
(** [.]: any character but a line terminator. *)
Definition isDot (c : ascii) : bool := negb (isChar "010" c || isChar "013" c).
Definition dquote : ascii := "034".

End Chars.

(* ===================================================================== *)
(** ** Regular expressions with backtracking semantics *)
(* ===================================================================== *)

Module Regex.

Import Chars.

Inductive regex : Type :=
| REmpty                          (* the empty pattern *)
| RChar (p : ascii -> bool)       (* one character of a class *)
| RSeq (a b : regex)              (* ab *)
| RAlt (a b : regex)              (* a|b, left alternative first *)
| RStar (a : regex)               (* a*, greedy *)
| RWordBoundary.                  (* \b *)

Definition ROpt (a : regex) : regex := RAlt a REmpty.      (* a? *)
Definition RPlus (a : regex) : regex := RSeq a (RStar a).  (* a+ *)
Definition ROne (c : ascii) : regex := RChar (isChar c).

Fixpoint RLit (s : list ascii) : regex :=
  match s with
  | [] => REmpty
  | c :: s' => RSeq (ROne c) (RLit s')
  end.

Fixpoint RSeqs (rs : list regex) : regex :=
  match rs with
  | [] => REmpty
  | [r] => r
  | r :: rs' => RSeq r (RSeqs rs')
  end.

(** [r1|r2|...|rn]; the empty alternation is the empty class. *)
Fixpoint RAlts (rs : list regex) : regex :=
  match rs with
  | [] => RChar (fun _ => false)
  | [r] => r
  | r :: rs' => RAlt r (RAlts rs')
  end.

(** A matcher state: the character just before the cursor (none at the
    start of the subject) and the text from the cursor on. *)
Record mstate : Type := MState { prev : option ascii; rest : list ascii }.

Definition wordBefore (st : mstate) : bool :=
  match prev st with Some c => isWord c | None => false end.
Definition wordAfter (st : mstate) : bool :=
  match rest st with c :: _ => isWord c | [] => false end.
Definition atBoundary (st : mstate) : bool := xorb (wordBefore st) (wordAfter st).

(** Greedy iteration: one more round of [step] first, stopping last. A
    round that consumes nothing is rejected. *)
Fixpoint starLoop (step : mstate -> list mstate) (fuel : nat) (st : mstate)
  : list mstate :=
  match fuel with
  | O => [st]
  | S n =>
      flat_map (fun st' =>
                  if length (rest st') <? length (rest st)
                  then starLoop step n st' else [])
               (step st)
      ++ [st]
  end.

(** All the ways [r] matches at [st], in the order a backtracking
    matcher tries them; the head is the match it reports. *)
Fixpoint rmatch (r : regex) (st : mstate) : list mstate :=
  match r with
  | REmpty => [st]
  | RChar p =>
      match rest st with
      | c :: s' => if p c then [MState (Some c) s'] else []
      | [] => []
      end
  | RSeq a b => flat_map (rmatch b) (rmatch a st)
  | RAlt a b => rmatch a st ++ rmatch b st
  | RStar a => starLoop (rmatch a) (length (rest st)) st
  | RWordBoundary => if atBoundary st then [st] else []
  end.

(** [subject.match(/^(?:r)/)]: the length of the match of [r] anchored at
    the start of [s]. *)
Definition exec (r : regex) (s : list ascii) : option nat :=
  match rmatch r (MState None s) with
  | st :: _ => Some (length s - length (rest st))
  | [] => None
  end.

(** *** Specification vocabulary *)

(** A sound syntactic test: every match of [r] consumes a character. *)
Fixpoint consumes (r : regex) : bool :=
  match r with
  | REmpty => false
  | RChar _ => true
  | RSeq a b => consumes a || consumes b
  | RAlt a b => consumes a && consumes b
  | RStar _ => false
  | RWordBoundary => false
  end.

Definition shrinks (step : mstate -> list mstate) : Prop :=
  forall st st', In st' (step st) -> length (rest st') <= length (rest st).

(** A sound syntactic test: every match of [r] before the character [c]
    reads nothing. *)
Fixpoint passes (r : regex) (c : ascii) : bool :=
  match r with
  | REmpty => true
  | RChar p => negb (p c)
  | RSeq a b => passes a c && passes b c
  | RAlt a b => passes a c && passes b c
  | RStar _ => false
  | RWordBoundary => true
  end.

(** A sound syntactic test: [r] has no match when the next character is [c]. *)
Fixpoint rejects (r : regex) (c : ascii) : bool :=
  match r with
  | REmpty => false
  | RChar p => negb (p c)
  | RSeq a b => rejects a c || (passes a c && rejects b c)
  | RAlt a b => rejects a c && rejects b c
  | RStar _ => false
  | RWordBoundary => false
  end.

(** A nonempty run of characters of the class [p]. *)
Definition run (p : ascii -> bool) (s : list ascii) : bool :=
  match s with
  | [] => false
  | _ :: _ => forallb p s
  end.

(** The text [r] does not go on with a character of the class [p]. *)
Definition stops (p : ascii -> bool) (r : list ascii) : bool :=
  match r with
  | [] => true
  | d :: _ => negb (p d)
  end.

(** The match a backtracking matcher reports for [r] at [st]. *)
Definition firstMatch (r : regex) (st st' : mstate) : Prop :=
  exists tl, rmatch r st = st' :: tl.

(** The character before the cursor once [k] has been read. *)
Definition prevAfter (p : option ascii) (k : list ascii) : option ascii :=
  match last k with Some c => Some c | None => p end.

Definition allAscii : list ascii := map ascii_of_nat (seq 0 256).

(** From [st] the matcher has read the text [m] and stands at [st']. *)
Definition reads (st : mstate) (m : list ascii) (st' : mstate) : Prop :=
  rest st = m ++ rest st' /\ prev st' = prevAfter (prev st) m.

End Regex.

(* ===================================================================== *)
(** ** The Monarch tokenizer loop *)
(* ===================================================================== *)

Module Monarch.

Import Regex.

(** The tokenizer the editor runs the language definition with. At each
    position of a line it tries the rules of the state in order, each
    pattern anchored at the start of the rest of the line; the first rule
    that matches gives the token. Where no rule matches, one character is
    taken as a token of the default class. A rule that matches the empty
    text without a change of state stops the tokenizer with an error.
    The loop hands its tokens to a collector, which starts a token of the
    stream only where the class changes: a token of the class of the one
    before it goes with that one. A line of [maxTokenizationLineLength]
    characters or more is not tokenized at all: it is one token of the
    empty class. Classes are written as the definition names them. *)

Inductive action : Type :=
| Token (t : string)
| Cases (cases : list (string * string)) (dflt : string).

Definition rule : Type := (regex * action)%type.

Record language : Type := Language {
  defaultToken : string;
  root : list rule;
}.

(** The class a definition gets when it names no [defaultToken], and the
    class themes show as an error, which a definition has to ask for. *)
Definition sourceToken : string := "source".
Definition invalidToken : string := "invalid".

Record token : Type := Tok {
  offset : nat;
  type : string;
  text : list ascii;
}.

Inductive outcome : Type :=
| Tokens (ts : list token)
| NoProgress        (* "no progress in tokenizer in rule" *)
| OutOfFuel.

Definition resolve (a : action) (matched : list ascii) : string :=
  match a with
  | Token t => t
  | Cases cases dflt =>
      match List.find (fun kv => String.eqb (fst kv) (String.string_of_list_ascii matched)) cases with
      | Some kv => snd kv
      | None => dflt
      end
  end.

(** The first rule whose pattern matches at the start of the rest of the
    line, with the length of its match. *)
Fixpoint findRule (rules : list rule) (s : list ascii) : option (action * nat) :=
  match rules with
  | [] => None
  | (r, a) :: rules' =>
      match exec r s with
      | Some n => Some (a, n)
      | None => findRule rules' s
      end
  end.

Definition consTok (t : token) (o : outcome) : outcome :=
  match o with
  | Tokens ts => Tokens (t :: ts)
  | other => other
  end.

Fixpoint tokenizeLoop (lang : language) (fuel pos : nat) (s : list ascii) : outcome :=
  match s with
  | [] => Tokens []
  | c :: s' =>
      match fuel with
      | O => OutOfFuel
      | S fuel' =>
          match findRule (root lang) s with
          | Some (a, n) =>
              if n =? 0 then NoProgress
              else consTok (Tok pos (resolve a (take n s)) (take n s))
                           (tokenizeLoop lang fuel' (pos + n) (drop n s))
          | None =>
              consTok (Tok pos (defaultToken lang) [c])
                      (tokenizeLoop lang fuel' (pos + 1) s')
          end
      end
  end.

(** What the rule loop emits on a line, before the collector. *)
Definition ruleTokens (lang : language) (line : list ascii) : outcome :=
  tokenizeLoop lang (length line) 0 line.

(** The collector: a token is not emitted when the token before it has
    its class; its text then belongs to that token. *)
Fixpoint mergeTokens (ts : list token) : list token :=
  match ts with
  | [] => []
  | t :: ts' =>
      match mergeTokens ts' with
      | t' :: rest =>
          if String.eqb (type t) (type t')
          then Tok (offset t) (type t) (text t ++ text t') :: rest
          else t :: t' :: rest
      | [] => [t]
      end
  end.

(** The editor's setting of the same name, at its default. *)
Definition maxTokenizationLineLength : nat := 200 * 100.

(** The class of the one token of a line that is not tokenized. *)
Definition nullToken : string := EmptyString.

Definition tokenizeLine (lang : language) (line : list ascii) : outcome :=
  if maxTokenizationLineLength <=? length line then Tokens [Tok 0 nullToken line]
  else
    match ruleTokens lang line with
    | Tokens ts => Tokens (mergeTokens ts)
    | other => other
    end.

(** The editor's text model hands the tokenizer one line at a time; lines
    end at LF, CR or CRLF. *)
Fixpoint splitLines (s : list ascii) : list (list ascii) :=
  match s with
  | [] => [[]]
  | c :: s' =>
      if Chars.isChar "010" c then [] :: splitLines s'
      else if Chars.isChar "013" c then
        match s' with
        | d :: s'' => if Chars.isChar "010" d then [] :: splitLines s''
                      else [] :: splitLines s'
        | [] => [[]; []]
        end
      else
        match splitLines s' with
        | l :: ls => (c :: l) :: ls
        | [] => [[c]]
        end
  end.

Definition tokenizeText (lang : language) (s : list ascii) : list outcome :=
  map (tokenizeLine lang) (splitLines s).

(** *** Specification vocabulary *)

(** What the loop produces from offset [pos] on the text [s]. *)
Inductive lexes (lang : language) : nat -> list ascii -> list token -> Prop :=
| lexes_nil pos : lexes lang pos [] []
| lexes_rule pos s a n ts :
    findRule (root lang) s = Some (a, n) ->
    0 < n -> n <= length s ->
    lexes lang (pos + n) (drop n s) ts ->
    lexes lang pos s (Tok pos (resolve a (take n s)) (take n s) :: ts)
| lexes_default pos c s ts :
    findRule (root lang) (c :: s) = None ->
    lexes lang (pos + 1) s ts ->
    lexes lang pos (c :: s) (Tok pos (defaultToken lang) [c] :: ts).

Definition productive (lang : language) : bool :=
  forallb (fun ra => consumes (fst ra)) (root lang).

Definition placed (base : nat) (s : list ascii) (t : token) : Prop :=
  base <= offset t /\
  text t <> [] /\
  take (length (text t)) (drop (offset t - base) s) = text t.

(** A token standing where no rule matches is one character of the
    default class. *)
Definition fallback (lang : language) (base : nat) (s : list ascii) (t : token) : Prop :=
  findRule (root lang) (drop (offset t - base) s) = None ->
  type t = defaultToken lang /\ length (text t) = 1.

(** How the loop makes a token of a line: a rule matches the text at the
    token's offset and gives its class and length, or no rule matches
    there and the token is one character of the default class. *)
Definition produced (lang : language) (base : nat) (s : list ascii) (t : token) : Prop :=
  let here := drop (offset t - base) s in
  (exists a n, findRule (root lang) here = Some (a, n) /\ 0 < n <= length here /\
               type t = resolve a (take n here) /\ text t = take n here) \/
  (findRule (root lang) here = None /\
   exists c s', here = c :: s' /\ type t = defaultToken lang /\ text t = [c]).

(** The offset right after a token. *)
Definition tokenEnd (t : token) : nat := offset t + length (text t).

(** Tokens that stand one right after the other, the first at [pos]. *)
Fixpoint chained (pos : nat) (ts : list token) : Prop :=
  match ts with
  | [] => True
  | t :: ts' => offset t = pos /\ chained (tokenEnd t) ts'
  end.

(** The token [m] of the stream is the tokens [run] of the rule loop
    taken together: they have its class, stand one right after the other
    from its offset on, and their texts make up its text. *)
Definition fuses (run : list token) (m : token) : Prop :=
  match run with
  | [] => False
  | t :: _ =>
      offset m = offset t /\ text m = concat (map text run) /\
      Forall (fun t' => type t' = type m) run /\ chained (offset t) run
  end.

(** No two neighbours share a class among the classes [C]. *)
Fixpoint apart (C : string -> bool) (ts : list token) : Prop :=
  match ts with
  | t1 :: ts' =>
      match ts' with
      | t2 :: _ => (type t1 = type t2 -> C (type t1) = false) /\ apart C ts'
      | [] => True
      end
  | [] => True
  end.

(** The text is one or more pieces, each as [P] says. *)
Definition pieces (P : list ascii -> Prop) (w : list ascii) : Prop :=
  exists ws, ws <> [] /\ w = concat ws /\ Forall P ws.

(** The rule loop comes to offset [i] of the line: a token it emits
    starts there. *)
Definition arrives (lang : language) (line : list ascii) (i : nat) : Prop :=
  exists ts t, ruleTokens lang line = Tokens ts /\ In t ts /\ offset t = i.

(** A character no rule recognizes: the loop comes to it and no rule
    matches there. *)
Definition unrecognized (lang : language) (line : list ascii) (i : nat) : Prop :=
  arrives lang line i /\ findRule (root lang) (drop i line) = None.

(** Offset [i] lies in a token of class [ty]. *)
Definition inClass (ty : string) (i : nat) (ts : list token) : Prop :=
  exists m, In m ts /\ type m = ty /\ offset m <= i < tokenEnd m.

End Monarch.

(* ===================================================================== *)
(** ** The Antimony language definition *)
(* ===================================================================== *)

Module Antimony.

Import Chars Regex Monarch.

Definition lit (s : string) : regex := RLit (chars s).

(** [\/\/.*] *)
Definition commentRe : regex := RSeq (lit "//") (RStar (RChar isDot)).
(** A double quote, any characters but double quotes, a double quote. *)
Definition stringRe : regex :=
  RSeqs [ROne dquote; RStar (RChar (fun c => negb (isChar dquote c))); ROne dquote].
(** [\(|\)] *)
Definition parenRe : regex := RAlt (ROne "(") (ROne ")").
(** [=>|->] *)
Definition transformRe : regex := RAlt (lit "=>") (lit "->").
(** [=|:=] *)
Definition assignRe : regex := RAlt (lit "=") (lit ":=").
(** [\-|\+|\*|\/|\^|\;] *)
Definition operatorRe : regex :=
  RAlts [ROne "-"; ROne "+"; ROne "*"; ROne "/"; ROne "^"; ROne ";"].

Definition keywordList : list string := ["at"; "in"; "import"; "has"].
(** [\b(at|in|import|has)\b] *)
Definition keywordsRe : regex :=
  RSeqs [RWordBoundary; RAlts (map lit keywordList); RWordBoundary].

Definition annotationList : list string :=
  [ "identity"; "is"; "model_source"; "biological_entity_is"; "hasPart";
    "isPartOf"; "parthood"; "part"; "isVersionOf"; "hypernym";
    "biological_system"; "hasVersion"; "version"; "isHomologTo"; "homolog";
    "isDescribedBy"; "description"; "publication"; "isEncodedBy"; "encoder";
    "encodes"; "encodement"; "occursIn"; "container"; "hasProperty";
    "property"; "isPropertyOf"; "propertyBearer"; "hasTaxon"; "taxon";
    "sboTerm"; "model_entity_is"; "origin"; "isDerivedFrom"; "hasInstance";
    "instance" ].
(** [(?:identity|is|model_source|...|instance)], without word boundaries. *)
Definition annotationRe : regex := RAlts (map lit annotationList).

Definition isAlnumUnderscore (c : ascii) : bool :=
  between "a" "z" c || between "A" "Z" c || isDigit c || isChar "_" c.
(** [\b[a-zA-Z0-9_]+\:] *)
Definition reactRe : regex :=
  RSeqs [RWordBoundary; RPlus (RChar isAlnumUnderscore); ROne ":"].

(** [@?[a-zA-Z][\w$]*], with the cases of the declared kinds. *)
Definition identRe : regex :=
  RSeqs [ROpt (ROne "@"); RChar isLetter; RStar (RChar isWordDollar)].
Definition kindList : list string :=
  ["const"; "unit"; "var"; "species"; "function"; "model"; "end"; "compartment"].
Definition identCases : action :=
  Cases (map (fun k => (k, k)) kindList) "other".

Definition isSign (c : ascii) : bool := isChar "-" c || isChar "+" c.
Definition isExpMark (c : ascii) : bool := isChar "e" c || isChar "E" c.
Definition isHexMark (c : ascii) : bool := isChar "x" c || isChar "X" c.

Definition digits : regex := RPlus (RChar isDigit).
Definition sign : regex := RChar isSign.
Definition expMark : regex := RChar isExpMark.

(** The alternatives of the number pattern, in its order: digits with an
    optional fraction (a dot and any digits); a dot and digits; 0x or 0X
    and hex digits; 0o and octal digits; 0b and binary digits; digits, e
    or E, an optional sign, digits; the same followed by f; an optional
    sign, digits, f. *)
Definition decimalRe : regex :=
  RSeq digits (ROpt (RSeq (ROne ".") (RStar (RChar isDigit)))).
Definition fractionRe : regex := RSeq (ROne ".") digits.
Definition hexRe : regex := RSeqs [ROne "0"; RChar isHexMark; RPlus (RChar isHex)].
Definition octalRe : regex := RSeqs [ROne "0"; ROne "o"; RPlus (RChar isOct)].
Definition binaryRe : regex := RSeqs [ROne "0"; ROne "b"; RPlus (RChar isBin)].
Definition exponentRe : regex := RSeqs [digits; expMark; ROpt sign; digits].
Definition exponentFRe : regex :=
  RSeqs [digits; expMark; ROpt sign; digits; ROne "f"].
Definition floatFRe : regex := RSeqs [ROpt sign; digits; ROne "f"].
Definition numberAlts : list regex :=
  [ decimalRe; fractionRe; hexRe; octalRe; binaryRe; exponentRe; exponentFRe;
    floatFRe ].
(** The number pattern: one of the alternatives between two word
    boundaries. *)
Definition numberRe : regex :=
  RSeqs [RWordBoundary; RAlts numberAlts; RWordBoundary].

(** The [root] state. The [whitespace] state of the definition is never
    entered or included from [root], and no [defaultToken] is set, so the
    tokenizer's own default class applies. *)
Definition antimonyLanguage : language :=
  {| defaultToken := sourceToken;
     root :=
       [ (commentRe, Token "comment");
         (stringRe, Token "string");
         (parenRe, Token "connected-parentheses");
         (transformRe, Token "transform");
         (assignRe, Token "assign");
         (operatorRe, Token "operator");
         (keywordsRe, Token "keywords");
         (annotationRe, Token "annotation");
         (reactRe, Token "react-remov");
         (identRe, identCases);
         (numberRe, Token "number") ] |}.

Definition tokenize (line : list ascii) : outcome :=
  tokenizeLine antimonyLanguage line.

(** *** Specification vocabulary *)

(** The outcome of a line is a token stream that tiles the line, every
    token at its source offset. In a line shorter than the limit, a
    character no rule recognizes lies in a token of the default class; a
    line of the limit's length or more is one token of the empty class. *)
Definition tokenized (lang : language) (line : list ascii) (o : outcome) : Prop :=
  exists ts, o = Tokens ts /\ concat (map text ts) = line /\
             Forall (placed 0 line) ts /\
             (length line < maxTokenizationLineLength ->
              forall i, unrecognized lang line i -> inClass (defaultToken lang) i ts) /\
             (maxTokenizationLineLength <= length line ->
              ts = [Tok 0 nullToken line]).

Fixpoint startsWith (k x : list ascii) : bool :=
  match k, x with
  | [], _ => true
  | c :: k', d :: x' => isChar c d && startsWith k' x'
  | _ :: _, [] => false
  end.

Definition memText (ws : list string) (w : list ascii) : bool :=
  existsb (fun k => String.eqb k (String.string_of_list_ascii w)) ws.

(** A letter followed by letters, digits and underscores. *)
Definition isIdentifier (w : list ascii) : bool :=
  match w with
  | l :: w' => isLetter l && forallb isWord w'
  | [] => false
  end.

(** What may follow a word: the end of the line, or a character that is
    neither part of an identifier nor a colon. *)
Definition endsWord (post : list ascii) : bool :=
  match post with
  | [] => true
  | d :: _ => negb (isWordDollar d) && negb (isChar ":" d)
  end.

(** An identifier that is no keyword and that no word of the annotation
    pattern starts. *)
Definition isPlainWord (w : list ascii) : bool :=
  isIdentifier w
  && negb (memText keywordList w)
  && negb (existsb (fun a => startsWith (chars a) w) annotationList).

(** A plain word that is no declared kind either. *)
Definition isGeneric (w : list ascii) : bool :=
  isPlainWord w && negb (memText kindList w).

(** The token the loop gives when it stands before the text [rest], at
    whatever offset of a line. *)
Definition tokenAt (ty : string) (w : list ascii) (rest : list ascii) : Prop :=
  forall fuel pos, length rest <= fuel ->
    exists ts, tokenizeLoop antimonyLanguage fuel pos rest = Tokens (Tok pos ty w :: ts).

(** The first token the rule loop emits on a line. *)
Definition firstToken (ty : string) (w : list ascii) (line : list ascii) : Prop :=
  exists ts, ruleTokens antimonyLanguage line = Tokens (Tok 0 ty w :: ts).

Definition single (ty : string) (w : list ascii) : outcome := Tokens [Tok 0 ty w].

Definition wordy (k : string) : bool :=
  forallb isWord (chars k)
  && match last (chars k) with Some c => isWord c | None => false end.

(** Words of the annotation pattern that an earlier alternative of the
    pattern starts. *)
Definition shadowed : list string :=
  [ "isPartOf"; "isVersionOf"; "isHomologTo"; "isDescribedBy"; "isEncodedBy";
    "isPropertyOf"; "propertyBearer"; "isDerivedFrom" ].

Definition wholeAnnotations : list string :=
  List.filter (fun a => negb (existsb (String.eqb a) shadowed)) annotationList.




(** *** Vocabulary of the other rules *)

(** The characters besides word characters that a rule can start a match
    with. *)
Definition starters : list ascii :=
  ["/"; dquote; "("; ")"; "="; "-"; ":"; "+"; "*"; "^"; ";"; "@"]%char.

(** A character no rule can start a match with. *)
Definition opaque (c : ascii) : bool :=
  negb (isWord c) && negb (existsb (fun x => isChar x c) starters).

Definition notQuote (c : ascii) : bool := negb (isChar dquote c).

(** Marks that are one token wherever they stand, with their class. *)
Definition marks : list (string * string) :=
  [ ("=>", "transform"); ("->", "transform"); (":=", "assign");
    ("(", "connected-parentheses"); (")", "connected-parentheses");
    ("+", "operator"); ("*", "operator"); ("^", "operator"); (";", "operator") ]%string.

(** Marks that start a longer one: one token unless the character that
    would complete the longer mark follows. *)
Definition shortMarks : list (string * string * ascii) :=
  [ ("=", "assign", ">"%char); ("-", "operator", ">"%char);
    ("/", "operator", "/"%char) ]%string.

(** *** What the tokens of a class look like *)

(** The text after a token on its line. *)
Definition after (line : list ascii) (t : token) : list ascii :=
  drop (offset t + length (text t)) line.

Definition commentText (w : list ascii) : Prop :=
  exists body, w = chars "//" ++ body /\ forallb isDot body = true.

Definition stringText (w : list ascii) : Prop :=
  exists body, w = dquote :: body ++ [dquote] /\ forallb notQuote body = true.

Definition labelText (w : list ascii) : Prop :=
  exists name, w = name ++ [":"%char] /\ run isWord name = true.

(** A letter, with or without [@] before it, and word characters or
    dollar signs. *)
Definition nameText (w : list ascii) : Prop :=
  exists l tl, (w = l :: tl \/ w = "@"%char :: l :: tl) /\
               isLetter l = true /\ forallb isWordDollar tl = true.

Definition digitLed (w : list ascii) : Prop :=
  exists d tl, w = d :: tl /\ isDigit d = true.

Definition parenList : list string := ["("; ")"].
Definition transformList : list string := ["=>"; "->"].
Definition assignList : list string := ["="; ":="].
Definition operatorList : list string := ["-"; "+"; "*"; "/"; "^"; ";"].

(** What the rule loop emits in each class; it emits no other class. A
    keyword and a declared-kind word end where the word ends, and a
    token of the default class is a character at which no rule matches. *)
Definition ruleShape (line : list ascii) (t : token) : Prop :=
  let ty := type t in
  let w := text t in
  if String.eqb ty "comment" then
    commentText w /\ stops isDot (after line t) = true
  else if String.eqb ty "string" then stringText w
  else if String.eqb ty "connected-parentheses" then memText parenList w = true
  else if String.eqb ty "transform" then memText transformList w = true
  else if String.eqb ty "assign" then memText assignList w = true
  else if String.eqb ty "operator" then memText operatorList w = true
  else if String.eqb ty "keywords" then
    memText keywordList w = true /\ stops isWord (after line t) = true
  else if String.eqb ty "annotation" then memText annotationList w = true
  else if String.eqb ty "react-remov" then labelText w
  else if String.eqb ty "number" then digitLed w
  else if String.eqb ty "other" then nameText w /\ memText kindList w = false
  else if String.eqb ty "source" then
    length w = 1 /\ findRule (root antimonyLanguage) (drop (offset t) line) = None
  else if existsb (String.eqb ty) kindList then
    w = chars ty /\ stops isWordDollar (after line t) = true
  else False.

(** The classes whose tokens the collector never joins: after a comment
    the line is at its end, and a keyword or a declared-kind word is
    followed by no character that could start another. *)
Definition standsAlone (ty : string) : bool :=
  String.eqb ty "comment" || String.eqb ty "keywords"
  || existsb (String.eqb ty) kindList.

(** What a token of the stream is, class by class: the tokens of a class
    that stands alone are as the rule loop emits them, the others are one
    or more of them in a row. A token of the default class is made of
    characters at which no rule matches, and the empty class is that of
    the one token of a line that is not tokenized. No other class
    occurs. *)
Definition tokenShape (line : list ascii) (t : token) : Prop :=
  let ty := type t in
  let w := text t in
  if String.eqb ty "comment" then
    commentText w /\ stops isDot (after line t) = true
  else if String.eqb ty "string" then pieces stringText w
  else if String.eqb ty "connected-parentheses" then
    pieces (fun p => memText parenList p = true) w
  else if String.eqb ty "transform" then
    pieces (fun p => memText transformList p = true) w
  else if String.eqb ty "assign" then
    pieces (fun p => memText assignList p = true) w
  else if String.eqb ty "operator" then
    pieces (fun p => memText operatorList p = true) w
  else if String.eqb ty "keywords" then memText keywordList w = true
  else if String.eqb ty "annotation" then
    pieces (fun p => memText annotationList p = true) w
  else if String.eqb ty "react-remov" then pieces labelText w
  else if String.eqb ty "number" then digitLed w
  else if String.eqb ty "other" then
    pieces (fun p => nameText p /\ memText kindList p = false) w
  else if String.eqb ty "source" then
    forall j, j < length w ->
      findRule (root antimonyLanguage) (drop (offset t + j) line) = None
  else if existsb (String.eqb ty) kindList then w = chars ty
  else if String.eqb ty nullToken then
    maxTokenizationLineLength <= length line /\ t = Tok 0 nullToken line
  else False.

(** The classes of the language definition, the default class included. *)
Definition tokenClasses : list string :=
  [ "comment"; "string"; "connected-parentheses"; "transform"; "assign";
    "operator"; "keywords"; "annotation"; "react-remov"; "other"; "number";
    "source" ] ++ kindList.

End Antimony.

(* ===================================================================== *)
(** ** The data model of the language service *)
(* ===================================================================== *)

Module Model.

(** Modelled from the spec: the data model of section 3 (positions,
    ranges, annotation statements, diagnostics); the language service
    that builds them is not among the sources. *)
Record Position : Type := { line : nat; column : nat }.
Record Range : Type := { start : Position; finish : Position }.

Inductive Severity : Type := Error | Warning | Hint.

Record AnnotationStatement : Type := {
  subjectName : string;
  predicate : string;
  resourceURI : string;
  annotationRange : Range;
}.

Record Diagnostic : Type := {
  severity : Severity;
  range : Range;
  message : string;
  code : string;
}.

(** Line major, column minor. *)
Definition positionCompare (p q : Position) : comparison :=
  match Nat.compare (line p) (line q) with
  | Eq => Nat.compare (column p) (column q)
  | c => c
  end.

Definition positionLe (p q : Position) : Prop := positionCompare p q <> Gt.

End Model.

(* ===================================================================== *)
(** ** The position index *)
(* ===================================================================== *)

Module PositionIndex.

Import Model.

(** Modelled from the spec: the position index of section 4.3
    ([annotationsFor], [latestAnnotationFor]); the editor component that
    navigates to an annotation is not among the sources, only its test.
    The annotations of a model are kept in document order. *)
Definition annotationsFor (annotations : list AnnotationStatement) (name : string)
  : list AnnotationStatement :=
  List.filter (fun a => String.eqb (subjectName a) name) annotations.

(** Modelled from the spec: the last matching annotation statement. *)
Definition latestAnnotationFor (annotations : list AnnotationStatement) (name : string)
  : option AnnotationStatement :=
  last (annotationsFor annotations name).

Record Selection : Type := {
  startLineNumber : nat;
  startColumn : nat;
  endLineNumber : nat;
  endColumn : nat;
}.

(** Modelled from the spec: the navigate-to-annotation action of the
    editor component (absent from the sources), as its test observes it:
    the line of the latest annotation is revealed and selected from column
    1 to the last column of the line; without an annotation nothing is
    selected. *)
Definition navigateToAnnotation (annotations : list AnnotationStatement)
           (name : string) (maxColumn : nat) : option (nat * Selection) :=
  match latestAnnotationFor annotations name with
  | Some a =>
      let l := line (start (annotationRange a)) in
      Some (l, {| startLineNumber := l; startColumn := 1;
                  endLineNumber := l; endColumn := maxColumn |})
  | None => None
  end.

(** Document order: statements sorted by the start of their range. *)
Definition documentOrder (annotations : list AnnotationStatement) : Prop :=
  StronglySorted (fun a b => positionLe (start (annotationRange a)) (start (annotationRange b)))
                 annotations.

(** *** Specification vocabulary *)

Definition annotationAt (subject : string) (ln : nat) : AnnotationStatement :=
  {| subjectName := subject; predicate := "identity";
     resourceURI := "http://identifiers.org/uniprot/P00734";
     annotationRange := {| start := {| line := ln; column := 1 |};
                           finish := {| line := ln; column := 80 |} |} |}.

Definition sampleAnnotations : list AnnotationStatement :=
  [ annotationAt "ProteinA" 18; annotationAt "ProteinD" 19;
    annotationAt "ProteinE" 20; annotationAt "ProteinD" 66;
    annotationAt "ProteinE" 67 ].

End PositionIndex.

(* ===================================================================== *)
(** ** The diagnostics engine *)
(* ===================================================================== *)

Module Diagnostics.

Import Model.

Global Instance Position_eq_dec : EqDecision Position.
Proof. solve_decision. Defined.
Global Instance Range_eq_dec : EqDecision Range.
Proof. solve_decision. Defined.

(** What makes two diagnostics exact duplicates. *)
Definition diagIdentity (d : Diagnostic) : Range * string * string :=
  (range d, code d, message d).

Definition sameDiagnostic (d e : Diagnostic) : bool :=
  bool_decide (diagIdentity d = diagIdentity e).

(** Modelled from the spec: duplicate removal of the diagnostics engine
    (section 4.4), which has no source file; the first of several exact
    duplicates stays. *)
Fixpoint dedupe (l : list Diagnostic) : list Diagnostic :=
  match l with
  | [] => []
  | d :: l' => d :: List.filter (fun e => negb (sameDiagnostic d e)) (dedupe l')
  end.

(** Severity descending: errors first. *)
Definition severityOrder (s : Severity) : nat :=
  match s with Error => 0 | Warning => 1 | Hint => 2 end.

Definition codeOrder (c : string) : list N :=
  map N_of_ascii (String.list_ascii_of_string c).

(** Modelled from the spec: the sort key (range start, severity
    descending, code in lexical order). *)
Definition sortKey (d : Diagnostic) : nat * nat * nat * list N :=
  (line (start (range d)), column (start (range d)),
   severityOrder (severity d), codeOrder (code d)).

Definition diagBefore (d e : Diagnostic) : Prop := lexico (sortKey d) (sortKey e).
Definition diagLe (d e : Diagnostic) : Prop := ~ diagBefore e d.

Global Instance diagLe_dec : RelDecision diagLe.
Proof. intros d e. unfold diagLe, diagBefore. apply _. Defined.

(** Modelled from the spec: [merge] of section 4.4: concatenate, remove
    exact duplicates, sort. *)
Definition merge (syntaxDiagnostics semanticDiagnostics : list Diagnostic)
  : list Diagnostic :=
  merge_sort diagLe (dedupe (syntaxDiagnostics ++ semanticDiagnostics)).

End Diagnostics.

(* ===================================================================== *)
(** ** The notes normalizer *)
(* ===================================================================== *)

Module Notes.

Import Chars.

(** Modelled from the spec: the notes normalizer of section 4.5
    ([normalizeNotes], which the tests call [processContent]); the editor
    component that exports it is not among the sources, only its tests
    are. The reserved block keyword and the fence marker are those of the
    tests. *)
Definition keyword : list ascii := chars "notes".
Definition fence : list ascii := chars "```".

Global Arguments keyword : simpl never.
Global Arguments fence : simpl never.

Definition isBlank (c : ascii) : bool :=
  isChar " " c || isChar "009" c || isChar "010" c || isChar "013" c.

(** Modelled from the spec: the tag-mapping table (bold and italic tags
    to their lightweight-markup delimiters). *)
Definition tagTable : list (list ascii * list ascii) :=
  [ (chars "<b>", chars "**"); (chars "</b>", chars "**");
    (chars "<strong>", chars "**"); (chars "</strong>", chars "**");
    (chars "<i>", chars "_"); (chars "</i>", chars "_");
    (chars "<em>", chars "_"); (chars "</em>", chars "_") ].

Fixpoint stripPrefix (k s : list ascii) : option (list ascii) :=
  match k, s with
  | [], _ => Some s
  | c :: k', d :: s' => if isChar c d then stripPrefix k' s' else None
  | _ :: _, [] => None
  end.

(** The replacement of the first tag of the table that starts [s], and
    the text after the tag. *)
Fixpoint tagAt (table : list (list ascii * list ascii)) (s : list ascii)
  : option (list ascii * list ascii) :=
  match table with
  | [] => None
  | (tag, rep) :: table' =>
      match stripPrefix tag s with
      | Some rest => Some (rep, rest)
      | None => tagAt table' s
      end
  end.

Fixpoint convertLoop (table : list (list ascii * list ascii)) (fuel : nat)
         (s : list ascii) : list ascii :=
  match fuel with
  | O => s
  | S n =>
      match s with
      | [] => []
      | c :: s' =>
          match tagAt table s with
          | Some (rep, rest) => rep ++ convertLoop table n rest
          | None => c :: convertLoop table n s'
          end
      end
  end.

(** Modelled from the spec: every tag of the table inside a block is
    replaced by its delimiter, left to right. *)
Definition convertMarkup (table : list (list ascii * list ascii)) (s : list ascii)
  : list ascii :=
  convertLoop table (length s) s.

Fixpoint spanBlank (s : list ascii) : list ascii * list ascii :=
  match s with
  | c :: s' =>
      if isBlank c then let (ws, r) := spanBlank s' in (c :: ws, r) else ([], s)
  | [] => ([], [])
  end.

(** Modelled from the spec: a block opens where the reserved keyword is
    followed, after blanks only, by the fence marker. The result is the
    header read and the text after it. *)
Definition openBlock (s : list ascii) : option (list ascii * list ascii) :=
  match stripPrefix keyword s with
  | Some r1 =>
      let (ws, r2) := spanBlank r1 in
      match stripPrefix fence r2 with
      | Some r3 => Some (keyword ++ ws ++ fence, r3)
      | None => None
      end
  | None => None
  end.

(** The text up to the next fence marker, and the text after the marker. *)
Fixpoint splitAtFence (s : list ascii) : option (list ascii * list ascii) :=
  match stripPrefix fence s with
  | Some r => Some ([], r)
  | None =>
      match s with
      | [] => None
      | c :: s' =>
          match splitAtFence s' with
          | Some (b, p) => Some (c :: b, p)
          | None => None
          end
      end
  end.

Fixpoint normalizeLoop (table : list (list ascii * list ascii)) (fuel : nat)
         (s : list ascii) : list ascii :=
  match fuel with
  | O => s
  | S n =>
      match s with
      | [] => []
      | c :: s' =>
          match openBlock s with
          | Some (hdr, r) =>
              match splitAtFence r with
              | Some (body, post) =>
                  hdr ++ convertMarkup table body ++ fence ++ normalizeLoop table n post
              | None => s   (* an unterminated fence: left untouched *)
              end
          | None => c :: normalizeLoop table n s'
          end
      end
  end.

Definition normalizeWith (table : list (list ascii * list ascii)) (text : list ascii)
  : list ascii :=
  normalizeLoop table (length text) text.

(** Modelled from the spec: [normalizeNotes]. *)
Definition normalizeNotes (text : list ascii) : list ascii :=
  normalizeWith tagTable text.

(** A block opens somewhere in the text and is closed. *)
Fixpoint hasNotesBlock (s : list ascii) : bool :=
  match openBlock s with
  | Some (_, r) => match splitAtFence r with Some _ => true | None => false end
  | None => false
  end
  || match s with
     | [] => false
     | _ :: s' => hasNotesBlock s'
     end.

(** *** Specification vocabulary *)

(** The characters lightweight markup is written with. *)
Definition isMarkup (c : ascii) : bool := isChar "*" c || isChar "_" c.

Definition plain (c : ascii) : bool := negb (isChar "<" c) && negb (isMarkup c).

(** A tag opens with an angle bracket and has no other, nor a markup
    character; a replacement is markup characters, at least one. *)
Definition tagOk (tag : list ascii) : bool :=
  match tag with
  | c :: tail => isChar "<" c && forallb plain tail
  | [] => false
  end.

Definition repOk (rep : list ascii) : bool :=
  match rep with
  | [] => false
  | _ => forallb isMarkup rep
  end.

Definition tableOk (table : list (list ascii * list ascii)) : bool :=
  forallb (fun tr => tagOk (fst tr) && repOk (snd tr)) table.

(** What may follow a text without a tag of it reaching over. *)
Definition startsTag (t : list ascii) : bool :=
  match t with
  | [] => true
  | c :: _ => isChar "<" c
  end.

(** The text of the tests of [processContent]. *)
Definition antimonyWithNotes : list ascii :=
  chars "A: lprll1p2r1lplp laplfsdf
model notes ```
		<b>convert this to markdown</b>
	```
end".

Definition scenarioD : list ascii :=
  chars "model notes ```
<b>x</b>
```
end".

End Notes.

(* ===================================================================== *)
(** ** The recommendation modal *)
(* ===================================================================== *)

Module Modal.

Record Recommendation : Type := {
  type : string;
  id : string;
  displayName : string;
  metaId : string;
  annotation : string;
  annotationLabel : string;
  matchScore : float;
  existing : float;
  updateAnnotation : string;
  isLowMatch : bool;
}.

Definition setLowMatch (rec : Recommendation) (b : bool) : Recommendation :=
  {| type := type rec; id := id rec; displayName := displayName rec;
     metaId := metaId rec; annotation := annotation rec;
     annotationLabel := annotationLabel rec; matchScore := matchScore rec;
     existing := existing rec; updateAnnotation := updateAnnotation rec;
     isLowMatch := b |}.

Definition initialCutoff : float := 0.01%float.

(** [handleCutoff]; [value] is what [parseFloat] made of the input field. *)
Definition handleCutoff (cutoff value : float) : float :=
  if PrimFloat.leb 0.0 value && PrimFloat.leb value 1.0 then value else cutoff.

Definition getRecommendationKey (rec : Recommendation) : string :=
  id rec +:+ "-" +:+ annotation rec.

Definition checkLowMatch (group : list Recommendation) : list Recommendation :=
  let existingZeros := List.filter (fun rec => PrimFloat.eqb (existing rec) 0) group in
  map (fun rec =>
         if PrimFloat.eqb (existing rec) 1 then
           let hasLowMatch :=
             existsb (fun existingZero =>
                        PrimFloat.ltb (matchScore rec) (matchScore existingZero))
                     existingZeros in
           setLowMatch rec hasLowMatch
         else rec)
      group.

(** Names every object literal inherits: looking one up in [{}] finds a
    value that is no array. *)
Definition objectPrototypeKeys : list string :=
  [ "constructor"; "__proto__"; "hasOwnProperty"; "isPrototypeOf";
    "propertyIsEnumerable"; "toLocaleString"; "toString"; "valueOf";
    "__defineGetter__"; "__defineSetter__"; "__lookupGetter__";
    "__lookupSetter__" ].

(** One step of the grouping [reduce]; [None] is the [TypeError] of
    [push] on an inherited property. *)
Definition groupStep (groups : option (gmap string (list Recommendation)))
           (rec : Recommendation) : option (gmap string (list Recommendation)) :=
  match groups with
  | None => None
  | Some g =>
      if existsb (String.eqb (id rec)) objectPrototypeKeys then None
      else match g !! id rec with
           | None => Some (<[id rec := [rec]]> g)
           | Some group => Some (<[id rec := group ++ [rec]]> g)
           end
  end.

Definition groupedRecommendations (recomTable : list Recommendation)
  : option (gmap string (list Recommendation)) :=
  fold_left groupStep recomTable (Some ∅).

Definition processOne (groups : gmap string (list Recommendation))
           (rec : Recommendation) : option Recommendation :=
  match groups !! id rec with
  | None => None
  | Some group =>
      let checkedGroup := checkLowMatch group in
      let updatedRec :=
        List.find (fun r => String.eqb (getRecommendationKey r) (getRecommendationKey rec))
                  checkedGroup in
      Some (setLowMatch rec
              (match updatedRec with Some r => isLowMatch r | None => false end || false))
  end.

Definition processedRecommendations (recomTable : list Recommendation)
  : option (list Recommendation) :=
  match groupedRecommendations recomTable with
  | None => None
  | Some groups => mapM (processOne groups) recomTable
  end.

(** *** Specification vocabulary *)

Definition inUnit (v : float) : bool := PrimFloat.leb 0 v && PrimFloat.leb v 1.

Definition cutoffAfter (events : list float) : float :=
  fold_left handleCutoff events initialCutoff.

(** What [checkLowMatch] makes of one recommendation of a group. *)
Definition mark (group : list Recommendation) (rec : Recommendation) : Recommendation :=
  if PrimFloat.eqb (existing rec) 1 then
    setLowMatch rec
      (existsb (fun z => PrimFloat.eqb (existing z) 0
                         && PrimFloat.ltb (matchScore rec) (matchScore z)) group)
  else rec.

Definition sameId (k : string) (rec : Recommendation) : bool := String.eqb (id rec) k.

Definition plainId (rec : Recommendation) : Prop :=
  existsb (String.eqb (id rec)) objectPrototypeKeys = false.

Definition recommendation (i a : string) (score ex : float) : Recommendation :=
  {| type := "species"; id := i; displayName := i; metaId := i;
     annotation := a; annotationLabel := a; matchScore := score;
     existing := ex; updateAnnotation := "keep"; isLowMatch := false |}.

Definition sampleTable : list Recommendation :=
  [ recommendation "S1" "CHEBI:15377" 0.5 1;
    recommendation "S1" "CHEBI:16236" 0.9 0;
    recommendation "S2" "CHEBI:17234" 0.7 1 ].

(** *** The selection *)

(** Whether [selectedRecommendations[key]] is truthy: the object starts
    as an object literal, so a name it inherits is found, and is truthy,
    where it has no property of its own. *)
Definition selected (sel : gmap string bool) (key : string) : bool :=
  match sel !! key with
  | Some b => b
  | None => existsb (String.eqb key) objectPrototypeKeys
  end.

(** One step of the [reduce] that makes the first selection:
    [acc[key] = rec.existing === 1]; assigning a boolean to [__proto__]
    changes nothing. *)
Definition selectStep (acc : gmap string bool) (rec : Recommendation)
  : gmap string bool :=
  let key := getRecommendationKey rec in
  if String.eqb key "__proto__" then acc
  else <[key := PrimFloat.eqb (existing rec) 1]> acc.

Definition initialSelection (recomTable : list Recommendation) : gmap string bool :=
  fold_left selectStep recomTable ∅.

(** [handleSelect]: [{...prev, [key]: !prev[key]}]. *)
Definition handleSelect (prev : gmap string bool) (key : string) : gmap string bool :=
  <[key := negb (selected prev key)]> prev.

(** The recommendations [handleUpdateAnnotations] hands to the
    recommender. *)
Definition chosen (recommendations : list Recommendation)
           (selectedRecommendations : gmap string bool) : list Recommendation :=
  List.filter (fun rec => selected selectedRecommendations (getRecommendationKey rec))
              recommendations.

(** *** The sort configuration *)

Inductive SortOrder : Type := ASC | DESC.

Record SortConfig : Type := {
  field : option string;
  order : SortOrder;
}.

Definition initialSortConfig : SortConfig := {| field := None; order := ASC |}.

(** [handleSort] *)
Definition handleSort (prev : SortConfig) (f : string) : SortConfig :=
  {| field := Some f;
     order :=
       if match field prev with Some g => String.eqb g f | None => false end
          && match order prev with ASC => true | DESC => false end
       then DESC else ASC |}.

(** *** Specification vocabulary *)

Definition hyphenFree (s : string) : bool :=
  forallb (fun c => negb (Ascii.eqb c "-")) (String.list_ascii_of_string s).

Definition sameKey (rec r : Recommendation) : bool :=
  String.eqb (getRecommendationKey r) (getRecommendationKey rec).

Definition existingOne (rec : Recommendation) : bool := PrimFloat.eqb (existing rec) 1.

(** The state of a key after the clicks [keys] on its checkbox and on
    others. *)
Definition clicks (keys : list string) (sel : gmap string bool) : gmap string bool :=
  fold_left handleSelect keys sel.

Definition timesClicked (key : string) (keys : list string) : nat :=
  length (List.filter (String.eqb key) keys).

(** The rows of the table with the id of [rec], and the first of them
    with the key of [rec]. *)
Definition group (table : list Recommendation) (rec : Recommendation)
  : list Recommendation :=
  List.filter (sameId (id rec)) table.

Definition firstWithKey (table : list Recommendation) (rec : Recommendation)
  : option Recommendation :=
  List.find (sameKey rec) (group table rec).

Definition flip (o : SortOrder) : SortOrder :=
  match o with ASC => DESC | DESC => ASC end.

(** A table with a row under each of two ids, one of them twice. *)
Definition duplicateTable : list Recommendation :=
  [ recommendation "S1" "CHEBI:15377" 0.5 1;
    recommendation "S1" "CHEBI:16236" 0.9 0;
    recommendation "S1" "CHEBI:15377" 0.95 1;
    recommendation "S2" "CHEBI:17234" 0.7 1 ].

(** *** The handlers *)

(** What a call into the libraries, the browser or the database gives:
    a value, or an exception (a rejected promise, when awaited). *)
Inductive Result (A : Type) : Type :=
| Ok (a : A)
| Throw (error : string).
Arguments Ok {A} a.
Arguments Throw {A} error.

Inductive MSSC : Type := TOP | ABOVE.

Inductive Message : Type :=
| Loading
| PredictingSpecies (numSpecies : nat)
| PredictingReactions (numReactions : nat)
| CreatingTable.

Record File : Type := { name : string; content : string }.

(** What a handler does, in order: the calls it makes, the state and the
    globals it sets, the callbacks of its props it calls. *)
Inductive Event : Type :=
| SetStep (n : nat)
| Pause
| CreateRecommender (file fileName : string)
| SetRecommender
| SetProgressMessage (m : Message)
| SetProgress (v : float)
| PredictSpecies (mssc : MSSC) (cutoff : float)
| PredictReactions (mssc : MSSC) (cutoff : float)
| CreateRecommendationTable
| SetRecommendations (recs : list Recommendation)
| SetSelectedRecommendations (sel : gmap string bool)
| GetSBMLDocument (chosen : list Recommendation)
| ConvertSBMLToAntimony (sbml : string)
| SetAntimonyString (c : string)
| SetSbmlString (c : string)
| SetFileContent (c : string)
| SetItem (key value : string)
| DbPut (file : File)
| DbGetAll
| OpenDB
| SetUploadedFiles (files : list File)
| SetDb
| ConsoleError (message : string) (error : option string)
| OnClose.

(** A handler body: the events so far, and a value or the exception
    that stopped it. *)
Definition M (A : Type) : Type := (list Event * Result A)%type.

Definition ret {A} (a : A) : M A := ([], Ok a).

Definition bind {A B} (m : M A) (k : A -> M B) : M B :=
  match m with
  | (tr, Ok a) => let '(tr', r) := k a in (tr ++ tr', r)
  | (tr, Throw e) => (tr, Throw e)
  end.

Definition emit (e : Event) : M unit := ([e], Ok tt).
Definition call {A} (e : Event) (r : Result A) : M A := ([e], r).
Definition lift {A} (r : Result A) : M A := ([], r).

#[global] Instance M_ret : MRet M := @ret.
#[global] Instance M_bind : MBind M := fun A B k m => bind m k.

Record Recommender : Type := {
  getSpeciesIDs : Result nat;      (* the length of the list of ids *)
  getReactionIDs : Result nat;
  getSBMLDocument : list Recommendation -> Result string;
}.

Record Database : Type := {
  put : File -> Result unit;
  getAll : Result (list File);
}.

(** The messages the handlers log with an exception. *)
Definition generateError : string := "Unable to generate annotation recommendations:".
Definition updateError : string := "Unable to update annotations:".

Section Handlers.

Context {Prediction : Type}.

(** The props and the state of the component, and the functions it
    calls outside of itself. *)
Record Env : Type := {
  fileName : string;
  fileContent : string;
  isConverted : bool;
  db : option Database;
  cutoff : float;
  mssc : MSSC;
  recommender : option Recommender;
  recommendations : list Recommendation;
  selectedRecommendations : gmap string bool;
  createRecommender : string -> string -> Result Recommender;
  predictSpecies : Recommender -> MSSC -> float -> Result Prediction;
  predictReactions : Recommender -> MSSC -> float -> Result Prediction;
  createRecommendationTable :
    Recommender -> Prediction -> Prediction -> Result (list Recommendation);
  convertSBMLToAntimony : option (string -> Result string);
  setItem : string -> string -> Result unit;
  openDB : Result unit;
}.

(** The end of [handleGenerateAnnotations]: the low matches, the
    recommendations, the first selection, the third step. *)
Definition showRecommendations (recomTable : list Recommendation) : M unit :=
  processed ← lift (match processedRecommendations recomTable with
                     | Some recs => Ok recs
                     | None => Throw "TypeError"
                     end);
  emit (SetRecommendations processed) ;;
  emit (SetSelectedRecommendations (initialSelection recomTable)) ;;
  emit (SetStep 3).

Definition generateTry (env : Env) : M unit :=
  emit (SetStep 2) ;;
  emit Pause ;;
  recom ← call (CreateRecommender (fileContent env) (fileName env))
                (createRecommender env (fileContent env) (fileName env));
  numSpecies ← lift (getSpeciesIDs recom);
  numReactions ← lift (getReactionIDs recom);
  emit SetRecommender ;;
  emit (SetProgressMessage (PredictingSpecies numSpecies)) ;;
  emit (SetProgress 0.25) ;;
  emit Pause ;;
  predSpec ← call (PredictSpecies (mssc env) (cutoff env))
                   (predictSpecies env recom (mssc env) (cutoff env));
  emit (SetProgressMessage (PredictingReactions numReactions)) ;;
  emit (SetProgress 0.5) ;;
  emit Pause ;;
  predReac ← call (PredictReactions (mssc env) (cutoff env))
                   (predictReactions env recom (mssc env) (cutoff env));
  emit (SetProgressMessage CreatingTable) ;;
  emit (SetProgress 0.75) ;;
  emit Pause ;;
  recomTable ← call CreateRecommendationTable
                     (createRecommendationTable env recom predSpec predReac);
  emit (SetProgress 100) ;;
  emit Pause ;;
  showRecommendations recomTable.

(** [handleGenerateAnnotations]: on an exception the error is logged and
    the modal closed. *)
Definition handleGenerateAnnotations (env : Env) : list Event :=
  match generateTry env with
  | (tr, Ok _) => tr
  | (tr, Throw e) =>
      tr ++ [ConsoleError generateError (Some e); OnClose]
  end.

(** The database part of [handleUpdateAnnotations]. *)
Definition updateDatabase (env : Env) (updatedContent : string) : M unit :=
  match db env with
  | Some database =>
      let updatedFile := {| name := fileName env; content := updatedContent |} in
      call (DbPut updatedFile) (put database updatedFile) ;;
      updatedFiles ← call DbGetAll (getAll database);
      call OpenDB (openDB env) ;;
      emit (SetUploadedFiles updatedFiles) ;;
      emit SetDb
  | None => ret tt
  end.

(** The [try] block of [handleUpdateAnnotations]; where the converter is
    missing the block returns early. *)
Definition updateTry (env : Env) : M unit :=
  match recommender env with
  | Some recom =>
      let selected := chosen (recommendations env) (selectedRecommendations env) in
      updatedSBMLString ← call (GetSBMLDocument selected)
                                (getSBMLDocument recom selected);
      if isConverted env then
        match convertSBMLToAntimony env with
        | Some convert =>
            updatedContent ← call (ConvertSBMLToAntimony updatedSBMLString)
                                   (convert updatedSBMLString);
            emit (SetAntimonyString updatedContent) ;;
            emit (SetFileContent updatedContent) ;;
            call (SetItem "current_file" updatedContent)
                 (setItem env "current_file" updatedContent) ;;
            updateDatabase env updatedContent
        | None =>
            emit (ConsoleError
                    "convertSBMLToAntimony function not found in the global scope."
                    None)
        end
      else
        emit (SetSbmlString updatedSBMLString) ;;
        emit (SetFileContent updatedSBMLString) ;;
        call (SetItem "current_file" updatedSBMLString)
             (setItem env "current_file" updatedSBMLString) ;;
        updateDatabase env updatedSBMLString
  | None => ret tt
  end.

(** [handleUpdateAnnotations]: [try], [catch], [finally]. *)
Definition handleUpdateAnnotations (env : Env) : list Event :=
  match updateTry env with
  | (tr, Ok _) => tr ++ [OnClose]
  | (tr, Throw e) =>
      tr ++ [ConsoleError updateError (Some e); OnClose]
  end.

(** *** Specification vocabulary *)

(** The events that change the file: what the editor shows, the local
    storage, the database, the globals. *)
Definition writes (e : Event) : bool :=
  match e with
  | SetAntimonyString _ | SetSbmlString _ | SetFileContent _ | SetItem _ _
  | DbPut _ | SetUploadedFiles _ | SetDb => true
  | _ => false
  end.

(** The events that end a generation, one way or the other. *)
Definition ending (e : Event) : bool :=
  match e with
  | SetRecommendations _ | SetSelectedRecommendations _ | SetStep 3
  | ConsoleError _ _ | OnClose => true
  | _ => false
  end.

Definition closes (e : Event) : bool :=
  match e with OnClose => true | _ => false end.

(** The steps of a generation up to the table. *)
Definition progressSteps (env : Env) (numSpecies numReactions : nat) : list Event :=
  [ SetStep 2; Pause;
    CreateRecommender (fileContent env) (fileName env);
    SetRecommender;
    SetProgressMessage (PredictingSpecies numSpecies); SetProgress 0.25; Pause;
    PredictSpecies (mssc env) (cutoff env);
    SetProgressMessage (PredictingReactions numReactions); SetProgress 0.5; Pause;
    PredictReactions (mssc env) (cutoff env);
    SetProgressMessage CreatingTable; SetProgress 0.75; Pause;
    CreateRecommendationTable;
    SetProgress 100; Pause ].

(** The event writes the text [c], under the name of the file where it
    goes to the database, or writes nothing. *)
Definition oneText (env : Env) (c : string) (e : Event) : Prop :=
  match e with
  | SetFileContent c' | SetAntimonyString c' | SetSbmlString c' => c' = c
  | SetItem k v => k = "current_file"%string /\ v = c
  | DbPut f => f = {| name := fileName env; content := c |}
  | _ => True
  end.

(** The predictions of the trace are asked with the criteria and the
    cutoff of the state, a cutoff from 0 to 1. *)
Definition askedInRange (env : Env) (e : Event) : Prop :=
  match e with
  | PredictSpecies m c | PredictReactions m c =>
      m = mssc env /\ c = cutoff env /\ inUnit c = true
  | _ => True
  end.

End Handlers.

(** A recommender, a database and the state of a modal after a cutoff of
    0.5 was typed in, with a file converted from Antimony and no
    converter installed. *)
Definition sampleRecommender : Recommender :=
  {| getSpeciesIDs := Ok 2; getReactionIDs := Ok 0;
     getSBMLDocument := fun _ => Ok "<sbml/>"%string |}.

Definition sampleDatabase : Database :=
  {| put := fun _ => Ok tt; getAll := Ok [] |}.

Definition sampleEnv : @Env unit :=
  {| fileName := "model.ant"; fileContent := "S1 -> S2; k1*S1";
     isConverted := true; db := Some sampleDatabase;
     cutoff := cutoffAfter [0.5%float; 7%float]; mssc := TOP;
     recommender := Some sampleRecommender;
     recommendations := sampleTable;
     selectedRecommendations := initialSelection sampleTable;
     createRecommender := fun _ _ => Ok sampleRecommender;
     predictSpecies := fun _ _ _ => Ok tt;
     predictReactions := fun _ _ _ => Ok tt;
     createRecommendationTable := fun _ _ _ => Ok sampleTable;
     convertSBMLToAntimony := None;
     setItem := fun _ _ => Ok tt;
     openDB := Ok tt |}.

(** The same with a table that has a row for a species called
    [constructor]. *)
Definition inheritedIdEnv : @Env unit :=
  {| fileName := "model.ant"; fileContent := "S1 -> S2; k1*S1";
     isConverted := true; db := Some sampleDatabase;
     cutoff := cutoffAfter [0.5%float; 7%float]; mssc := TOP;
     recommender := None;
     recommendations := [];
     selectedRecommendations := ∅;
     createRecommender := fun _ _ => Ok sampleRecommender;
     predictSpecies := fun _ _ _ => Ok tt;
     predictReactions := fun _ _ _ => Ok tt;
     createRecommendationTable :=
       fun _ _ _ => Ok (sampleTable ++ [recommendation "constructor" "CHEBI:1" 0.4 0]);
     convertSBMLToAntimony := None;
     setItem := fun _ _ => Ok tt;
     openDB := Ok tt |}.

(** The same with the converter installed. *)
Definition convertingEnv : @Env unit :=
  {| fileName := "model.ant"; fileContent := "S1 -> S2; k1*S1";
     isConverted := true; db := Some sampleDatabase;
     cutoff := cutoffAfter [0.5%float; 7%float]; mssc := TOP;
     recommender := Some sampleRecommender;
     recommendations := sampleTable;
     selectedRecommendations := initialSelection sampleTable;
     createRecommender := fun _ _ => Ok sampleRecommender;
     predictSpecies := fun _ _ _ => Ok tt;
     predictReactions := fun _ _ _ => Ok tt;
     createRecommendationTable := fun _ _ _ => Ok sampleTable;
     convertSBMLToAntimony := Some (fun _ => Ok "S1 -> S2"%string);
     setItem := fun _ _ => Ok tt;
     openDB := Ok tt |}.

End Modal.

(* ===================================================================== *)
(** ** Properties of the matcher *)
(* ===================================================================== *)

Module RegexFacts.

Import Chars Regex.

Lemma starLoop_le step fuel :
  shrinks step -> shrinks (starLoop step fuel).
Proof.
  intros Hstep. induction fuel as [|n IH]; intros st st' Hin; simpl in Hin.
  - destruct Hin as [<-|[]]. lia.
  - apply in_app_iff in Hin. destruct Hin as [Hin|[<-|[]]]; [|lia].
    apply in_flat_map in Hin. destruct Hin as (mid & Hmid & Hin).
    destruct (Nat.ltb_spec (length (rest mid)) (length (rest st))) as [Hlt|Hge];
      [|destruct Hin].
    apply IH in Hin. lia.
Qed.

Lemma rmatch_le r : shrinks (rmatch r).
Proof.
  induction r as [|p|a IHa b IHb|a IHa b IHb|a IHa|]; intros st st' Hin; simpl in Hin.
  - destruct Hin as [<-|[]]. lia.
  - destruct (rest st) as [|c s'] eqn:E; [destruct Hin|].
    destruct (p c); [|destruct Hin]. destruct Hin as [<-|[]]. simpl. lia.
  - apply in_flat_map in Hin. destruct Hin as (mid & Hmid & Hin).
    apply IHa in Hmid. apply IHb in Hin. lia.
  - apply in_app_iff in Hin. destruct Hin as [Hin|Hin]; eauto.
  - eapply starLoop_le; eauto.
  - destruct (atBoundary st); [|destruct Hin]. destruct Hin as [<-|[]]. lia.
Qed.

Lemma rmatch_consumes r :
  consumes r = true ->
  forall st st', In st' (rmatch r st) -> length (rest st') < length (rest st).
Proof.
  induction r as [|p|a IHa b IHb|a IHa b IHb|a IHa|]; simpl; intros Hc st st' Hin;
    try discriminate.
  - destruct (rest st) as [|c s'] eqn:E; [destruct Hin|].
    destruct (p c); [|destruct Hin]. destruct Hin as [<-|[]]. simpl. lia.
  - apply in_flat_map in Hin. destruct Hin as (mid & Hmid & Hin).
    pose proof (rmatch_le a _ _ Hmid). pose proof (rmatch_le b _ _ Hin).
    apply orb_true_iff in Hc. destruct Hc as [Hc|Hc].
    + specialize (IHa Hc _ _ Hmid). lia.
    + specialize (IHb Hc _ _ Hin). lia.
  - apply andb_true_iff in Hc. destruct Hc as [Ha Hb].
    apply in_app_iff in Hin. destruct Hin as [Hin|Hin]; eauto.
Qed.

Lemma exec_le r s n : exec r s = Some n -> n <= length s.
Proof.
  unfold exec. destruct (rmatch r (MState None s)) as [|st l]; [discriminate|].
  intros [= <-]. lia.
Qed.

Lemma exec_pos r s n : consumes r = true -> exec r s = Some n -> 0 < n.
Proof.
  unfold exec. intros Hc.
  destruct (rmatch r (MState None s)) as [|st l] eqn:E; [discriminate|].
  intros [= <-].
  assert (Hin : In st (rmatch r (MState None s))) by (rewrite E; left; reflexivity).
  apply (rmatch_consumes r Hc) in Hin. simpl in Hin. lia.
Qed.

Lemma flat_map_nil_all {A B} (f : A -> list B) (l : list A) :
  (forall x, In x l -> f x = []) -> flat_map f l = [].
Proof.
  induction l as [|x l IH]; simpl; intros H; [reflexivity|].
  rewrite (H x) by (left; reflexivity). simpl. apply IH. intros y Hy. apply H. right; exact Hy.
Qed.

Lemma rmatch_passes r c p s st' :
  passes r c = true -> In st' (rmatch r (MState p (c :: s))) ->
  st' = MState p (c :: s).
Proof.
  revert st'.
  induction r as [|q|a IHa b IHb|a IHa b IHb|a IHa|]; cbn [passes rmatch rest];
    intros st' H Hin; try discriminate.
  - destruct Hin as [<-|[]]. reflexivity.
  - apply negb_true_iff in H. rewrite H in Hin. destruct Hin.
  - apply andb_true_iff in H. destruct H as [Ha Hb].
    apply in_flat_map in Hin. destruct Hin as (mid & Hmid & Hin).
    apply (IHa _ Ha) in Hmid. subst mid. exact (IHb _ Hb Hin).
  - apply andb_true_iff in H. destruct H as [Ha Hb].
    apply in_app_iff in Hin. destruct Hin as [Hin|Hin]; auto.
  - destruct (atBoundary _); [|destruct Hin]. destruct Hin as [<-|[]]. reflexivity.
Qed.

Lemma rmatch_rejects r c p s :
  rejects r c = true -> rmatch r (MState p (c :: s)) = [].
Proof.
  induction r as [|q|a IHa b IHb|a IHa b IHb|a IHa|]; cbn [rejects rmatch rest];
    intros H; try discriminate.
  - destruct (q c); [discriminate|reflexivity].
  - apply orb_true_iff in H. destruct H as [H|H].
    + rewrite IHa by exact H. reflexivity.
    + apply andb_true_iff in H. destruct H as [Ha Hb].
      apply flat_map_nil_all. intros mid Hmid.
      apply (rmatch_passes _ _ _ _ _ Ha) in Hmid. subst mid. exact (IHb Hb).
  - apply andb_true_iff in H. destruct H as [Ha Hb].
    rewrite IHa, IHb by assumption. reflexivity.
Qed.

Lemma exec_rejects r c s : rejects r c = true -> exec r (c :: s) = None.
Proof. intros H. unfold exec. rewrite rmatch_rejects by exact H. reflexivity. Qed.

Lemma rmatch_lit_in k st st' :
  In st' (rmatch (RLit k) st) ->
  rest st = k ++ rest st' /\ prev st' = prevAfter (prev st) k.
Proof.
  revert st. induction k as [|c k IH]; intros st Hin; simpl in Hin.
  - destruct Hin as [<-|[]]. split; reflexivity.
  - apply in_flat_map in Hin. destruct Hin as (mid & Hmid & Hin).
    unfold ROne in Hmid. simpl in Hmid.
    destruct (rest st) as [|d s'] eqn:E; [destruct Hmid|].
    destruct (isChar c d) eqn:Hcd; [|destruct Hmid].
    destruct Hmid as [<-|[]]. apply Ascii.eqb_eq in Hcd. subst d.
    apply IH in Hin. simpl in Hin. destruct Hin as [Hr Hp].
    split; [simpl; congruence|].
    rewrite Hp. unfold prevAfter. simpl. destruct k as [|c' k']; [reflexivity|].
    simpl. destruct (last (c' :: k')) eqn:El; [reflexivity|].
    apply last_None in El. discriminate.
Qed.

Lemma rmatch_alts_in rs st st' :
  In st' (rmatch (RAlts rs) st) -> exists r, In r rs /\ In st' (rmatch r st).
Proof.
  induction rs as [|r rs IH]; intros Hin.
  - simpl in Hin. destruct (rest st); [destruct Hin|destruct Hin].
  - destruct rs as [|r2 rs'].
    + exists r. split; [left; reflexivity|exact Hin].
    + change (RAlts (r :: r2 :: rs')) with (RAlt r (RAlts (r2 :: rs'))) in Hin.
      simpl in Hin. apply in_app_iff in Hin. destruct Hin as [Hin|Hin].
      * exists r. split; [left; reflexivity|exact Hin].
      * destruct (IH Hin) as (r' & Hr' & Hin'). exists r'. split; [right; exact Hr'|exact Hin'].
Qed.

(** Iterating a character class reads characters of the class only... *)
Lemma prevAfter_nil p : prevAfter p [] = p.
Proof. reflexivity. Qed.

Lemma prevAfter_cons p c m : prevAfter p (c :: m) = prevAfter (Some c) m.
Proof.
  unfold prevAfter. destruct m as [|d m]; [reflexivity|].
  rewrite last_cons_cons. destruct (last (d :: m)) eqn:E; [reflexivity|].
  apply last_None in E. discriminate.
Qed.


Lemma run_forallb p m : run p m = true -> forallb p m = true.
Proof. destruct m; [discriminate|auto]. Qed.

Lemma run_nonempty p m : run p m = true -> m <> [].
Proof. destruct m; [discriminate|discriminate]. Qed.

(** A starred class reads characters of the class only ... *)
Lemma star_class_in p fuel st st' :
  In st' (starLoop (rmatch (RChar p)) fuel st) ->
  exists m, rest st = m ++ rest st' /\ forallb p m = true /\
            prev st' = prevAfter (prev st) m.
Proof.
  revert st. induction fuel as [|n IH]; intros st Hin; simpl in Hin.
  - destruct Hin as [<-|[]]. exists []. auto.
  - apply in_app_iff in Hin. destruct Hin as [Hin|[<-|[]]];
      [|exists []; auto].
    apply in_flat_map in Hin. destruct Hin as (mid & Hmid & Hin).
    destruct (rest st) as [|c s'] eqn:E; [destruct Hmid|].
    destruct (p c) eqn:Hpc; [|destruct Hmid]. destruct Hmid as [<-|[]].
    simpl in Hin. destruct (length s' <? S (length s')); [|destruct Hin].
    apply IH in Hin. simpl in Hin. destruct Hin as (m & Hm & Hall & Hprev).
    exists (c :: m). split; [simpl; congruence|]. split.
    + simpl. rewrite Hpc. exact Hall.
    + rewrite prevAfter_cons. exact Hprev.
Qed.

Lemma plus_class_in p st st' :
  In st' (rmatch (RPlus (RChar p)) st) ->
  exists m, rest st = m ++ rest st' /\ run p m = true /\
            prev st' = prevAfter (prev st) m.
Proof.
  unfold RPlus. cbn [rmatch]. intros Hin.
  apply in_flat_map in Hin. destruct Hin as (mid & Hmid & Hin).
  destruct (rest st) as [|c s'] eqn:E; [destruct Hmid|].
  destruct (p c) eqn:Hpc; [|destruct Hmid]. destruct Hmid as [<-|[]].
  apply star_class_in in Hin. cbn [rest prev] in Hin.
  destruct Hin as (m & Hm & Hall & Hprev).
  exists (c :: m). split; [simpl; congruence|]. split.
  - cbn [run forallb]. rewrite Hpc. exact Hall.
  - rewrite prevAfter_cons. exact Hprev.
Qed.

(** ... and reads all of them before it tries to stop. *)
Lemma star_class_greedy p m r fuel pv :
  forallb p m = true -> stops p r = true ->
  length (m ++ r) <= fuel ->
  exists tl,
    starLoop (rmatch (RChar p)) fuel (MState pv (m ++ r))
    = MState (prevAfter pv m) r :: tl.
Proof.
  revert fuel pv. induction m as [|c m IH]; intros fuel pv Hall Hr Hlen.
  - simpl. destruct fuel as [|n]; [exists []; reflexivity|].
    simpl. destruct r as [|d r']; [exists []; reflexivity|].
    cbn [stops] in Hr. apply negb_true_iff in Hr. rewrite Hr. exists []. reflexivity.
  - simpl in Hall. apply andb_true_iff in Hall. destruct Hall as [Hc Hall].
    destruct fuel as [|n]; [simpl in Hlen; lia|].
    simpl in Hlen.
    destruct (IH n (Some c) Hall Hr) as (tl & Heq); [lia|].
    cbn [starLoop rmatch rest app]. rewrite Hc. cbn [flat_map rest length].
    destruct (Nat.ltb_spec (length (m ++ r)) (S (length (m ++ r)))) as [_|?]; [|lia].
    cbn [rmatch] in Heq. rewrite Heq. rewrite app_nil_r, prevAfter_cons.
    simpl. eauto.
Qed.

(** *** The reported match *)

Lemma exec_first r s st :
  firstMatch r (MState None s) st -> exec r s = Some (length s - length (rest st)).
Proof. intros (tl & H). unfold exec. rewrite H. reflexivity. Qed.

Lemma first_empty st : firstMatch REmpty st st.
Proof. exists []. reflexivity. Qed.

Lemma first_char p c s pv :
  p c = true -> firstMatch (RChar p) (MState pv (c :: s)) (MState (Some c) s).
Proof.
  intros H. exists []. cbn [rmatch rest]. rewrite H. reflexivity.
Qed.

Lemma first_boundary st : atBoundary st = true -> firstMatch RWordBoundary st st.
Proof. intros H. exists []. cbn [rmatch]. rewrite H. reflexivity. Qed.

Lemma first_seq a b st st1 st2 :
  firstMatch a st st1 -> firstMatch b st1 st2 -> firstMatch (RSeq a b) st st2.
Proof.
  intros (tl1 & H1) (tl2 & H2). unfold firstMatch. cbn [rmatch].
  rewrite H1. cbn [flat_map]. rewrite H2. eexists. reflexivity.
Qed.

Lemma first_alt_l a b st st1 : firstMatch a st st1 -> firstMatch (RAlt a b) st st1.
Proof.
  intros (tl & H). unfold firstMatch. cbn [rmatch]. rewrite H.
  eexists. reflexivity.
Qed.

Lemma first_alt_r a b st st1 :
  rmatch a st = [] -> firstMatch b st st1 -> firstMatch (RAlt a b) st st1.
Proof.
  intros Ha (tl & H). unfold firstMatch. cbn [rmatch]. rewrite Ha, H.
  eexists. reflexivity.
Qed.

Lemma first_star p m r pv :
  forallb p m = true -> stops p r = true ->
  firstMatch (RStar (RChar p)) (MState pv (m ++ r)) (MState (prevAfter pv m) r).
Proof.
  intros Hall Hr. unfold firstMatch. cbn [rmatch rest].
  apply star_class_greedy; auto.
Qed.

Lemma first_plus p m r pv :
  run p m = true -> stops p r = true ->
  firstMatch (RPlus (RChar p)) (MState pv (m ++ r)) (MState (prevAfter pv m) r).
Proof.
  intros Hrun Hr. destruct m as [|c m]; [discriminate|].
  cbn [run forallb] in Hrun. apply andb_true_iff in Hrun. destruct Hrun as [Hc Hm].
  unfold RPlus. rewrite prevAfter_cons, <- app_comm_cons.
  eapply first_seq; [apply first_char; exact Hc|apply first_star; assumption].
Qed.


Lemma seq_nil_r a b st :
  (forall st', In st' (rmatch a st) -> rmatch b st' = []) -> rmatch (RSeq a b) st = [].
Proof. intros H. simpl. apply flat_map_nil_all. exact H. Qed.

Lemma rmatch_boundary_in st st' : In st' (rmatch RWordBoundary st) -> st' = st.
Proof. simpl. destruct (atBoundary st); [intros [<-|[]]; reflexivity|intros []]. Qed.

Lemma rmatch_seq a b st : rmatch (RSeq a b) st = flat_map (rmatch b) (rmatch a st).
Proof. reflexivity. Qed.

Lemma rmatch_boundary st :
  rmatch RWordBoundary st = if atBoundary st then [st] else [].
Proof. reflexivity. Qed.

Lemma rmatch_alts rs st :
  rmatch (RAlts rs) st = flat_map (fun r => rmatch r st) rs.
Proof.
  induction rs as [|r rs IH].
  - simpl. destruct (rest st); reflexivity.
  - destruct rs as [|r2 rs'].
    + simpl. rewrite app_nil_r. reflexivity.
    + change (RAlts (r :: r2 :: rs')) with (RAlt r (RAlts (r2 :: rs'))).
      cbn [rmatch flat_map]. rewrite IH. reflexivity.
Qed.




Lemma all_ascii (f : ascii -> bool) :
  forallb f allAscii = true -> forall c, f c = true.
Proof.
  intros H c. rewrite forallb_forall in H. apply H.
  rewrite <- (ascii_nat_embedding c). apply in_map. apply in_seq.
  pose proof (nat_ascii_bounded c). lia.
Qed.

Lemma ascii_implies (f g : ascii -> bool) :
  forallb (fun c => implb (f c) (g c)) allAscii = true ->
  forall c, f c = true -> g c = true.
Proof.
  intros H c Hf. pose proof (all_ascii _ H c) as Hc. cbn beta in Hc.
  rewrite Hf in Hc. exact Hc.
Qed.

(** *** What a match has read *)

Lemma prevAfter_app p m1 m2 :
  prevAfter p (m1 ++ m2) = prevAfter (prevAfter p m1) m2.
Proof.
  revert p. induction m1 as [|c m1 IH]; intros p; [reflexivity|].
  rewrite <- app_comm_cons, !prevAfter_cons. apply IH.
Qed.

Lemma reads_app st m1 mid m2 st' :
  reads st m1 mid -> reads mid m2 st' -> reads st (m1 ++ m2) st'.
Proof.
  intros [H1 P1] [H2 P2]. split.
  - rewrite H1, H2, app_assoc. reflexivity.
  - rewrite P2, P1, prevAfter_app. reflexivity.
Qed.

Lemma reads_char p st st' :
  In st' (rmatch (RChar p) st) -> exists c, p c = true /\ reads st [c] st'.
Proof.
  cbn [rmatch]. destruct st as [pv [|c s]]; cbn [rest]; [intros []|].
  destruct (p c) eqn:E; [|intros []]. intros [<-|[]].
  exists c. split; [exact E|]. split; reflexivity.
Qed.

Lemma reads_lit k st st' : In st' (rmatch (RLit k) st) -> reads st k st'.
Proof. apply rmatch_lit_in. Qed.

Lemma reads_star p st st' :
  In st' (rmatch (RStar (RChar p)) st) ->
  exists m, forallb p m = true /\ reads st m st'.
Proof.
  cbn [rmatch]. intros H. apply star_class_in in H.
  destruct H as (m & Hm & Hall & Hp). exists m. split; [exact Hall|]. split; assumption.
Qed.

Lemma reads_plus p st st' :
  In st' (rmatch (RPlus (RChar p)) st) ->
  exists m, run p m = true /\ reads st m st'.
Proof.
  intros H. apply plus_class_in in H.
  destruct H as (m & Hm & Hall & Hp). exists m. split; [exact Hall|]. split; assumption.
Qed.

Lemma reads_seq a b st st' :
  In st' (rmatch (RSeq a b) st) ->
  exists mid, In mid (rmatch a st) /\ In st' (rmatch b mid).
Proof. cbn [rmatch]. intros H. apply in_flat_map in H. exact H. Qed.

Lemma reads_boundary st st' :
  In st' (rmatch RWordBoundary st) -> st' = st /\ atBoundary st = true.
Proof.
  cbn [rmatch]. destruct (atBoundary st); [|intros []].
  intros [<-|[]]. auto.
Qed.

Lemma reads_nil st : reads st [] st.
Proof. split; reflexivity. Qed.

(** The match [exec] reports is one of the matches. *)
Lemma exec_reads r s n :
  exec r s = Some n ->
  exists st', In st' (rmatch r (MState None s)) /\ n = length s - length (rest st').
Proof.
  unfold exec. destruct (rmatch r (MState None s)) as [|st l] eqn:E; [discriminate|].
  intros [= <-]. exists st. split; [left; reflexivity|reflexivity].
Qed.

Lemma reads_take s m st' n :
  reads (MState None s) m st' -> n = length s - length (rest st') ->
  n = length m /\ take n s = m /\ drop n s = rest st'.
Proof.
  intros [H _] ->. cbn [rest] in H. rewrite H, length_app.
  replace (length m + length (rest st') - length (rest st')) with (length m) by lia.
  rewrite take_app_length, drop_app_length. auto.
Qed.

End RegexFacts.

(* ===================================================================== *)
(** ** Properties of the tokenizer loop *)
(* ===================================================================== *)

Module MonarchFacts.

Import Regex Monarch RegexFacts.

Lemma findRule_bounds rules s a n :
  forallb (fun ra => consumes (fst ra)) rules = true ->
  findRule rules s = Some (a, n) -> 0 < n <= length s.
Proof.
  induction rules as [|[r a'] rules IH]; simpl; [discriminate|].
  intros Hall. apply andb_true_iff in Hall. destruct Hall as [Hr Hall].
  destruct (exec r s) as [m|] eqn:E.
  - intros [= <- <-]. split; [eapply exec_pos|eapply exec_le]; eauto.
  - auto.
Qed.

Lemma tokenizeLoop_lexes lang :
  productive lang = true ->
  forall fuel pos s, length s <= fuel ->
    exists ts, tokenizeLoop lang fuel pos s = Tokens ts /\ lexes lang pos s ts.
Proof.
  intros Hprod. induction fuel as [|fuel IH]; intros pos s Hlen.
  - destruct s; [|simpl in Hlen; lia]. exists []. split; [reflexivity|constructor].
  - destruct s as [|c s']; [exists []; split; [reflexivity|constructor]|].
    simpl in Hlen. cbn [tokenizeLoop].
    destruct (findRule (root lang) (c :: s')) as [[a n]|] eqn:E.
    + destruct (findRule_bounds _ _ _ _ Hprod E) as [Hpos Hle].
      destruct (Nat.eqb_spec n 0) as [->|_]; [lia|].
      destruct (IH (pos + n) (drop n (c :: s'))) as (ts & Hts & Hlex).
      { rewrite length_drop. simpl. lia. }
      rewrite Hts. eexists. split; [reflexivity|].
      eapply lexes_rule; eauto.
    + destruct (IH (pos + 1) s') as (ts & Hts & Hlex); [lia|].
      rewrite Hts. eexists. split; [reflexivity|].
      eapply lexes_default; eauto.
Qed.

(** The tokens tile the text: each sits at its own offset. *)
Lemma lexes_concat lang pos s ts :
  lexes lang pos s ts -> concat (map text ts) = s.
Proof.
  induction 1; simpl; [reflexivity| |congruence].
  rewrite IHlexes. apply take_drop.
Qed.

Lemma lexes_placed lang pos s ts :
  lexes lang pos s ts -> Forall (placed pos s) ts.
Proof.
  induction 1 as [pos|pos s a n ts Hf Hpos Hle Hlex IH|pos c s ts Hf Hlex IH].
  - constructor.
  - constructor.
    + unfold placed; simpl. split; [lia|]. split.
      * intros Hnil. apply (f_equal length) in Hnil. rewrite length_take in Hnil.
        simpl in Hnil. lia.
      * rewrite Nat.sub_diag, drop_0, length_take, Nat.min_l by lia. reflexivity.
    + eapply Forall_impl; [exact IH|]. intros t (Hb & Hne & Htxt).
      split; [lia|]. split; [exact Hne|].
      rewrite <- Htxt at 2. rewrite drop_drop. do 2 f_equal. lia.
  - constructor.
    + unfold placed; simpl. split; [lia|]. split; [discriminate|].
      rewrite Nat.sub_diag. reflexivity.
    + eapply Forall_impl; [exact IH|]. intros t (Hb & Hne & Htxt).
      split; [lia|]. split; [exact Hne|].
      rewrite <- Htxt at 2.
      replace (offset t - pos) with (S (offset t - (pos + 1))) by lia.
      reflexivity.
  Qed.

Lemma lexes_fallback lang pos s ts :
  lexes lang pos s ts -> Forall (fallback lang pos s) ts.
Proof.
  induction 1 as [pos|pos s a n ts Hf Hpos Hle Hlex IH|pos c s ts Hf Hlex IH].
  - constructor.
  - pose proof (lexes_placed _ _ _ _ Hlex) as Hpl.
    constructor.
    + unfold fallback; simpl. rewrite Nat.sub_diag, drop_0, Hf. discriminate.
    + rewrite Forall_forall in IH, Hpl. apply Forall_forall. intros t Ht.
      specialize (IH t Ht). destruct (Hpl t Ht) as (Hb & _ & _).
      unfold fallback in *. rewrite drop_drop in IH.
      replace (offset t - pos) with (n + (offset t - (pos + n))) by lia.
      exact IH.
  - pose proof (lexes_placed _ _ _ _ Hlex) as Hpl.
    constructor.
    + unfold fallback; simpl. auto.
    + rewrite Forall_forall in IH, Hpl. apply Forall_forall. intros t Ht.
      specialize (IH t Ht). destruct (Hpl t Ht) as (Hb & _ & _).
      unfold fallback in *.
      replace (offset t - pos) with (S (offset t - (pos + 1))) by lia.
      exact IH.
Qed.

(** *** Where a token comes from *)

Lemma findRule_in rules s a n :
  findRule rules s = Some (a, n) -> exists r, In (r, a) rules /\ exec r s = Some n.
Proof.
  induction rules as [|[r b] rules IH]; [discriminate|]. cbn [findRule].
  destruct (exec r s) as [k|] eqn:E.
  - intros [= <- <-]. exists r. split; [left; reflexivity|exact E].
  - intros H. destruct (IH H) as (r' & Hin & He). exists r'. split; [right; exact Hin|exact He].
Qed.

Lemma lexes_produced lang pos s ts :
  lexes lang pos s ts -> Forall (produced lang pos s) ts.
Proof.
  induction 1 as [pos|pos s a n ts Hf Hpos Hle Hlex IH|pos c s ts Hf Hlex IH].
  - constructor.
  - pose proof (lexes_placed _ _ _ _ Hlex) as Hpl.
    constructor.
    + unfold produced. cbn [offset type text]. rewrite Nat.sub_diag, drop_0.
      left. exists a, n. auto.
    + rewrite Forall_forall in IH, Hpl. apply Forall_forall. intros t Ht.
      specialize (IH t Ht). destruct (Hpl t Ht) as (Hb & _ & _).
      unfold produced in *. rewrite drop_drop in IH.
      replace (offset t - pos) with (n + (offset t - (pos + n))) by lia.
      exact IH.
  - pose proof (lexes_placed _ _ _ _ Hlex) as Hpl.
    constructor.
    + unfold produced. cbn [offset type text]. rewrite Nat.sub_diag, drop_0.
      right. split; [exact Hf|]. exists c, s. auto.
    + rewrite Forall_forall in IH, Hpl. apply Forall_forall. intros t Ht.
      specialize (IH t Ht). destruct (Hpl t Ht) as (Hb & _ & _).
      unfold produced in *.
      replace (offset t - pos) with (S (offset t - (pos + 1))) by lia.
      exact IH.
Qed.

(** *** The collector *)

Lemma lexes_chained lang pos s ts : lexes lang pos s ts -> chained pos ts.
Proof.
  induction 1 as [pos|pos s a n ts Hf Hpos Hle Hlex IH|pos c s ts Hf Hlex IH].
  - exact I.
  - split; [reflexivity|]. unfold tokenEnd. cbn [offset text].
    rewrite length_take, Nat.min_l by exact Hle. exact IH.
  - split; [reflexivity|]. exact IH.
Qed.

(** The stream starts where the loop's tokens start, with their first
    class. *)
Lemma merge_head t ts :
  exists w rest,
    mergeTokens (t :: ts) = Tok (offset t) (type t) (text t ++ w) :: rest.
Proof.
  cbn [mergeTokens]. destruct (mergeTokens ts) as [|t' rest].
  - exists [], []. rewrite app_nil_r. destruct t; reflexivity.
  - destruct (String.eqb (type t) (type t')).
    + exists (text t'), rest. reflexivity.
    + exists [], (t' :: rest). rewrite app_nil_r. destruct t; reflexivity.
Qed.

Lemma merge_concat ts : concat (map text (mergeTokens ts)) = concat (map text ts).
Proof.
  induction ts as [|t ts IH]; [reflexivity|]. cbn [mergeTokens].
  cbn [map concat]. rewrite <- IH.
  destruct (mergeTokens ts) as [|t' rest]; [reflexivity|].
  destruct (String.eqb (type t) (type t')); cbn [map concat text];
    [rewrite <- app_assoc|]; reflexivity.
Qed.

Lemma merge_chained ts : forall pos, chained pos ts -> chained pos (mergeTokens ts).
Proof.
  induction ts as [|t ts IH]; intros pos H; [exact I|].
  destruct H as [Ho Hc]. specialize (IH _ Hc). cbn [mergeTokens].
  destruct (mergeTokens ts) as [|t' rest]; [split; [exact Ho|exact I]|].
  destruct IH as [Ho' Hc'].
  destruct (String.eqb (type t) (type t')).
  - split; [exact Ho|]. unfold tokenEnd in *. cbn [offset text].
    rewrite length_app.
    replace (offset t + (length (text t) + length (text t')))
      with (offset t' + length (text t')) by lia.
    exact Hc'.
  - split; [exact Ho|]. split; [exact Ho'|exact Hc'].
Qed.

Lemma merge_nonempty ts :
  Forall (fun t => text t <> []) ts ->
  Forall (fun t => text t <> []) (mergeTokens ts).
Proof.
  induction 1 as [|t ts Ht Hts IH]; [constructor|]. cbn [mergeTokens].
  destruct (mergeTokens ts) as [|t' rest]; [constructor; [exact Ht|constructor]|].
  destruct (String.eqb (type t) (type t')).
  - constructor; [|exact (Forall_inv_tail IH)]. cbn [text].
    intros E. apply app_eq_nil in E. destruct E as [E _]. exact (Ht E).
  - constructor; [exact Ht|exact IH].
Qed.

(** Tokens that stand one after the other and make up a text sit in it
    at their offsets. *)
Lemma chained_placed ts : forall pos s,
  chained pos ts -> concat (map text ts) = s ->
  Forall (fun t => text t <> []) ts -> Forall (placed pos s) ts.
Proof.
  induction ts as [|t ts IH]; intros pos s Hc Hs Hne; [constructor|].
  destruct Hc as [Ho Hc]. cbn [map concat] in Hs.
  constructor.
  - split; [lia|]. split; [exact (Forall_inv Hne)|].
    rewrite Ho, Nat.sub_diag, drop_0, <- Hs. apply take_app_length.
  - specialize (IH _ _ Hc eq_refl (Forall_inv_tail Hne)).
    eapply Forall_impl; [exact IH|]. intros t0 (Hb & Hn & Ht).
    unfold tokenEnd in Hb. split; [lia|]. split; [exact Hn|].
    rewrite <- Ht at 2. rewrite <- Hs. f_equal.
    replace (offset t0 - pos) with (length (text t) + (offset t0 - tokenEnd t))
      by (unfold tokenEnd; lia).
    rewrite drop_app_add. reflexivity.
Qed.

(** Every token of the stream is a run of tokens of the loop. *)
Lemma merge_fuses ts : forall pos,
  chained pos ts ->
  Forall (fun m => exists run, fuses run m /\ forall t, In t run -> In t ts)
         (mergeTokens ts).
Proof.
  induction ts as [|t ts IH]; intros pos H; [constructor|].
  destruct H as [Ho Hc]. specialize (IH _ Hc).
  assert (Hone : exists run, fuses run t /\ forall t0, In t0 run -> In t0 (t :: ts)).
  { exists [t]. split; [|intros t0 [<-|[]]; left; reflexivity].
    cbn [fuses map concat]. rewrite app_nil_r.
    split; [reflexivity|]. split; [reflexivity|].
    split; [constructor; [reflexivity|constructor]|]. split; [reflexivity|exact I]. }
  assert (Hrest : forall l, Forall (fun m => exists run, fuses run m /\
                                     forall t0, In t0 run -> In t0 ts) l ->
                  Forall (fun m => exists run, fuses run m /\
                                     forall t0, In t0 run -> In t0 (t :: ts)) l).
  { intros l Hl. eapply Forall_impl; [exact Hl|].
    intros m (run & Hf & Hin). exists run. split; [exact Hf|].
    intros t0 H0. right. apply Hin, H0. }
  pose proof (merge_chained _ _ Hc) as Hmc.
  cbn [mergeTokens]. destruct (mergeTokens ts) as [|t' rest];
    [constructor; [exact Hone|constructor]|].
  destruct Hmc as [Ho' _].
  destruct (String.eqb_spec (type t) (type t')) as [E|E].
  - constructor; [|apply Hrest; exact (Forall_inv_tail IH)].
    destruct (Forall_inv IH) as (run & Hf & Hin).
    destruct run as [|r run]; [destruct Hf|].
    destruct Hf as (Hfo & Hft & Hfy & Hfc).
    exists (t :: r :: run). split.
    + cbn [fuses offset text type]. split; [reflexivity|]. split.
      * rewrite Hft. reflexivity.
      * split.
        -- constructor; [reflexivity|]. eapply Forall_impl; [exact Hfy|].
           intros t0 H0. cbn beta in H0. congruence.
        -- split; [reflexivity|]. rewrite <- Ho', Hfo. exact Hfc.
    + intros t0 [<-|H0]; [left; reflexivity|right; apply Hin, H0].
  - constructor; [exact Hone|]. apply Hrest, IH.
Qed.

(** Every token of the loop lies in a token of the stream of its class. *)
Lemma merge_covers ts : forall pos,
  chained pos ts ->
  forall t, In t ts ->
    exists m, In m (mergeTokens ts) /\ type m = type t /\
              offset m <= offset t /\ tokenEnd t <= tokenEnd m.
Proof.
  induction ts as [|t ts IH]; intros pos H t0 Hin; [destruct Hin|].
  destruct H as [Ho Hc]. specialize (IH _ Hc).
  pose proof (merge_chained _ _ Hc) as Hmc.
  cbn [mergeTokens]. destruct (mergeTokens ts) as [|t' rest] eqn:Em.
  - destruct Hin as [<-|Hin]; [exists t; split; [left; reflexivity|auto]|].
    destruct (IH _ Hin) as (m & [] & _).
  - destruct Hmc as [Ho' _].
    destruct (String.eqb_spec (type t) (type t')) as [E|E].
    + destruct Hin as [<-|Hin].
      * eexists. split; [left; reflexivity|]. unfold tokenEnd. cbn [offset type text].
        rewrite length_app. split; [reflexivity|]. lia.
      * destruct (IH _ Hin) as (m & [<-|Hm] & Hty & Hlo & Hhi).
        -- eexists. split; [left; reflexivity|]. unfold tokenEnd in *.
           cbn [offset type text]. rewrite length_app.
           split; [congruence|]. lia.
        -- exists m. split; [right; exact Hm|auto].
    + destruct Hin as [<-|Hin].
      * exists t. split; [left; reflexivity|auto].
      * destruct (IH _ Hin) as (m & Hm & Hrest). exists m. split; [right; exact Hm|exact Hrest].
Qed.

(** The collector leaves alone the tokens of a class that no two
    neighbours share. *)
Lemma merge_apart C ts :
  apart C ts ->
  forall m, In m (mergeTokens ts) -> C (type m) = true -> In m ts.
Proof.
  induction ts as [|t ts IH]; intros Hap m Hin HC; [destruct Hin|].
  assert (Hts : apart C ts).
  { cbn [apart] in Hap. destruct ts as [|t2 ts]; [exact I|exact (proj2 Hap)]. }
  specialize (IH Hts). cbn [mergeTokens] in Hin.
  destruct ts as [|t2 ts].
  - cbn [mergeTokens] in Hin. exact Hin.
  - destruct (merge_head t2 ts) as (w & rest & Em). rewrite Em in Hin, IH.
    cbn [type] in Hin. destruct Hap as [Hne _].
    destruct (String.eqb_spec (type t) (type t2)) as [E|E].
    + destruct Hin as [<-|Hin].
      * cbn [type] in HC. rewrite (Hne E) in HC. discriminate.
      * right. apply IH; [right; exact Hin|exact HC].
    + destruct Hin as [<-|Hin]; [left; reflexivity|].
      right. apply IH; [exact Hin|exact HC].
Qed.

(** The pieces of a token of the stream are as the tokens of the loop. *)
Lemma fuses_pieces (P : list ascii -> Prop) run m :
  fuses run m -> Forall (fun t => P (text t)) run -> pieces P (text m).
Proof.
  intros Hf HP. destruct run as [|r run]; [destruct Hf|].
  destruct Hf as (_ & Ht & _ & _). exists (map text (r :: run)).
  split; [discriminate|]. split; [exact Ht|].
  apply Forall_map. exact HP.
Qed.

(** A run of one-character tokens covers the offsets from its start. *)
Lemma chained_offsets (Q : nat -> Prop) run : forall pos,
  chained pos run ->
  Forall (fun t => length (text t) = 1 /\ Q (offset t)) run ->
  forall j, j < length (concat (map text run)) -> Q (pos + j).
Proof.
  induction run as [|t run IH]; intros pos Hc HQ j Hj; [cbn in Hj; lia|].
  destruct Hc as [Ho Hc]. apply Forall_cons in HQ. destruct HQ as [[Hl Hq] HQ].
  cbn [map concat] in Hj. rewrite length_app, Hl in Hj.
  destruct j as [|j]; [rewrite Nat.add_0_r, <- Ho; exact Hq|].
  replace (pos + S j) with (tokenEnd t + j) by (unfold tokenEnd; lia).
  apply (IH _ Hc HQ). lia.
Qed.

(** A line shorter than the limit gets the stream of the loop's tokens;
    any other line is one token of the empty class. *)
Lemma tokenizeLine_short lang line :
  length line < maxTokenizationLineLength ->
  tokenizeLine lang line =
  match ruleTokens lang line with
  | Tokens ts => Tokens (mergeTokens ts)
  | other => other
  end.
Proof.
  intros H. unfold tokenizeLine.
  destruct (Nat.leb_spec maxTokenizationLineLength (length line)); [lia|reflexivity].
Qed.

Lemma tokenizeLine_long lang line :
  maxTokenizationLineLength <= length line ->
  tokenizeLine lang line = Tokens [Tok 0 nullToken line].
Proof.
  intros H. unfold tokenizeLine.
  destruct (Nat.leb_spec maxTokenizationLineLength (length line)); [reflexivity|lia].
Qed.

(** The stream of a line, with the tokens of the loop it is made of. *)
Lemma tokenizeLine_stream lang line :
  productive lang = true ->
  length line < maxTokenizationLineLength ->
  exists ts, ruleTokens lang line = Tokens ts /\ lexes lang 0 line ts /\
             tokenizeLine lang line = Tokens (mergeTokens ts).
Proof.
  intros Hprod Hlen.
  destruct (tokenizeLoop_lexes lang Hprod (length line) 0 line) as (ts & Hts & Hlex);
    [lia|].
  exists ts. split; [exact Hts|]. split; [exact Hlex|].
  rewrite tokenizeLine_short by exact Hlen. unfold ruleTokens. rewrite Hts. reflexivity.
Qed.


End MonarchFacts.

(* ===================================================================== *)
(** ** The Antimony tokenizer *)
(* ===================================================================== *)

Module AntimonyFacts.

Import Chars Regex Monarch Antimony RegexFacts MonarchFacts.

Lemma limit_positive : 0 < maxTokenizationLineLength.
Proof. unfold maxTokenizationLineLength. lia. Qed.

Lemma limit_value : N.of_nat maxTokenizationLineLength = 20000%N.
Proof. vm_compute. reflexivity. Qed.

Lemma tokenizeLine_tokenized lang line :
  productive lang = true -> tokenized lang line (tokenizeLine lang line).
Proof.
  intros Hprod.
  destruct (Nat.lt_ge_cases (length line) maxTokenizationLineLength) as [Hlen|Hlen].
  - destruct (tokenizeLine_stream lang line Hprod Hlen) as (ts & Hts & Hlex & ->).
    pose proof (lexes_chained _ _ _ _ Hlex) as Hch.
    assert (Hcat : concat (map text (mergeTokens ts)) = line)
      by (rewrite merge_concat; eapply lexes_concat; eauto).
    exists (mergeTokens ts). split; [reflexivity|]. split; [exact Hcat|]. split.
    + apply chained_placed; [apply merge_chained, Hch|exact Hcat|].
      apply merge_nonempty. eapply Forall_impl; [eapply lexes_placed; eauto|].
      intros t (_ & H & _). exact H.
    + split; [|lia]. intros _ i ((ts' & t & Hts' & Hin & Ho) & Hnone).
      rewrite Hts in Hts'. injection Hts' as <-.
      pose proof (proj1 (List.Forall_forall _ _) (lexes_fallback _ _ _ _ Hlex) t Hin)
        as Hfb.
      destruct Hfb as [Hty Hl]; [rewrite Nat.sub_0_r, Ho; exact Hnone|].
      destruct (merge_covers ts 0 Hch t Hin) as (m & Hm & Hmt & Hlo & Hhi).
      exists m. split; [exact Hm|]. split; [congruence|].
      unfold tokenEnd in *. lia.
  - rewrite tokenizeLine_long by exact Hlen. eexists. split; [reflexivity|].
    cbn [map concat text]. rewrite app_nil_r. split; [reflexivity|]. split.
    + constructor; [|constructor]. split; [cbn [offset]; lia|]. cbn [offset text].
      split.
      * intros ->. pose proof limit_positive. cbn [length] in Hlen. lia.
      * rewrite Nat.sub_diag, drop_0. apply firstn_all.
    + split; [lia|reflexivity].
Qed.

Lemma productive_antimony : productive antimonyLanguage = true.
Proof. reflexivity. Qed.

(** C3 (as amended). Tokenization is total: every line of every text
    yields a token stream (the loop neither stops on "no progress" nor
    runs out of steps), and the tokens tile the line at their source
    offsets. In a line shorter than 20000 characters, a character no rule
    recognizes is folded into a token of the default class, at its
    position in the line; a line of 20000 characters or more is one token
    of the empty class. *)
Theorem tokenize_total (s : list ascii) :
  tokenized antimonyLanguage s (tokenize s) /\
  Forall2 (tokenized antimonyLanguage) (splitLines s) (tokenizeText antimonyLanguage s).
Proof.
  split; [apply tokenizeLine_tokenized, productive_antimony|].
  unfold tokenizeText. apply Forall2_fmap_r, Forall_Forall2_diag, Forall_forall.
  intros line _. apply tokenizeLine_tokenized, productive_antimony.
Qed.

(** C3, as stated, fails: the definition names no default class, so the
    characters no rule recognizes, a blank included, are folded into a
    token of the class [source] and not of the error class; and a line
    of 20000 of them is not tokenized at all, its one token having the
    empty class. *)
Lemma unmatched_is_source_token :
  tokenize (chars " #") = Tokens [Tok 0 "source" (chars " #")] /\
  unrecognized antimonyLanguage (chars " #") 0 /\
  unrecognized antimonyLanguage (chars " #") 1 /\
  defaultToken antimonyLanguage = "source"%string /\
  defaultToken antimonyLanguage <> invalidToken /\
  tokenize (repeat "#"%char maxTokenizationLineLength)
  = Tokens [Tok 0 EmptyString (repeat "#"%char maxTokenizationLineLength)].
Proof.
  split; [vm_compute; reflexivity|].
  split; [split; [|vm_compute; reflexivity]|].
  { eexists _, _. split; [vm_compute; reflexivity|].
    split; [left; reflexivity|reflexivity]. }
  split; [split; [|vm_compute; reflexivity]|].
  { eexists _, _. split; [vm_compute; reflexivity|].
    split; [right; left; reflexivity|reflexivity]. }
  split; [reflexivity|]. split; [discriminate|].
  apply tokenizeLine_long. rewrite repeat_length. apply Nat.le_refl.
Qed.

Lemma empty_line_tokens : tokenize [] = Tokens [].
Proof. reflexivity. Qed.

(** *** Words *)

Lemma letter_rejects l :
  isLetter l = true ->
  forallb (fun r => rejects r l)
    [commentRe; stringRe; parenRe; transformRe; assignRe; operatorRe;
     ROne "@"; ROne ":"] = true.
Proof.
  revert l.
  assert (H : forall l, implb (isLetter l)
            (forallb (fun r => rejects r l)
               [commentRe; stringRe; parenRe; transformRe; assignRe; operatorRe;
                ROne "@"; ROne ":"]) = true).
  { apply all_ascii. vm_compute. reflexivity. }
  intros l Hl. specialize (H l). rewrite Hl in H. exact H.
Qed.

Lemma word_not_colon c : isWord c = true -> isChar ":" c = false.
Proof.
  revert c.
  assert (H : forall c, implb (isWord c) (negb (isChar ":" c)) = true)
    by (apply all_ascii; vm_compute; reflexivity).
  intros c Hc. specialize (H c). rewrite Hc in H. simpl in H.
  apply negb_true_iff. exact H.
Qed.

Lemma letter_word c : isLetter c = true -> isWord c = true.
Proof. unfold isWord. intros ->. reflexivity. Qed.

Lemma word_wordDollar c : isWord c = true -> isWordDollar c = true.
Proof. unfold isWordDollar. intros ->. reflexivity. Qed.

(** Splitting [w ++ post] after a run [k] of word characters: the run is
    a prefix of the word [w] ... *)
Lemma prefix_split w post k r :
  w ++ post = k ++ r -> forallb isWord k = true -> endsWord post = true ->
  startsWith k w = true.
Proof.
  revert k. induction w as [|a w IH]; intros k Heq Hk Hpost.
  - destruct k as [|c k]; [reflexivity|].
    simpl in Heq. subst post. simpl in Hk, Hpost.
    apply andb_true_iff in Hk. destruct Hk as [Hc _].
    rewrite (word_wordDollar _ Hc) in Hpost. discriminate.
  - destruct k as [|c k]; [reflexivity|].
    simpl in Heq. injection Heq as <- Heq. simpl in Hk.
    apply andb_true_iff in Hk. destruct Hk as [_ Hk].
    simpl. unfold isChar. rewrite Ascii.eqb_refl. simpl. eapply IH; eauto.
Qed.

(** ... and what follows the run is not a colon ... *)
Lemma colon_split w post k r p :
  w ++ post = k ++ r -> forallb isWord w = true -> forallb isWord k = true ->
  endsWord post = true ->
  rmatch (ROne ":") (MState p r) = [].
Proof.
  revert k. induction w as [|a w IH]; intros k Heq Hw Hk Hpost.
  - destruct k as [|c k].
    + simpl in Heq. subst r. destruct post as [|d post]; [reflexivity|].
      cbn [endsWord] in Hpost. apply andb_true_iff in Hpost. destruct Hpost as [_ Hd].
      apply negb_true_iff in Hd. unfold ROne. cbn [rmatch rest]. rewrite Hd. reflexivity.
    + simpl in Heq. subst post. simpl in Hk, Hpost.
      apply andb_true_iff in Hk. destruct Hk as [Hc _].
      rewrite (word_wordDollar _ Hc) in Hpost. discriminate.
  - simpl in Hw. apply andb_true_iff in Hw. destruct Hw as [Ha Hw].
    destruct k as [|c k].
    + simpl in Heq. subst r. unfold ROne. cbn [rmatch rest].
      rewrite (word_not_colon _ Ha). reflexivity.
    + simpl in Heq. injection Heq as <- Heq. simpl in Hk.
      apply andb_true_iff in Hk. destruct Hk as [_ Hk]. eapply IH; eauto.
Qed.

(** ... and is a word character unless the run is the whole word. *)
Lemma word_split w post k r :
  w ++ post = k ++ r -> forallb isWord w = true -> forallb isWord k = true ->
  endsWord post = true -> k <> w ->
  match r with d :: _ => isWord d | [] => false end = true.
Proof.
  revert k. induction w as [|a w IH]; intros k Heq Hw Hk Hpost Hne.
  - destruct k as [|c k]; [congruence|].
    simpl in Heq. subst post. simpl in Hk, Hpost.
    apply andb_true_iff in Hk. destruct Hk as [Hc _].
    rewrite (word_wordDollar _ Hc) in Hpost. discriminate.
  - simpl in Hw. apply andb_true_iff in Hw. destruct Hw as [Ha Hw].
    destruct k as [|c k].
    + simpl in Heq. subst r. exact Ha.
    + simpl in Heq. injection Heq as <- Heq. simpl in Hk.
      apply andb_true_iff in Hk. destruct Hk as [_ Hk].
      eapply IH; eauto. congruence.
Qed.

Lemma memText_false ws w k :
  memText ws w = false -> In k ws -> chars k <> w.
Proof.
  unfold memText. intros Hm Hin Heq.
  assert (Hex : existsb (fun k => String.eqb k (String.string_of_list_ascii w)) ws = true).
  { apply existsb_exists. exists k. split; [exact Hin|].
    apply String.eqb_eq. rewrite <- Heq.
    symmetry. apply String.string_of_list_ascii_of_string. }
  congruence.
Qed.

Lemma keywords_wordy : forallb wordy keywordList = true.
Proof. reflexivity. Qed.

Lemma annotations_wordy : forallb wordy annotationList = true.
Proof. reflexivity. Qed.

Lemma keywords_fail w post :
  forallb isWord w = true -> endsWord post = true ->
  memText keywordList w = false ->
  exec keywordsRe (w ++ post) = None.
Proof.
  intros Hw Hpost Hmem. unfold exec.
  replace (rmatch keywordsRe (MState None (w ++ post))) with (@nil mstate); [reflexivity|].
  symmetry. unfold keywordsRe. cbn [RSeqs].
  apply seq_nil_r. intros st1 H1. apply rmatch_boundary_in in H1. subst st1.
  apply seq_nil_r. intros st2 H2.
  apply rmatch_alts_in in H2. destruct H2 as (r & Hr & Hin).
  apply in_map_iff in Hr. destruct Hr as (k & <- & Hk).
  apply rmatch_lit_in in Hin. simpl in Hin. destruct Hin as [Hrest Hprev].
  pose proof keywords_wordy as Hwordy. rewrite forallb_forall in Hwordy.
  specialize (Hwordy k Hk). unfold wordy in Hwordy.
  apply andb_true_iff in Hwordy. destruct Hwordy as [Hkw Hlast].
  assert (Hafter : wordAfter st2 = true).
  { unfold wordAfter. eapply word_split; eauto. eapply memText_false; eauto. }
  assert (Hbefore : wordBefore st2 = true).
  { unfold wordBefore. rewrite Hprev. unfold prevAfter.
    destruct (last (chars k)); [exact Hlast|discriminate]. }
  simpl. unfold atBoundary. rewrite Hafter, Hbefore. reflexivity.
Qed.

Lemma annotation_fail w post :
  endsWord post = true ->
  existsb (fun a => startsWith (chars a) w) annotationList = false ->
  exec annotationRe (w ++ post) = None.
Proof.
  intros Hpost Hex. unfold exec.
  destruct (rmatch annotationRe (MState None (w ++ post))) as [|st l] eqn:E; [reflexivity|].
  exfalso.
  assert (Hin : In st (rmatch annotationRe (MState None (w ++ post))))
    by (rewrite E; left; reflexivity).
  apply rmatch_alts_in in Hin. destruct Hin as (r & Hr & Hin).
  apply in_map_iff in Hr. destruct Hr as (k & <- & Hk).
  apply rmatch_lit_in in Hin. simpl in Hin. destruct Hin as [Hrest _].
  pose proof annotations_wordy as Hwordy. rewrite forallb_forall in Hwordy.
  specialize (Hwordy k Hk). unfold wordy in Hwordy.
  apply andb_true_iff in Hwordy. destruct Hwordy as [Hkw _].
  assert (Hst : existsb (fun a => startsWith (chars a) w) annotationList = true).
  { apply existsb_exists. exists k. split; [exact Hk|]. eapply prefix_split; eauto. }
  congruence.
Qed.

Lemma react_fail w post :
  forallb isWord w = true -> endsWord post = true ->
  exec reactRe (w ++ post) = None.
Proof.
  intros Hw Hpost. unfold exec.
  replace (rmatch reactRe (MState None (w ++ post))) with (@nil mstate); [reflexivity|].
  symmetry. unfold reactRe. cbn [RSeqs].
  apply seq_nil_r. intros st1 H1. apply rmatch_boundary_in in H1. subst st1.
  apply seq_nil_r. intros st3 H3. unfold RPlus in H3. cbn [rmatch] in H3.
  apply in_flat_map in H3. destruct H3 as (st2 & H2 & H3).
  cbn [rest] in H2. destruct (w ++ post) as [|c x] eqn:Ex; [destruct H2|].
  destruct (isAlnumUnderscore c) eqn:Hc; [|destruct H2]. destruct H2 as [<-|[]].
  pose proof (star_class_in isAlnumUnderscore _ _ _ H3) as (m & Hm & Hall & _).
  cbn [rest] in Hm. destruct st3 as [p3 r3]. cbn [rest] in Hm.
  apply (colon_split w post (c :: m) r3 p3); auto.
  - rewrite Ex, Hm. reflexivity.
  - simpl. change (isWord c) with (isAlnumUnderscore c). rewrite Hc. exact Hall.
Qed.

Lemma ident_exec l w' post :
  isLetter l = true -> forallb isWord w' = true -> endsWord post = true ->
  exec identRe (l :: w' ++ post) = Some (S (length w')).
Proof.
  intros Hl Hw Hpost. unfold exec, identRe. cbn [RSeqs].
  pose proof (letter_rejects l Hl) as Hrej. cbn [forallb] in Hrej.
  repeat (apply andb_true_iff in Hrej; destruct Hrej as [? Hrej]).
  destruct (star_class_greedy isWordDollar w' post (length (w' ++ post)) (Some l))
    as (tl & Hstar).
  { clear - Hw. induction w' as [|c w IH]; [reflexivity|]. simpl in *.
    apply andb_true_iff in Hw. destruct Hw as [Hc Hw].
    rewrite (word_wordDollar _ Hc). auto. }
  { destruct post as [|d post]; [reflexivity|]. simpl in Hpost.
    apply andb_true_iff in Hpost. tauto. }
  { lia. }
  cbn [rmatch] in Hstar.
  cbn [rmatch ROpt ROne rest flat_map app].
  match goal with H : rejects (ROne "@") l = true |- _ => cbn [rejects ROne] in H;
    apply negb_true_iff in H; rewrite H end.
  cbn [flat_map app rest]. rewrite Hl. cbn [flat_map app rest].
  rewrite Hstar. cbn [app rest length].
  f_equal. rewrite !length_app. lia.
Qed.

Lemma findRule_identifier w post :
  isPlainWord w = true -> endsWord post = true ->
  findRule (root antimonyLanguage) (w ++ post) = Some (identCases, length w).
Proof.
  unfold isPlainWord. intros Hg Hpost.
  repeat (apply andb_true_iff in Hg; destruct Hg as [Hg ?]).
  repeat match goal with H : negb _ = true |- _ => apply negb_true_iff in H end.
  destruct w as [|l w']; [discriminate|]. simpl in Hg.
  apply andb_true_iff in Hg. destruct Hg as [Hl Hw].
  assert (Hword : forallb isWord (l :: w') = true)
    by (simpl; rewrite (letter_word _ Hl); exact Hw).
  pose proof (letter_rejects l Hl) as Hrej. cbn [forallb] in Hrej.
  repeat (apply andb_true_iff in Hrej; destruct Hrej as [? Hrej]).
  unfold antimonyLanguage. cbn [root findRule].
  change ((l :: w') ++ post) with (l :: w' ++ post).
  rewrite !exec_rejects by assumption.
  change (l :: w' ++ post) with ((l :: w') ++ post).
  rewrite keywords_fail, annotation_fail, react_fail by assumption.
  change ((l :: w') ++ post) with (l :: w' ++ post).
  rewrite ident_exec by assumption. reflexivity.
Qed.

Lemma resolve_generic w :
  memText kindList w = false -> resolve identCases w = "other"%string.
Proof.
  unfold memText, identCases, resolve. intros H.
  destruct (find _ _) as [kv|] eqn:E; [|reflexivity]. exfalso.
  apply find_some in E. destruct E as [Hin Heq].
  apply in_map_iff in Hin. destruct Hin as (k & <- & Hk). simpl in Heq.
  assert (existsb (fun k => String.eqb k (String.string_of_list_ascii w)) kindList = true)
    by (apply existsb_exists; eauto).
  congruence.
Qed.

(** The token a matching rule gives. *)
Lemma token_at a w post :
  findRule (root antimonyLanguage) (w ++ post) = Some (a, length w) -> w <> [] ->
  tokenAt (resolve a w) w (w ++ post).
Proof.
  intros Hf Hne fuel pos Hfuel.
  destruct w as [|l w']; [congruence|].
  destruct fuel as [|fuel]; [simpl in Hfuel; lia|].
  rewrite <- app_comm_cons in *. cbn [length] in Hfuel.
  cbn [tokenizeLoop]. rewrite Hf. rewrite app_comm_cons.
  rewrite (take_app_length (l :: w') post), (drop_app_length (l :: w') post).
  cbn [length Nat.eqb].
  destruct (tokenizeLoop_lexes antimonyLanguage productive_antimony
              fuel (pos + S (length w')) post) as (ts & Hts & _).
  { rewrite length_app in Hfuel. lia. }
  rewrite Hts. exists ts. reflexivity.
Qed.

Lemma tokenAt_first ty w line : tokenAt ty w line -> firstToken ty w line.
Proof. intros H. apply (H (length line) 0). lia. Qed.

(** *** Literal alternatives *)

Lemma startsWith_length k : forall x, startsWith k x = true -> length k <= length x.
Proof.
  induction k as [|c k IH]; intros x H; [simpl; lia|].
  destruct x as [|d x]; [discriminate|]. simpl in H.
  apply andb_true_iff in H. destruct H as [_ H]. apply IH in H. simpl. lia.
Qed.

Lemma startsWith_self w post : startsWith w (w ++ post) = true.
Proof.
  induction w as [|c w IH]; [reflexivity|]. simpl. rewrite IH.
  unfold isChar. rewrite Ascii.eqb_refl. reflexivity.
Qed.

(** Whether a run of word characters starts [w ++ post] is decided in [w]. *)
Lemma startsWith_word k : forall w post,
  forallb isWord k = true -> endsWord post = true ->
  startsWith k (w ++ post) = startsWith k w.
Proof.
  induction k as [|c k IH]; intros w post Hk Hpost; [reflexivity|].
  simpl in Hk. apply andb_true_iff in Hk. destruct Hk as [Hc Hk].
  destruct w as [|a w].
  - cbn [app]. destruct post as [|d post]; [reflexivity|]. cbn [startsWith].
    destruct (isChar c d) eqn:E; [|reflexivity]. exfalso.
    apply Ascii.eqb_eq in E. subst d. cbn [endsWord] in Hpost.
    rewrite (word_wordDollar _ Hc) in Hpost. discriminate.
  - cbn [app startsWith]. rewrite IH by assumption. reflexivity.
Qed.

Lemma rmatch_lit k : forall p x,
  rmatch (RLit k) (MState p x)
  = if startsWith k x then [MState (prevAfter p k) (drop (length k) x)] else [].
Proof.
  induction k as [|c k IH]; intros p x; [reflexivity|].
  cbn [RLit rmatch]. unfold ROne. cbn [rmatch rest].
  destruct x as [|d x]; [reflexivity|]. cbn [startsWith].
  destruct (isChar c d) eqn:E; cbn [flat_map andb]; [|reflexivity].
  rewrite IH, app_nil_r. apply Ascii.eqb_eq in E. subst d.
  destruct (startsWith k x); [|reflexivity].
  cbn [length drop]. do 2 f_equal. unfold prevAfter.
  destruct k as [|c' k']; [reflexivity|]. rewrite last_cons_cons.
  destruct (last (c' :: k')) eqn:El; [reflexivity|].
  apply last_None in El. discriminate.
Qed.

(** Of literal alternatives, the first that starts the text matches. *)
Lemma alts_lits_exec ws x :
  exec (RAlts (map lit ws)) x
  = option_map (fun w => length (chars w)) (List.find (fun w => startsWith (chars w) x) ws).
Proof.
  unfold exec. rewrite rmatch_alts.
  induction ws as [|w ws IH]; [reflexivity|].
  cbn [map flat_map List.find]. unfold lit at 1. rewrite rmatch_lit.
  destruct (startsWith (chars w) x) eqn:E.
  - cbn [app rest option_map]. apply startsWith_length in E.
    rewrite length_drop. f_equal. lia.
  - cbn [app]. exact IH.
Qed.

Lemma find_ext {A} (f g : A -> bool) (l : list A) :
  (forall x, In x l -> f x = g x) -> List.find f l = List.find g l.
Proof.
  induction l as [|x l IH]; intros H; [reflexivity|]. simpl.
  rewrite (H x) by (left; reflexivity). destruct (g x); [reflexivity|].
  apply IH. intros y Hy. apply H. right. exact Hy.
Qed.

Lemma memText_elim ws w :
  memText ws w = true -> exists k, In k ws /\ w = chars k.
Proof.
  unfold memText. intros H. apply existsb_exists in H. destruct H as (k & Hk & Heq).
  apply String.eqb_eq in Heq. exists k. split; [exact Hk|]. subst k.
  symmetry. apply String.list_ascii_of_string_of_list_ascii.
Qed.

Lemma memText_chars ws k : In k ws -> memText ws (chars k) = true.
Proof.
  intros Hk. unfold memText. apply existsb_exists. exists k. split; [exact Hk|].
  apply String.eqb_eq. symmetry. apply String.string_of_list_ascii_of_string.
Qed.

(** Literal alternatives between two word boundaries match a listed word
    that ends where the word characters end. *)
Lemma bounded_words_first ws : forall w post p,
  forallb wordy ws = true -> forallb isWord w = true -> endsWord post = true ->
  memText ws w = true ->
  exists tl,
    flat_map (rmatch RWordBoundary)
             (flat_map (fun r => rmatch r (MState p (w ++ post))) (map lit ws))
    = MState (prevAfter p w) post :: tl.
Proof.
  induction ws as [|k ws IH]; intros w post p Hws Hw Hpost Hmem; [discriminate|].
  cbn [forallb] in Hws. apply andb_true_iff in Hws. destruct Hws as [Hk Hws].
  unfold wordy in Hk. apply andb_true_iff in Hk. destruct Hk as [Hkw Hklast].
  cbn [map flat_map]. rewrite flat_map_app. unfold lit at 1. rewrite rmatch_lit.
  destruct (decide (chars k = w)) as [Heq|Hne].
  - subst w. rewrite startsWith_self. cbn [flat_map]. rewrite app_nil_r.
    rewrite drop_app_length. cbn [rmatch]. unfold atBoundary, wordBefore, wordAfter.
    cbn [prev rest]. unfold prevAfter at 1.
    destruct (last (chars k)) as [c|]; [|discriminate]. rewrite Hklast.
    assert (Hafter : match post with [] => false | c0 :: _ => isWord c0 end = false).
    { destruct post as [|d post]; [reflexivity|]. cbn [endsWord] in Hpost.
      apply andb_true_iff in Hpost. destruct Hpost as [Hd _].
      apply negb_true_iff in Hd. unfold isWordDollar in Hd.
      apply orb_false_iff in Hd. tauto. }
    rewrite Hafter. cbn [xorb app]. eexists. reflexivity.
  - assert (Hmem' : memText ws w = true).
    { unfold memText in Hmem |- *. cbn [existsb] in Hmem.
      apply orb_true_iff in Hmem. destruct Hmem as [Hmem|Hmem]; [|exact Hmem].
      exfalso. apply Hne. apply String.eqb_eq in Hmem. subst k.
      apply String.list_ascii_of_string_of_list_ascii. }
    destruct (IH w post p Hws Hw Hpost Hmem') as (tl & Htl).
    rewrite Htl. destruct (startsWith (chars k) (w ++ post)) eqn:E.
    + cbn [flat_map]. rewrite app_nil_r. cbn [rmatch].
      assert (Hb : atBoundary (MState (prevAfter p (chars k))
                                      (drop (length (chars k)) (w ++ post))) = false).
      { unfold atBoundary, wordBefore, wordAfter. cbn [prev rest]. unfold prevAfter.
        destruct (last (chars k)) as [c|]; [|discriminate]. rewrite Hklast.
        rewrite (word_split w post (chars k) (drop (length (chars k)) (w ++ post)));
          auto.
        rewrite <- (take_drop (length (chars k)) (w ++ post)) at 1. f_equal.
        clear - E. revert E. generalize (w ++ post). generalize (chars k).
        induction l as [|c l IHl]; intros x E; [reflexivity|].
        destruct x as [|d x]; [discriminate|]. cbn [startsWith] in E.
        apply andb_true_iff in E. destruct E as [Ec E]. apply Ascii.eqb_eq in Ec.
        subst d. cbn [length take]. f_equal. apply IHl, E. }
      rewrite Hb. cbn [app]. eexists. reflexivity.
    + cbn [flat_map app]. eexists. reflexivity.
Qed.

Lemma keywords_identifiers : forallb (fun k => isIdentifier (chars k)) keywordList = true.
Proof. reflexivity. Qed.

Lemma keywords_exec w post :
  memText keywordList w = true -> endsWord post = true ->
  exec keywordsRe (w ++ post) = Some (length w).
Proof.
  intros Hmem Hpost.
  destruct (memText_elim _ _ Hmem) as (k & Hk & ->).
  pose proof keywords_wordy as Hwordy.
  assert (Hkw : wordy k = true) by (rewrite forallb_forall in Hwordy; auto).
  unfold wordy in Hkw. apply andb_true_iff in Hkw. destruct Hkw as [Hkw _].
  assert (Hstart : atBoundary (MState None (chars k ++ post)) = true).
  { pose proof keywords_identifiers as Hid. rewrite forallb_forall in Hid.
    specialize (Hid k Hk). destruct (chars k) as [|l w']; [discriminate Hid|].
    cbn [isIdentifier] in Hid. apply andb_true_iff in Hid. destruct Hid as [Hl _].
    unfold atBoundary, wordBefore, wordAfter. cbn [prev rest app].
    rewrite (letter_word _ Hl). reflexivity. }
  destruct (bounded_words_first keywordList (chars k) post None Hwordy Hkw Hpost Hmem)
    as (tl & Htl).
  unfold exec, keywordsRe. cbn [RSeqs].
  rewrite rmatch_seq, rmatch_boundary, Hstart. cbn [flat_map].
  rewrite app_nil_r, rmatch_seq, rmatch_alts, Htl.
  cbn [rest]. f_equal. rewrite length_app. lia.
Qed.

Definition wholeWord (a : string) : bool :=
  isIdentifier (chars a)
  && forallb isWord (chars a)
  && negb (memText keywordList (chars a))
  && match List.find (fun w => startsWith (chars w) (chars a)) annotationList with
     | Some w => String.eqb w a
     | None => false
     end.

Lemma wholeAnnotations_whole : forallb wholeWord wholeAnnotations = true.
Proof. vm_compute. reflexivity. Qed.

Lemma whole_annotation_shape a :
  In a wholeAnnotations ->
  isIdentifier (chars a) = true /\ forallb isWord (chars a) = true /\
  memText keywordList (chars a) = false /\
  List.find (fun w => startsWith (chars w) (chars a)) annotationList = Some a.
Proof.
  intros Ha.
  pose proof wholeAnnotations_whole as Hwhole. rewrite forallb_forall in Hwhole.
  specialize (Hwhole a Ha). unfold wholeWord in Hwhole.
  repeat (apply andb_true_iff in Hwhole; destruct Hwhole as [Hwhole ?]).
  repeat match goal with H : negb _ = true |- _ => apply negb_true_iff in H end.
  repeat split; try assumption.
  destruct (List.find _ annotationList) as [w|]; [|discriminate].
  match goal with H : String.eqb w a = true |- _ => apply String.eqb_eq in H; subst w end.
  reflexivity.
Qed.

Lemma annotation_exec a post :
  In a wholeAnnotations -> endsWord post = true ->
  exec annotationRe (chars a ++ post) = Some (length (chars a)).
Proof.
  intros Ha Hpost. destruct (whole_annotation_shape a Ha) as (_ & _ & _ & Hfind).
  pose proof annotations_wordy as Hwordy. rewrite forallb_forall in Hwordy.
  unfold annotationRe. rewrite alts_lits_exec.
  rewrite (find_ext _ (fun w => startsWith (chars w) (chars a))).
  - rewrite Hfind. reflexivity.
  - intros w Hw. apply startsWith_word; [|exact Hpost].
    specialize (Hwordy w Hw). unfold wordy in Hwordy.
    apply andb_true_iff in Hwordy. tauto.
Qed.

(** A line that starts with a letter is left to the rules from the
    keywords on. *)
Lemma findRule_word w post :
  isIdentifier w = true ->
  findRule (root antimonyLanguage) (w ++ post)
  = findRule [ (keywordsRe, Token "keywords"); (annotationRe, Token "annotation");
               (reactRe, Token "react-remov"); (identRe, identCases);
               (numberRe, Token "number") ] (w ++ post).
Proof.
  intros Hid. destruct w as [|l w']; [discriminate|]. cbn [isIdentifier] in Hid.
  apply andb_true_iff in Hid. destruct Hid as [Hl _].
  pose proof (letter_rejects l Hl) as Hrej. cbn [forallb] in Hrej.
  repeat (apply andb_true_iff in Hrej; destruct Hrej as [? Hrej]).
  unfold antimonyLanguage. cbn [root]. rewrite <- app_comm_cons.
  cbn [findRule]. rewrite !exec_rejects by assumption. reflexivity.
Qed.

Lemma findRule_keyword w post :
  memText keywordList w = true -> endsWord post = true ->
  findRule (root antimonyLanguage) (w ++ post) = Some (Token "keywords", length w).
Proof.
  intros Hmem Hpost. pose proof (keywords_exec w post Hmem Hpost) as Hexec.
  destruct (memText_elim _ _ Hmem) as (k & Hk & ->).
  pose proof keywords_identifiers as Hid. rewrite forallb_forall in Hid.
  rewrite (findRule_word _ _ (Hid k Hk)). cbn [findRule]. rewrite Hexec. reflexivity.
Qed.

Lemma findRule_annotation w post :
  memText wholeAnnotations w = true -> endsWord post = true ->
  findRule (root antimonyLanguage) (w ++ post) = Some (Token "annotation", length w).
Proof.
  intros Hmem Hpost.
  destruct (memText_elim _ _ Hmem) as (a & Ha & ->).
  destruct (whole_annotation_shape a Ha) as (Hid & Hword & Hkw & _).
  rewrite (findRule_word _ _ Hid). cbn [findRule].
  rewrite (keywords_fail _ _ Hword Hpost Hkw).
  rewrite (annotation_exec _ _ Ha Hpost). reflexivity.
Qed.

Definition kindWord (k : string) : bool :=
  isPlainWord (chars k) && String.eqb (resolve identCases (chars k)) k.

Lemma kinds_plain : forallb kindWord kindList = true.
Proof. vm_compute. reflexivity. Qed.

(** C7 (as amended). Where the tokenizer starts a token, before the end
    of the line or a character that is no word character, dollar sign or
    colon: each of at, in, import, has is a [keywords] token; each word of
    the annotation pattern that no earlier alternative of the pattern
    starts (identity, hasPart, encodes, occursIn, hasProperty, hasTaxon,
    hasInstance, ...) is an [annotation] token; each declared kind is a
    token of its own class; and an identifier of letters, digits and
    underscores that is none of these and that no annotation word starts
    is an [other] token. *)
Theorem word_classes (w post : list ascii) :
  endsWord post = true ->
  (memText keywordList w = true -> tokenAt "keywords" w (w ++ post)) /\
  (memText wholeAnnotations w = true -> tokenAt "annotation" w (w ++ post)) /\
  (memText kindList w = true ->
   tokenAt (String.string_of_list_ascii w) w (w ++ post)) /\
  (isGeneric w = true -> tokenAt "other" w (w ++ post)).
Proof.
  intros Hpost. split; [|split; [|split]].
  - intros Hmem. pose proof (findRule_keyword w post Hmem Hpost) as Hf.
    apply (token_at (Token "keywords")); [exact Hf|].
    destruct (memText_elim _ _ Hmem) as (k & Hk & ->).
    pose proof keywords_identifiers as Hid. rewrite forallb_forall in Hid.
    specialize (Hid k Hk). destruct (chars k); [discriminate Hid|discriminate].
  - intros Hmem. pose proof (findRule_annotation w post Hmem Hpost) as Hf.
    apply (token_at (Token "annotation")); [exact Hf|].
    destruct (memText_elim _ _ Hmem) as (a & Ha & ->).
    destruct (whole_annotation_shape a Ha) as (Hid & _).
    destruct (chars a); [discriminate Hid|discriminate].
  - intros Hmem. destruct (memText_elim _ _ Hmem) as (k & Hk & ->).
    pose proof kinds_plain as Hkinds. rewrite forallb_forall in Hkinds.
    specialize (Hkinds k Hk). unfold kindWord in Hkinds.
    apply andb_true_iff in Hkinds. destruct Hkinds as [Hplain Hres].
    apply String.eqb_eq in Hres.
    rewrite String.string_of_list_ascii_of_string. rewrite <- Hres at 1.
    apply token_at; [apply findRule_identifier; assumption|].
    destruct (chars k); [discriminate Hplain|discriminate].
  - intros Hg. unfold isGeneric in Hg. apply andb_true_iff in Hg.
    destruct Hg as [Hplain Hkind]. apply negb_true_iff in Hkind.
    rewrite <- (resolve_generic _ Hkind).
    apply token_at; [apply findRule_identifier; assumption|].
    destruct w; [discriminate Hplain|discriminate].
Qed.

Lemma word_classes_witness :
  firstToken "other" (chars "ProteinD") (chars "ProteinD" ++ chars " -> B") /\
  firstToken "keywords" (chars "has") (chars "has" ++ chars " identity") /\
  firstToken "annotation" (chars "identity") (chars "identity" ++ chars " x") /\
  firstToken "species" (chars "species") (chars "species" ++ chars " A").
Proof.
  split; [|split; [|split]]; apply tokenAt_first.
  - exact (proj2 (proj2 (proj2 (word_classes (chars "ProteinD") (chars " -> B") eq_refl)))
             eq_refl).
  - exact (proj1 (word_classes (chars "has") (chars " identity") eq_refl) eq_refl).
  - exact (proj1 (proj2 (word_classes (chars "identity") (chars " x") eq_refl)) eq_refl).
  - exact (proj1 (proj2 (proj2 (word_classes (chars "species") (chars " A") eq_refl)))
             eq_refl).
Defined.

(** On lines of their own. *)
Lemma whole_line_words :
  Forall (fun k => tokenize (chars k) = single "keywords" (chars k)) keywordList /\
  Forall (fun a => tokenize (chars a) = single "annotation" (chars a)) wholeAnnotations /\
  Forall (fun k => tokenize (chars k) = single k (chars k)) kindList.
Proof.
  split; [|split].
  - repeat (constructor; [vm_compute; reflexivity|]). constructor.
  - let l := eval vm_compute in wholeAnnotations in change wholeAnnotations with l.
    repeat (constructor; [vm_compute; reflexivity|]). constructor.
  - repeat (constructor; [vm_compute; reflexivity|]). constructor.
Qed.

(** C7, as stated, fails: [J0] is an identifier outside every keyword
    class, yet before a colon it is read into a [react-remov] token. *)
Lemma reaction_label_not_generic :
  isGeneric (chars "J0") = true /\
  tokenize (chars "J0:") = Tokens [Tok 0 "react-remov" (chars "J0:")].
Proof. split; vm_compute; reflexivity. Qed.

(** The alternative [is] comes before [isVersionOf] in the annotation
    pattern and the pattern has no word boundary. *)
Lemma isVersionOf_split :
  tokenize (chars "isVersionOf")
  = Tokens [Tok 0 "annotation" (chars "is"); Tok 2 "other" (chars "VersionOf")].
Proof. vm_compute. reflexivity. Qed.

Lemma isotope_split :
  tokenize (chars "isotope")
  = Tokens [Tok 0 "annotation" (chars "is"); Tok 2 "other" (chars "otope")].
Proof. vm_compute. reflexivity. Qed.

(** *** Numeric literals *)





























(** In the line of an event the number before the colon is lost the same
    way. *)
Lemma event_trigger_number :
  tokenize (chars "at time>10: k=0")
  = Tokens [ Tok 0 "keywords" (chars "at"); Tok 2 "source" (chars " ");
             Tok 3 "other" (chars "time"); Tok 7 "source" (chars ">");
             Tok 8 "react-remov" (chars "10:"); Tok 11 "source" (chars " ");
             Tok 12 "other" (chars "k"); Tok 13 "assign" (chars "=");
             Tok 14 "number" (chars "0") ].
Proof. vm_compute. reflexivity. Qed.

(** The number pattern opens with a word boundary, which a leading dot
    never satisfies: [.5] is read as a default token and the number [5],
    although the pattern lists the form of a dot and digits. With no
    digit after the dot the closing boundary fails: [5.] before a blank
    is the number [5] and a default token of the dot and the blank. *)
Lemma leading_dot_decimal_split :
  tokenize (chars ".5")
  = Tokens [Tok 0 "source" (chars "."); Tok 1 "number" (chars "5")] /\
  tokenize (chars "5. ")
  = Tokens [Tok 0 "number" (chars "5"); Tok 1 "source" (chars ". ")].
Proof. split; vm_compute; reflexivity. Qed.

(** Literals of each form alone on a line. *)
Lemma number_forms :
  Forall (fun n => tokenize (chars n) = single "number" (chars n))
    ["0"; "42"; "3.14"; "0x1F"; "0XaB"; "0o17"; "0b101"; "1e5"; "2E+10"; "6e-3"]%string.
Proof. repeat (constructor; [vm_compute; reflexivity|]). constructor. Qed.

(** *** Comments, strings, marks and labels *)

Lemma default_at c s :
  findRule (root antimonyLanguage) (c :: s) = None -> tokenAt "source" [c] (c :: s).
Proof.
  intros Hf fuel pos Hfuel. cbn [length] in Hfuel.
  destruct fuel as [|fuel]; [lia|].
  cbn [tokenizeLoop]. rewrite Hf.
  destruct (tokenizeLoop_lexes antimonyLanguage productive_antimony fuel (pos + 1) s)
    as (ts & Hts & _); [lia|].
  rewrite Hts. exists ts. reflexivity.
Qed.

Lemma boundary_led r c s :
  isWord c = false -> exec (RSeq RWordBoundary r) (c :: s) = None.
Proof.
  intros H. unfold exec. cbn [rmatch].
  unfold atBoundary, wordBefore, wordAfter. cbn [prev rest]. rewrite H. reflexivity.
Qed.

(** At a character that is no word character only the string rule is
    left, once the character starts no mark and no name. *)
Lemma findRule_nonword c s :
  isWord c = false ->
  forallb (fun r => rejects r c)
    [commentRe; parenRe; transformRe; assignRe; operatorRe; annotationRe; identRe] = true ->
  exec stringRe (c :: s) = None ->
  findRule (root antimonyLanguage) (c :: s) = None.
Proof.
  intros Hw Hrej Hstr. cbn [forallb] in Hrej.
  repeat (apply andb_true_iff in Hrej; destruct Hrej as [? Hrej]).
  unfold antimonyLanguage. cbn [root findRule].
  rewrite Hstr.
  repeat match goal with
         | X : rejects ?r c = true |- _ => rewrite (exec_rejects r c s X); clear X
         end.
  unfold keywordsRe, reactRe, numberRe. cbn [RSeqs].
  rewrite !boundary_led by exact Hw. reflexivity.
Qed.

Lemma opaque_rejects c :
  opaque c = true ->
  negb (isWord c)
  && forallb (fun r => rejects r c)
       [commentRe; stringRe; parenRe; transformRe; assignRe; operatorRe;
        annotationRe; identRe] = true.
Proof. revert c. refine (ascii_implies _ _ _). vm_compute. reflexivity. Qed.

Lemma opaque_unmatched c s :
  opaque c = true -> findRule (root antimonyLanguage) (c :: s) = None.
Proof.
  intros H. apply opaque_rejects in H.
  apply andb_true_iff in H. destruct H as [Hw Hrej]. apply negb_true_iff in Hw.
  cbn [forallb] in Hrej.
  apply andb_true_iff in Hrej. destruct Hrej as [Hc Hrej].
  apply andb_true_iff in Hrej. destruct Hrej as [Hs Hrej].
  apply findRule_nonword.
  - exact Hw.
  - cbn [forallb]. rewrite Hc. exact Hrej.
  - apply exec_rejects. exact Hs.
Qed.

(** Where the rule loop comes to such a character it emits it alone,
    with the default class. *)
Lemma opaque_at c s : opaque c = true -> tokenAt "source" [c] (c :: s).
Proof. intros H. apply default_at, opaque_unmatched, H. Qed.



(** The blanks of an indentation are one token, and so are a comparison
    sign and the blank after it. *)
Lemma opaque_runs :
  tokenize (chars "  k1 > 10")
  = Tokens [ Tok 0 "source" (chars "  "); Tok 2 "other" (chars "k1");
             Tok 4 "source" (chars " > "); Tok 7 "number" (chars "10") ] /\
  tokenize (chars "> 10")
  = Tokens [Tok 0 "source" (chars "> "); Tok 2 "number" (chars "10")].
Proof. split; vm_compute; reflexivity. Qed.

Lemma first_lit k r pv :
  firstMatch (RLit k) (MState pv (k ++ r)) (MState (prevAfter pv k) r).
Proof.
  exists []. rewrite rmatch_lit, startsWith_self, drop_app_length. reflexivity.
Qed.

Lemma comment_exec s post :
  forallb isDot s = true -> stops isDot post = true ->
  exec commentRe (chars "//" ++ s ++ post) = Some (2 + length s).
Proof.
  intros Hs Hpost. erewrite exec_first.
  2:{ unfold commentRe, lit. eapply first_seq; [apply first_lit|].
      apply first_star; eassumption. }
  cbn [rest]. rewrite !length_app. cbn [length chars String.list_ascii_of_string].
  f_equal. lia.
Qed.

(** X1. Two slashes start a comment that runs to the end of the line:
    the slashes and whatever follows them on the line are one [comment]
    token, and the line has no token after it. *)
Theorem comment_to_end_of_line s fuel pos :
  forallb isDot s = true -> length s + 2 <= fuel ->
  tokenizeLoop antimonyLanguage fuel pos (chars "//" ++ s)
  = Tokens [Tok pos "comment" (chars "//" ++ s)].
Proof.
  intros Hs Hfuel. destruct fuel as [|fuel]; [lia|].
  pose proof (comment_exec s [] Hs eq_refl) as He. rewrite app_nil_r in He.
  change (chars "//" ++ s) with ("/"%char :: "/"%char :: s) in *.
  cbn [tokenizeLoop]. unfold antimonyLanguage at 1. cbn [root findRule].
  rewrite He. cbn [Nat.eqb Nat.add resolve].
  change (take (S (S (length s))) ("/"%char :: "/"%char :: s))
    with ("/"%char :: "/"%char :: take (length s) s).
  change (drop (S (S (length s))) ("/"%char :: "/"%char :: s))
    with (drop (length s) s).
  rewrite firstn_all, drop_all. destruct fuel; reflexivity.
Qed.

Lemma comment_to_end_of_line_witness :
  tokenize (chars "// k1 = 0.5; at 3") = single "comment" (chars "// k1 = 0.5; at 3").
Proof.
  pose proof (comment_to_end_of_line (chars " k1 = 0.5; at 3") 17 0 eq_refl) as H.
  unfold tokenize. rewrite tokenizeLine_short.
  - unfold ruleTokens.
    change (tokenizeLoop antimonyLanguage (length (chars "// k1 = 0.5; at 3")) 0
              (chars "// k1 = 0.5; at 3"))
      with (tokenizeLoop antimonyLanguage 17 0 (chars "//" ++ chars " k1 = 0.5; at 3")).
    rewrite H; [reflexivity|].
    cbn [length chars String.list_ascii_of_string]. lia.
  - unfold maxTokenizationLineLength.
    cbn [length chars String.list_ascii_of_string]. lia.
Defined.





(** Where word characters end, a run of them that starts the text starts
    the word ... *)
Lemma prefix_of_run w post k r :
  w ++ post = k ++ r -> forallb isWord k = true -> stops isWord post = true ->
  startsWith k w = true.
Proof.
  revert k. induction w as [|a w IH]; intros k Heq Hk Hpost.
  - destruct k as [|c k]; [reflexivity|].
    simpl in Heq. subst post. simpl in Hk. cbn [stops] in Hpost.
    apply andb_true_iff in Hk. destruct Hk as [Hc _].
    rewrite Hc in Hpost. discriminate.
  - destruct k as [|c k]; [reflexivity|].
    simpl in Heq. injection Heq as <- Heq. simpl in Hk.
    apply andb_true_iff in Hk. destruct Hk as [_ Hk].
    simpl. unfold isChar. rewrite Ascii.eqb_refl. simpl. eapply IH; eauto.
Qed.

(** ... and stands before a word character unless it is the whole word. *)
Lemma inside_run w post k r :
  w ++ post = k ++ r -> forallb isWord w = true -> forallb isWord k = true ->
  stops isWord post = true -> k <> w ->
  match r with d :: _ => isWord d | [] => false end = true.
Proof.
  revert k. induction w as [|a w IH]; intros k Heq Hw Hk Hpost Hne.
  - destruct k as [|c k]; [congruence|].
    simpl in Heq. subst post. simpl in Hk. cbn [stops] in Hpost.
    apply andb_true_iff in Hk. destruct Hk as [Hc _].
    rewrite Hc in Hpost. discriminate.
  - simpl in Hw. apply andb_true_iff in Hw. destruct Hw as [Ha Hw].
    destruct k as [|c k].
    + simpl in Heq. subst r. exact Ha.
    + simpl in Heq. injection Heq as <- Heq. simpl in Hk.
      apply andb_true_iff in Hk. destruct Hk as [_ Hk].
      eapply IH; eauto. congruence.
Qed.

Lemma keywords_miss w post :
  forallb isWord w = true -> stops isWord post = true ->
  memText keywordList w = false ->
  exec keywordsRe (w ++ post) = None.
Proof.
  intros Hw Hpost Hmem. unfold exec.
  replace (rmatch keywordsRe (MState None (w ++ post))) with (@nil mstate); [reflexivity|].
  symmetry. unfold keywordsRe. cbn [RSeqs].
  apply seq_nil_r. intros st1 H1. apply rmatch_boundary_in in H1. subst st1.
  apply seq_nil_r. intros st2 H2.
  apply rmatch_alts_in in H2. destruct H2 as (r & Hr & Hin).
  apply in_map_iff in Hr. destruct Hr as (k & <- & Hk).
  apply rmatch_lit_in in Hin. simpl in Hin. destruct Hin as [Hrest Hprev].
  pose proof keywords_wordy as Hwordy. rewrite forallb_forall in Hwordy.
  specialize (Hwordy k Hk). unfold wordy in Hwordy.
  apply andb_true_iff in Hwordy. destruct Hwordy as [Hkw Hlast].
  assert (Hafter : wordAfter st2 = true).
  { unfold wordAfter. eapply inside_run; eauto. eapply memText_false; eauto. }
  assert (Hbefore : wordBefore st2 = true).
  { unfold wordBefore. rewrite Hprev. unfold prevAfter.
    destruct (last (chars k)); [exact Hlast|discriminate]. }
  simpl. unfold atBoundary. rewrite Hafter, Hbefore. reflexivity.
Qed.

Lemma annotation_miss w post :
  stops isWord post = true ->
  existsb (fun a => startsWith (chars a) w) annotationList = false ->
  exec annotationRe (w ++ post) = None.
Proof.
  intros Hpost Hex. unfold exec.
  destruct (rmatch annotationRe (MState None (w ++ post))) as [|st l] eqn:E; [reflexivity|].
  exfalso.
  assert (Hin : In st (rmatch annotationRe (MState None (w ++ post))))
    by (rewrite E; left; reflexivity).
  apply rmatch_alts_in in Hin. destruct Hin as (r & Hr & Hin).
  apply in_map_iff in Hr. destruct Hr as (k & <- & Hk).
  apply rmatch_lit_in in Hin. simpl in Hin. destruct Hin as [Hrest _].
  pose proof annotations_wordy as Hwordy. rewrite forallb_forall in Hwordy.
  specialize (Hwordy k Hk). unfold wordy in Hwordy.
  apply andb_true_iff in Hwordy. destruct Hwordy as [Hkw _].
  assert (Hst : existsb (fun a => startsWith (chars a) w) annotationList = true).
  { apply existsb_exists. exists k. split; [exact Hk|]. eapply prefix_of_run; eauto. }
  congruence.
Qed.

Lemma word_rejects c :
  isWord c = true ->
  forallb (fun r => rejects r c)
    [commentRe; stringRe; parenRe; transformRe; assignRe; operatorRe] = true.
Proof. revert c. refine (ascii_implies _ _ _). vm_compute. reflexivity. Qed.

Lemma label_exec w post :
  run isWord w = true -> exec reactRe (w ++ ":"%char :: post) = Some (length w + 1).
Proof.
  intros Hw. erewrite exec_first.
  2:{ unfold reactRe. cbn [RSeqs]. unfold ROne.
      eapply first_seq; [|eapply first_seq].
      - apply first_boundary. destruct w as [|c w]; [discriminate|].
        cbn [run forallb] in Hw. apply andb_true_iff in Hw. destruct Hw as [Hc _].
        unfold atBoundary, wordBefore, wordAfter. cbn [prev rest app]. rewrite Hc.
        reflexivity.
      - apply (first_plus isAlnumUnderscore w); [exact Hw|reflexivity].
      - apply first_char. reflexivity. }
  cbn [rest]. rewrite length_app. cbn [length]. f_equal. lia.
Qed.

(** X4. Letters, digits and underscores followed by a colon are one
    [react-remov] token, colon included, whatever follows the colon,
    unless the word is one of [at], [in], [import], [has] or starts with
    a word of the annotation pattern. *)
Theorem label_tokens w post :
  run isWord w = true ->
  memText keywordList w = false ->
  existsb (fun a => startsWith (chars a) w) annotationList = false ->
  tokenAt "react-remov" (w ++ [":"%char]) ((w ++ [":"%char]) ++ post).
Proof.
  intros Hw Hkw Hann.
  apply (token_at (Token "react-remov") (w ++ [":"%char]) post).
  2:{ destruct w; discriminate. }
  rewrite <- app_assoc. cbn [app].
  pose proof (keywords_miss w (":"%char :: post) (run_forallb _ _ Hw) eq_refl Hkw) as Hk.
  pose proof (annotation_miss w (":"%char :: post) eq_refl Hann) as Ha.
  pose proof (label_exec w post Hw) as Hl.
  destruct w as [|c w']; [discriminate|].
  cbn [run forallb] in Hw. apply andb_true_iff in Hw. destruct Hw as [Hc _].
  pose proof (word_rejects c Hc) as Hrej. cbn [forallb] in Hrej.
  repeat (apply andb_true_iff in Hrej; destruct Hrej as [? Hrej]).
  unfold antimonyLanguage. cbn [root findRule]. rewrite Hk, Ha, Hl.
  rewrite <- app_comm_cons.
  repeat match goal with
         | X : rejects ?r c = true |- _ => rewrite (exec_rejects r c _ X); clear X
         end.
  do 2 f_equal. rewrite length_app. reflexivity.
Qed.

Lemma label_tokens_witness :
  firstToken "react-remov" (chars "J0:") (chars "J0: S1 -> S2") /\
  firstToken "react-remov" (chars "x:") (chars "x:=3").
Proof.
  split; apply tokenAt_first.
  - apply (label_tokens (chars "J0") (chars " S1 -> S2")); reflexivity.
  - apply (label_tokens (chars "x") (chars "=3")); reflexivity.
Defined.

Lemma exec_one_of cs c s :
  exec (RAlts (map ROne cs)) (c :: s)
  = if existsb (fun x => isChar x c) cs then Some 1 else None.
Proof.
  unfold exec. rewrite rmatch_alts.
  induction cs as [|x cs IH]; [reflexivity|].
  cbn [map flat_map existsb]. unfold ROne at 1. cbn [rmatch rest].
  destruct (isChar x c); cbn [app orb rest length].
  - f_equal. lia.
  - exact IH.
Qed.

Lemma comment_miss x : startsWith (chars "//") x = false -> exec commentRe x = None.
Proof.
  intros H. unfold exec, commentRe, lit. rewrite rmatch_seq, rmatch_lit, H. reflexivity.
Qed.

Ltac chars_eval :=
  repeat match goal with
         | |- context [isChar ?a ?b] =>
             let v := eval vm_compute in (isChar a b) in
             match v with
             | true => change (isChar a b) with true
             | false => change (isChar a b) with false
             end
         end.

Ltac known_chars :=
  repeat match goal with
         | X : isChar _ _ = false |- _ => rewrite X
         end.

(** The rules up to the operators, on a text that starts with a mark. *)
Ltac mark_rules :=
  unfold antimonyLanguage; cbn [root findRule];
  change transformRe with (RAlts (map lit ["=>"; "->"]%string));
  change assignRe with (RAlts (map lit ["="; ":="]%string));
  change parenRe with (RAlts (map ROne ["("; ")"]%char));
  change operatorRe with (RAlts (map ROne ["-"; "+"; "*"; "/"; "^"; ";"]%char));
  rewrite ?comment_miss by (cbn [chars String.list_ascii_of_string startsWith];
                            chars_eval; known_chars; reflexivity);
  rewrite ?(exec_rejects stringRe) by reflexivity;
  rewrite ?exec_one_of, ?alts_lits_exec;
  cbn [List.find chars String.list_ascii_of_string startsWith existsb];
  chars_eval; known_chars; cbn [andb orb option_map length]; try reflexivity.

(** X5. The marks of two characters are one token each: [=>] and [->]
    are [transform] tokens and [:=] is an [assign] token, never an
    operator or an assignment followed by something else; parentheses
    and [+ * ^ ;] are tokens of their classes. A single [=] is an
    [assign] token and a single [-] an [operator] token unless [>]
    follows, and [/] is an [operator] token unless another [/]
    follows. *)
Theorem mark_tokens post :
  Forall (fun m => tokenAt (snd m) (chars (fst m)) (chars (fst m) ++ post)) marks /\
  Forall (fun m => stops (isChar (snd m)) post = true ->
                   tokenAt (snd (fst m)) (chars (fst (fst m)))
                           (chars (fst (fst m)) ++ post)) shortMarks.
Proof.
  split.
  - unfold marks.
    repeat (constructor;
            [cbn [fst snd];
             match goal with
             | |- tokenAt ?ty ?k _ => apply (token_at (Token ty) k post); [|discriminate]
             end;
             cbn [chars String.list_ascii_of_string app]; mark_rules|]).
    constructor.
  - unfold shortMarks.
    repeat (constructor;
            [cbn [fst snd]; intros Hs;
             destruct post as [|d post];
             [|cbn [stops] in Hs; apply negb_true_iff in Hs];
             match goal with
             | |- tokenAt ?ty ?k (_ ++ ?x) => apply (token_at (Token ty) k x); [|discriminate]
             end;
             cbn [chars String.list_ascii_of_string app]; mark_rules|]).
    constructor.
Qed.

(** *** The tokens of each class *)

Lemma startsWith_elim k : forall x, startsWith k x = true -> x = k ++ drop (length k) x.
Proof.
  induction k as [|c k IH]; intros x H; [reflexivity|].
  destruct x as [|d x]; [discriminate|]. cbn [startsWith] in H.
  apply andb_true_iff in H. destruct H as [Hc H]. apply Ascii.eqb_eq in Hc. subst d.
  cbn [length drop app]. f_equal. apply IH, H.
Qed.

Lemma span_class (p : ascii -> bool) s :
  exists m r, s = m ++ r /\ forallb p m = true /\ stops p r = true.
Proof.
  induction s as [|c s IH]; [exists [], []; auto|].
  destruct (p c) eqn:E.
  - destruct IH as (m & r & -> & Hm & Hr). exists (c :: m), r.
    split; [reflexivity|]. split; [cbn [forallb]; rewrite E; exact Hm|exact Hr].
  - exists [], (c :: s). split; [reflexivity|]. split; [reflexivity|].
    cbn [stops]. rewrite E. reflexivity.
Qed.

Lemma comment_shape s n :
  exec commentRe s = Some n ->
  commentText (take n s) /\ stops isDot (drop n s) = true.
Proof.
  intros He. destruct (startsWith (chars "//") s) eqn:E;
    [|rewrite comment_miss in He by exact E; discriminate].
  apply startsWith_elim in E.
  destruct (span_class isDot (drop (length (chars "//")) s)) as (m & r & Hs & Hm & Hr).
  rewrite Hs in E. rewrite E, comment_exec in He by assumption. injection He as <-.
  rewrite E. change (chars "//" ++ m ++ r) with ("/"%char :: "/"%char :: m ++ r).
  cbn [Nat.add take drop]. rewrite take_app_length, drop_app_length.
  split; [|exact Hr]. exists m. split; [reflexivity|exact Hm].
Qed.

Lemma string_shape s n : exec stringRe s = Some n -> stringText (take n s).
Proof.
  intros He. apply exec_reads in He. destruct He as (st' & Hin & Hn).
  unfold stringRe in Hin. cbn [RSeqs] in Hin. unfold ROne in Hin.
  apply reads_seq in Hin. destruct Hin as (st1 & H1 & Hin).
  apply reads_seq in Hin. destruct Hin as (st2 & H2 & H3).
  apply reads_char in H1. destruct H1 as (c1 & Hc1 & R1).
  apply reads_star in H2. destruct H2 as (m & Hm & R2).
  apply reads_char in H3. destruct H3 as (c3 & Hc3 & R3).
  pose proof (reads_app _ _ _ _ _ R1 (reads_app _ _ _ _ _ R2 R3)) as R.
  destruct (reads_take _ _ _ _ R Hn) as (_ & Ht & _). rewrite Ht.
  apply Ascii.eqb_eq in Hc1, Hc3. subst c1 c3.
  exists m. split; [reflexivity|exact Hm].
Qed.

Lemma one_of_shape cs s n :
  exec (RAlts (map ROne cs)) s = Some n ->
  exists c, take n s = [c] /\ existsb (fun x => isChar x c) cs = true.
Proof.
  destruct s as [|c s].
  - unfold exec. rewrite rmatch_alts.
    replace (flat_map (fun r => rmatch r (MState None [])) (map ROne cs))
      with (@nil mstate); [discriminate|].
    symmetry. apply flat_map_nil_all. intros r Hr.
    apply in_map_iff in Hr. destruct Hr as (x & <- & _). reflexivity.
  - rewrite exec_one_of. destruct (existsb _ cs) eqn:E; [|discriminate].
    intros [= <-]. exists c. auto.
Qed.

Lemma memText_one (cs : list ascii) (ws : list string) c :
  existsb (fun x => isChar x c) cs = true ->
  ws = map (fun x => String x EmptyString) cs ->
  memText ws [c] = true.
Proof.
  intros H ->. unfold memText. apply existsb_exists in H.
  destruct H as (x & Hx & Hc). apply Ascii.eqb_eq in Hc. subst x.
  apply existsb_exists. exists (String c EmptyString).
  split; [apply (in_map (fun x => String x EmptyString)), Hx|apply String.eqb_refl].
Qed.

Lemma startsWith_take k : forall x, startsWith k x = true -> take (length k) x = k.
Proof.
  intros x H. apply startsWith_elim in H. rewrite H at 1. apply take_app_length.
Qed.

Lemma lits_shape ws s n :
  exec (RAlts (map lit ws)) s = Some n -> memText ws (take n s) = true.
Proof.
  rewrite alts_lits_exec. destruct (List.find _ ws) as [w|] eqn:E; [|discriminate].
  intros [= <-]. apply find_some in E. destruct E as [Hin Hst].
  rewrite (startsWith_take _ _ Hst). apply memText_chars, Hin.
Qed.

Lemma keywords_shape s n :
  exec keywordsRe s = Some n ->
  memText keywordList (take n s) = true /\ stops isWord (drop n s) = true.
Proof.
  intros He. apply exec_reads in He. destruct He as (st' & Hin & Hn).
  unfold keywordsRe in Hin. cbn [RSeqs] in Hin.
  apply reads_seq in Hin. destruct Hin as (st1 & H1 & Hin).
  apply reads_seq in Hin. destruct Hin as (st2 & H2 & H3).
  apply reads_boundary in H1. destruct H1 as [-> _].
  apply reads_boundary in H3. destruct H3 as [-> Hb].
  apply rmatch_alts_in in H2. destruct H2 as (r & Hr & H2).
  apply in_map_iff in Hr. destruct Hr as (k & <- & Hk).
  apply reads_lit in H2.
  destruct (reads_take _ _ _ _ H2 Hn) as (_ & Ht & Hd). rewrite Ht, Hd.
  split; [apply memText_chars, Hk|].
  destruct H2 as [_ Hp]. cbn [prev] in Hp.
  unfold atBoundary, wordBefore, wordAfter in Hb. rewrite Hp in Hb.
  unfold stops. destruct (rest st2) as [|d ?]; [reflexivity|].
  destruct (isWord d); [exfalso|reflexivity].
  unfold keywordList in Hk. cbn [In] in Hk.
  repeat (destruct Hk as [<-|Hk]; [discriminate Hb|]).
  destruct Hk.
Qed.

Lemma label_shape s n : exec reactRe s = Some n -> labelText (take n s).
Proof.
  intros He. apply exec_reads in He. destruct He as (st' & Hin & Hn).
  unfold reactRe in Hin. cbn [RSeqs] in Hin. unfold ROne in Hin.
  apply reads_seq in Hin. destruct Hin as (st1 & H1 & Hin).
  apply reads_seq in Hin. destruct Hin as (st2 & H2 & H3).
  apply reads_boundary in H1. destruct H1 as [-> _].
  apply reads_plus in H2. destruct H2 as (m & Hm & R2).
  apply reads_char in H3. destruct H3 as (c3 & Hc3 & R3).
  pose proof (reads_app _ _ _ _ _ R2 R3) as R.
  destruct (reads_take _ _ _ _ R Hn) as (_ & Ht & _). rewrite Ht.
  apply Ascii.eqb_eq in Hc3. subst c3. exists m. split; [reflexivity|exact Hm].
Qed.

Lemma name_shape s n : exec identRe s = Some n -> nameText (take n s).
Proof.
  intros He. apply exec_reads in He. destruct He as (st' & Hin & Hn).
  unfold identRe in Hin. cbn [RSeqs] in Hin. unfold ROpt, ROne in Hin.
  apply reads_seq in Hin. destruct Hin as (st1 & H1 & Hin).
  apply reads_seq in Hin. destruct Hin as (st2 & H2 & H3).
  apply reads_char in H2. destruct H2 as (l & Hl & R2).
  apply reads_star in H3. destruct H3 as (m & Hm & R3).
  pose proof (reads_app _ _ _ _ _ R2 R3) as R.
  cbn [rmatch] in H1. apply in_app_iff in H1. destruct H1 as [H1|H1].
  - apply reads_char in H1. destruct H1 as (c & Hc & R1).
    pose proof (reads_app _ _ _ _ _ R1 R) as R'.
    destruct (reads_take _ _ _ _ R' Hn) as (_ & Ht & _). rewrite Ht.
    apply Ascii.eqb_eq in Hc. subst c. exists l, m. split; [right; reflexivity|auto].
  - destruct H1 as [<-|[]].
    destruct (reads_take _ _ _ _ R Hn) as (_ & Ht & _). rewrite Ht.
    exists l, m. split; [left; reflexivity|auto].
Qed.

Lemma letter_not_at l : isLetter l = true -> isChar "@" l = false.
Proof.
  intros H. apply negb_true_iff. revert l H.
  refine (ascii_implies _ _ _). vm_compute. reflexivity.
Qed.

Lemma name_first k l m r :
  k = [] \/ k = ["@"%char] -> isLetter l = true ->
  forallb isWordDollar m = true -> stops isWordDollar r = true ->
  exists pv, firstMatch identRe (MState None (k ++ l :: m ++ r)) (MState pv r).
Proof.
  intros Hk Hl Hm Hr. unfold identRe. cbn [RSeqs]. unfold ROpt, ROne.
  destruct Hk as [->| ->]; cbn [app].
  - eexists. eapply first_seq.
    + apply first_alt_r; [|apply first_empty].
      cbn [rmatch rest]. rewrite (letter_not_at l Hl). reflexivity.
    + eapply first_seq; [apply first_char, Hl|apply first_star; assumption].
  - eexists. eapply first_seq.
    + apply first_alt_l. apply first_char. reflexivity.
    + eapply first_seq; [apply first_char, Hl|apply first_star; assumption].
Qed.

(** The pattern of names takes every word character and dollar sign
    that follows the first letter. *)
Lemma name_ends s n : exec identRe s = Some n -> stops isWordDollar (drop n s) = true.
Proof.
  intros He. pose proof (name_shape s n He) as (l & tl & Hw & Hl & Htl).
  pose proof (take_drop n s) as Hs.
  destruct (span_class isWordDollar (tl ++ drop n s)) as (m & r & Hmr & Hm & Hr).
  assert (Hk : exists k, (k = [] \/ k = ["@"%char]) /\ take n s = k ++ l :: tl).
  { destruct Hw as [Hw|Hw]; [exists []|exists ["@"%char]]; split; auto. }
  destruct Hk as (k & Hk & Htk).
  assert (Hs' : s = (k ++ l :: m) ++ r).
  { rewrite <- Hs, Htk, <- !app_assoc. cbn [app]. rewrite Hmr. reflexivity. }
  destruct (name_first k l m r Hk Hl Hm Hr) as (pv & Hfm).
  apply exec_first in Hfm. cbn [rest] in Hfm.
  rewrite <- app_assoc in Hs'. cbn [app] in Hs'. rewrite <- Hs', He in Hfm.
  injection Hfm as ->. rewrite Hs' at 2.
  replace (k ++ l :: m ++ r) with ((k ++ l :: m) ++ r)
    by (rewrite <- app_assoc; reflexivity).
  rewrite Hs'. replace (k ++ l :: m ++ r) with ((k ++ l :: m) ++ r)
    by (rewrite <- app_assoc; reflexivity).
  rewrite length_app, Nat.add_sub, drop_app_length. exact Hr.
Qed.

Lemma number_rejects c :
  isWord c && negb (isDigit c) = true -> rejects numberRe c = true.
Proof. revert c. refine (ascii_implies _ _ _). vm_compute. reflexivity. Qed.

Lemma number_shape s n : 0 < n -> exec numberRe s = Some n -> digitLed (take n s).
Proof.
  intros Hpos He. destruct s as [|c s].
  - apply exec_le in He. cbn [length] in He. lia.
  - destruct (isWord c) eqn:Hw.
    + destruct (isDigit c) eqn:Hd.
      * destruct n as [|n]; [lia|]. exists c, (take n s). auto.
      * rewrite exec_rejects in He; [discriminate|].
        apply number_rejects. rewrite Hw, Hd. reflexivity.
    + unfold numberRe in He. cbn [RSeqs] in He.
      rewrite boundary_led in He by exact Hw. discriminate.
Qed.

Lemma resolve_cases w :
  (resolve identCases w = "other"%string /\ memText kindList w = false) \/
  (In (resolve identCases w) kindList /\ w = chars (resolve identCases w)).
Proof.
  unfold resolve, identCases.
  destruct (List.find _ _) as [kv|] eqn:E.
  - right. apply find_some in E. destruct E as [Hin Heq].
    apply in_map_iff in Hin. destruct Hin as (k & <- & Hk). cbn [fst snd] in *.
    apply String.eqb_eq in Heq. split; [exact Hk|]. subst k.
    symmetry. apply String.list_ascii_of_string_of_list_ascii.
  - left. split; [reflexivity|]. unfold memText.
    destruct (existsb _ kindList) eqn:Ex; [|reflexivity]. exfalso.
    apply existsb_exists in Ex. destruct Ex as (k & Hk & Heq).
    pose proof (find_none _ _ E (k, k) (in_map (fun k => (k, k)) _ _ Hk)) as Hn.
    cbn [fst] in Hn. congruence.
Qed.

(** The rule a token of the loop comes from, with what the rule tells
    about the text. *)
Lemma rule_shape line t a n :
  let here := drop (offset t - 0) line in
  findRule (root antimonyLanguage) here = Some (a, n) -> 0 < n <= length here ->
  type t = resolve a (take n here) -> text t = take n here ->
  ruleShape line t.
Proof.
  intros here Hf [Hpos Hle] Hty Htx.
  assert (Hafter : after line t = drop n here).
  { unfold after, here. rewrite Htx, length_take, Nat.min_l by exact Hle.
    rewrite drop_drop. f_equal. lia. }
  apply findRule_in in Hf. destruct Hf as (r & Hin & He).
  unfold ruleShape. rewrite Hafter, Htx. cbn zeta.
  unfold antimonyLanguage in Hin. cbn [root] in Hin.
  repeat (destruct Hin as [Hin|Hin]; [injection Hin as <- <-|]).
  - rewrite Hty.
    change (commentText (take n here) /\ stops isDot (drop n here) = true).
    apply comment_shape, He.
  - rewrite Hty. change (stringText (take n here)). apply string_shape, He.
  - rewrite Hty. change (memText parenList (take n here) = true).
    destruct (one_of_shape ["("; ")"]%char here n He) as (c & -> & Hc).
    eapply memText_one; [exact Hc|reflexivity].
  - rewrite Hty. change (memText transformList (take n here) = true).
    apply (lits_shape transformList), He.
  - rewrite Hty. change (memText assignList (take n here) = true).
    apply (lits_shape assignList), He.
  - rewrite Hty. change (memText operatorList (take n here) = true).
    destruct (one_of_shape ["-"; "+"; "*"; "/"; "^"; ";"]%char here n He) as (c & -> & Hc).
    eapply memText_one; [exact Hc|reflexivity].
  - rewrite Hty.
    change (memText keywordList (take n here) = true /\
            stops isWord (drop n here) = true).
    apply keywords_shape, He.
  - rewrite Hty. change (memText annotationList (take n here) = true).
    apply (lits_shape annotationList), He.
  - rewrite Hty. change (labelText (take n here)). apply label_shape, He.
  - rewrite Hty. destruct (resolve_cases (take n here)) as [[Ho Hk]|[Hk Hw]].
    + rewrite Ho.
      change (nameText (take n here) /\ memText kindList (take n here) = false).
      split; [apply name_shape, He|exact Hk].
    + pose proof (name_ends _ _ He) as Hend.
      remember (resolve identCases (take n here)) as k eqn:Ek. clear Ek Hty.
      unfold kindList in Hk. cbn [In] in Hk.
      repeat (destruct Hk as [<-|Hk]; [exact (conj Hw Hend)|]). destruct Hk.
  - rewrite Hty. change (digitLed (take n here)). apply number_shape; assumption.
  - destruct Hin.
Qed.

Lemma rule_shapes line ts :
  lexes antimonyLanguage 0 line ts -> Forall (ruleShape line) ts.
Proof.
  intros Hlex. apply lexes_produced in Hlex. eapply Forall_impl; [exact Hlex|].
  intros t [(a & n & Hf & Hn & Hty & Htx)|(Hf & c & s' & Hc & Hty & Htx)].
  - eapply rule_shape; eauto.
  - unfold ruleShape. rewrite Hty, Htx. rewrite Nat.sub_0_r in Hf.
    exact (conj eq_refl Hf).
Qed.

Lemma rule_class line t : ruleShape line t -> In (type t) tokenClasses.
Proof.
  intros H. unfold ruleShape in H. cbn zeta in H.
  unfold kindList in H. cbn [existsb] in H.
  unfold tokenClasses, kindList. cbn [app In].
  repeat match type of H with
         | context [String.eqb (type t) ?k] =>
             let E := fresh "E" in
             destruct (String.eqb_spec (type t) k) as [E|E];
               [rewrite E; repeat (first [left; reflexivity|right])|clear E]
         end.
  destruct H.
Qed.

(** The text after a token starts with the text of the token that
    follows it. *)
Lemma next_starts line t1 t2 :
  placed 0 line t2 -> offset t2 = tokenEnd t1 ->
  exists c w r, text t2 = c :: w /\ after line t1 = c :: r.
Proof.
  intros (_ & Hne & Htk) Ho. unfold after. unfold tokenEnd in Ho.
  rewrite Nat.sub_0_r, Ho in Htk.
  destruct (text t2) as [|c w]; [destruct (Hne eq_refl)|].
  destruct (drop (offset t1 + length (text t1)) line) as [|d r]; [discriminate Htk|].
  cbn [length take] in Htk. injection Htk as -> _. exists c, w, r. auto.
Qed.

Lemma keyword_starts c w : memText keywordList (c :: w) = true -> isWord c = true.
Proof.
  unfold memText, keywordList. cbn [existsb String.string_of_list_ascii].
  intros H.
  repeat (apply orb_true_iff in H; destruct H as [H|H];
          [apply String.eqb_eq in H; injection H as <- _; reflexivity|]).
  discriminate H.
Qed.

(** No two neighbours among the tokens of the loop are comments,
    keywords or words of one declared kind. *)
Lemma alone_apart line ts : forall pos,
  chained pos ts -> Forall (placed 0 line) ts -> Forall (ruleShape line) ts ->
  apart standsAlone ts.
Proof.
  induction ts as [|t1 ts IH]; intros pos Hch Hpl Hsh; [exact I|].
  destruct Hch as [Ho Hch]. cbn [apart].
  destruct ts as [|t2 ts]; [exact I|].
  split; [|apply (IH _ Hch (Forall_inv_tail Hpl) (Forall_inv_tail Hsh))].
  intros Hty. destruct (standsAlone (type t1)) eqn:Ha; [exfalso|reflexivity].
  destruct Hch as [Ho2 _].
  destruct (next_starts line t1 t2 (Forall_inv (Forall_inv_tail Hpl)) Ho2)
    as (c & w & r & Hw & Hr).
  pose proof (Forall_inv Hsh) as H1.
  pose proof (Forall_inv (Forall_inv_tail Hsh)) as H2.
  unfold ruleShape in H1, H2. cbn zeta in H1, H2. rewrite <- Hty in H2.
  rewrite Hr in H1. rewrite Hw in H2. unfold stops in H1.
  unfold standsAlone, kindList in Ha. cbn [existsb] in Ha.
  repeat (apply orb_true_iff in Ha; destruct Ha as [Ha|Ha]);
    try discriminate Ha;
    apply String.eqb_eq in Ha; rewrite Ha in H1, H2.
  - destruct H1 as [_ H1]. destruct H2 as [(body & Hb & _) _].
    injection Hb as -> _. discriminate H1.
  - destruct H1 as [_ H1]. destruct H2 as [H2 _].
    apply keyword_starts in H2. rewrite H2 in H1. discriminate H1.
  - destruct H1 as [_ H1]. destruct H2 as [H2 _]. injection H2 as -> _. discriminate H1.
  - destruct H1 as [_ H1]. destruct H2 as [H2 _]. injection H2 as -> _. discriminate H1.
  - destruct H1 as [_ H1]. destruct H2 as [H2 _]. injection H2 as -> _. discriminate H1.
  - destruct H1 as [_ H1]. destruct H2 as [H2 _]. injection H2 as -> _. discriminate H1.
  - destruct H1 as [_ H1]. destruct H2 as [H2 _]. injection H2 as -> _. discriminate H1.
  - destruct H1 as [_ H1]. destruct H2 as [H2 _]. injection H2 as -> _. discriminate H1.
  - destruct H1 as [_ H1]. destruct H2 as [H2 _]. injection H2 as -> _. discriminate H1.
  - destruct H1 as [_ H1]. destruct H2 as [H2 _]. injection H2 as -> _. discriminate H1.
Qed.

Lemma digitLed_app w v : digitLed w -> digitLed (w ++ v).
Proof. intros (d & tl & -> & Hd). exists d, (tl ++ v). auto. Qed.

Ltac piece_class HP Hin :=
  rewrite <- Hin; apply HP;
  let t := fresh "t" in
  let Ht := fresh "Ht" in
  let Hty := fresh "Hty" in
  intros t Ht Hty; unfold ruleShape in Ht; cbn zeta in Ht;
  rewrite Hty, <- Hin in Ht; exact Ht.

Ltac alone_class Halone Hin :=
  let H := fresh "H" in
  assert (H := Halone); rewrite <- Hin in H; specialize (H eq_refl);
  unfold ruleShape in H; cbn zeta in H; rewrite <- Hin in H |- *;
  first [exact H|exact (proj1 H)].

(** What a token of the stream is, from the tokens of the loop it is
    made of. *)
Lemma stream_shape line ts m :
  lexes antimonyLanguage 0 line ts -> In m (mergeTokens ts) -> tokenShape line m.
Proof.
  intros Hlex Hm.
  pose proof (lexes_chained _ _ _ _ Hlex) as Hch.
  pose proof (rule_shapes line ts Hlex) as Hrs.
  pose proof (lexes_placed _ _ _ _ Hlex) as Hpl.
  pose proof (alone_apart line ts 0 Hch Hpl Hrs) as Hap.
  destruct (proj1 (List.Forall_forall _ _) (merge_fuses ts 0 Hch) m Hm)
    as (run & Hf & Hsub).
  assert (Hrun : Forall (fun t => ruleShape line t /\ type t = type m) run).
  { destruct run as [|r run]; [destruct Hf|]. destruct Hf as (_ & _ & Hty & _).
    apply List.Forall_forall. intros t Ht. split.
    - apply (proj1 (List.Forall_forall _ _) Hrs), Hsub, Ht.
    - apply (proj1 (List.Forall_forall _ _) Hty), Ht. }
  assert (HP : forall P : list ascii -> Prop,
             (forall t, ruleShape line t -> type t = type m -> P (text t)) ->
             pieces P (text m)).
  { intros P HPt. apply (fuses_pieces P run m Hf).
    eapply Forall_impl; [exact Hrun|]. intros t [? ?]; auto. }
  assert (Halone : standsAlone (type m) = true -> ruleShape line m).
  { intros Ha. apply (proj1 (List.Forall_forall _ _) Hrs).
    apply (merge_apart standsAlone ts Hap m Hm Ha). }
  destruct run as [|r run]; [destruct Hf|].
  pose proof (Forall_inv Hrun) as [Hr Htr].
  destruct Hf as (Hfo & Hft & _ & Hfc).
  pose proof (rule_class line r Hr) as Hin. rewrite Htr in Hin.
  unfold tokenClasses, kindList in Hin. cbn [app In] in Hin.
  unfold tokenShape. cbn zeta.
  destruct Hin as [Hin|Hin]; [alone_class Halone Hin|].
  do 5 (destruct Hin as [Hin|Hin]; [piece_class HP Hin|]).
  destruct Hin as [Hin|Hin]; [alone_class Halone Hin|].
  do 3 (destruct Hin as [Hin|Hin]; [piece_class HP Hin|]).
  destruct Hin as [Hin|Hin].
  { unfold ruleShape in Hr. cbn zeta in Hr. rewrite Htr, <- Hin in Hr.
    rewrite <- Hin. change (digitLed (text m)). rewrite Hft. cbn [map concat].
    apply digitLed_app. exact Hr. }
  destruct Hin as [Hin|Hin].
  { rewrite <- Hin.
    change (forall j, j < length (text m) ->
              findRule (root antimonyLanguage) (drop (offset m + j) line) = None).
    intros j Hj. rewrite Hfo.
    apply (chained_offsets
             (fun i => findRule (root antimonyLanguage) (drop i line) = None)
             (r :: run) (offset r) Hfc); [|rewrite <- Hft; exact Hj].
    eapply Forall_impl; [exact Hrun|]. intros t [Ht Hty].
    unfold ruleShape in Ht. cbn zeta in Ht. rewrite Hty, <- Hin in Ht. exact Ht. }
  do 8 (destruct Hin as [Hin|Hin]; [alone_class Halone Hin|]).
  destruct Hin.
Qed.

(** The stream of every line, with what its tokens are. *)
Lemma token_shapes line :
  exists ts, tokenize line = Tokens ts /\ Forall (tokenShape line) ts.
Proof.
  unfold tokenize.
  destruct (Nat.lt_ge_cases (length line) maxTokenizationLineLength) as [Hlen|Hlen].
  - destruct (tokenizeLine_stream antimonyLanguage line productive_antimony Hlen)
      as (ts & _ & Hlex & ->).
    exists (mergeTokens ts). split; [reflexivity|].
    apply List.Forall_forall. intros m Hm. exact (stream_shape line ts m Hlex Hm).
  - rewrite tokenizeLine_long by exact Hlen. eexists. split; [reflexivity|].
    constructor; [|constructor]. exact (conj Hlen eq_refl).
Qed.


Lemma mark_tokens_witness :
  firstToken "transform" (chars "->") (chars "-> S2") /\
  firstToken "operator" (chars "-") (chars "- 1").
Proof.
  destruct (mark_tokens (chars " S2")) as [Hm _].
  destruct (mark_tokens (chars " 1")) as [_ Hs].
  split; apply tokenAt_first.
  - apply (proj1 (Forall_forall _ _) Hm ("->", "transform")%string).
    unfold marks. apply list_elem_of_further, list_elem_of_here.
  - apply (proj1 (Forall_forall _ _) Hs ("-", "operator", ">"%char)%string);
      [|reflexivity].
    unfold shortMarks. apply list_elem_of_further, list_elem_of_here.
Defined.

(** X6. In the token stream of every line, a [keywords] token is one of
    [at], [in], [import], [has] and a token of a declared-kind class is
    that very word: no two of them are ever joined. An [annotation]
    token is one or more words of the annotation pattern in a row (the
    pattern has no word boundaries), and an [other] token is one or more
    names in a row, each a letter, with or without [@] before it,
    followed by word characters and dollar signs, and no declared-kind
    word. *)
Theorem word_class_tokens line :
  exists ts, tokenize line = Tokens ts /\
    Forall (fun t =>
      (type t = "keywords"%string -> memText keywordList (text t) = true) /\
      (type t = "annotation"%string ->
       pieces (fun p => memText annotationList p = true) (text t)) /\
      (In (type t) kindList -> text t = chars (type t)) /\
      (type t = "other"%string ->
       pieces (fun p => nameText p /\ memText kindList p = false) (text t))) ts.
Proof.
  destruct (token_shapes line) as (ts & Hts & Hsh). exists ts.
  split; [exact Hts|]. eapply Forall_impl; [exact Hsh|].
  intros t H. unfold tokenShape in H. cbn zeta in H.
  split; [|split; [|split]]; intros Hty.
  - rewrite Hty in H. exact H.
  - rewrite Hty in H. exact H.
  - unfold kindList in Hty. cbn [In] in Hty.
    repeat (destruct Hty as [Hty|Hty]; [rewrite <- Hty in *; exact H|]).
    destruct Hty.
  - rewrite Hty in H. exact H.
Qed.

(** X7. In the token stream of every line, a [comment] token is two
    slashes and the rest of the line (nothing but a line end follows
    it). A [string] token is one or more quoted texts in a row, each a
    pair of double quotes around a text without double quotes; a
    [react-remov] token is one or more labels in a row, each letters,
    digits and underscores with a colon at the end; and a token of the
    classes [transform], [assign], [operator] and
    [connected-parentheses] is one or more marks of its rule in a
    row. *)
Theorem mark_class_tokens line :
  exists ts, tokenize line = Tokens ts /\
    Forall (fun t =>
      (type t = "comment"%string ->
       commentText (text t) /\ stops isDot (after line t) = true) /\
      (type t = "string"%string -> pieces stringText (text t)) /\
      (type t = "react-remov"%string -> pieces labelText (text t)) /\
      (type t = "transform"%string ->
       pieces (fun p => memText transformList p = true) (text t)) /\
      (type t = "assign"%string ->
       pieces (fun p => memText assignList p = true) (text t)) /\
      (type t = "operator"%string ->
       pieces (fun p => memText operatorList p = true) (text t)) /\
      (type t = "connected-parentheses"%string ->
       pieces (fun p => memText parenList p = true) (text t))) ts.
Proof.
  destruct (token_shapes line) as (ts & Hts & Hsh). exists ts.
  split; [exact Hts|]. eapply Forall_impl; [exact Hsh|].
  intros t H. unfold tokenShape in H. cbn zeta in H.
  split; [|split; [|split; [|split; [|split; [|split]]]]];
    intros Hty; rewrite Hty in H; exact H.
Qed.

(** Tokens of one class that stand side by side are one token of the
    stream. *)
Lemma joined_tokens :
  tokenize (chars "))") = single "connected-parentheses" (chars "))") /\
  tokenize (chars "a:b:") = single "react-remov" (chars "a:b:") /\
  tokenize (chars "a@b") = single "other" (chars "a@b") /\
  tokenize (chars "isinstance") = single "annotation" (chars "isinstance") /\
  ruleTokens antimonyLanguage (chars "isinstance")
  = Tokens [Tok 0 "annotation" (chars "is"); Tok 2 "annotation" (chars "instance")].
Proof. repeat split; vm_compute; reflexivity. Qed.

(** X8. A [number] token always starts with a digit: although the
    number pattern has alternatives that start with a sign or a dot, a
    sign before digits is a token of its own (an operator) and so is a
    dot. *)
Theorem number_tokens_digit_led line :
  exists ts, tokenize line = Tokens ts /\
    Forall (fun t => type t = "number"%string -> digitLed (text t)) ts.
Proof.
  destruct (token_shapes line) as (ts & Hts & Hsh). exists ts.
  split; [exact Hts|]. eapply Forall_impl; [exact Hsh|].
  intros t H Hty. unfold tokenShape in H. cbn zeta in H.
  rewrite Hty in H. exact H.
Qed.

(** X9. The token stream of a line shorter than 20000 characters has
    only classes of the language definition and the default class
    [source]; a line of 20000 characters or more is one token of the
    empty class. No token has the class [white] of the [whitespace]
    state, which is never entered, and a [source] token is made of
    characters at which no rule matches. *)
Theorem token_classes_closed line :
  exists ts, tokenize line = Tokens ts /\
    (length line < maxTokenizationLineLength ->
     Forall (fun t => In (type t) tokenClasses) ts) /\
    (maxTokenizationLineLength <= length line -> ts = [Tok 0 EmptyString line]) /\
    Forall (fun t =>
      type t <> "white"%string /\
      (type t = "source"%string ->
       forall j, j < length (text t) ->
         findRule (root antimonyLanguage) (drop (offset t + j) line) = None)) ts.
Proof.
  destruct (token_shapes line) as (ts & Hts & Hsh). exists ts.
  split; [exact Hts|].
  assert (Hcl : Forall (fun t => In (type t) (EmptyString :: tokenClasses) /\
                                 (type t = EmptyString ->
                                  maxTokenizationLineLength <= length line)) ts).
  { eapply Forall_impl; [exact Hsh|]. intros t H.
    unfold tokenShape in H. cbn zeta in H.
    unfold kindList in H. cbn [existsb] in H.
    unfold tokenClasses, kindList. cbn [app In].
    repeat match type of H with
           | context [String.eqb (type t) ?k] =>
               let E := fresh "E" in
               destruct (String.eqb_spec (type t) k) as [E|E];
                 [rewrite E; split;
                  [repeat (first [left; reflexivity|right])|
                   first [discriminate|intros _; exact (proj1 H)]]|clear E]
           end.
    destruct H. }
  split; [|split].
  - intros Hlen. eapply Forall_impl; [exact Hcl|]. intros t [[He|Hin] Hn]; [|exact Hin].
    symmetry in He. specialize (Hn He). lia.
  - intros Hlen. unfold tokenize in Hts. rewrite tokenizeLine_long in Hts by exact Hlen.
    injection Hts as <-. reflexivity.
  - apply Forall_and. split.
    + eapply Forall_impl; [exact Hcl|]. intros t [Hin _] Hw. rewrite Hw in Hin.
      unfold tokenClasses, kindList in Hin. cbn [app In] in Hin.
      repeat (destruct Hin as [Hin|Hin]; [discriminate Hin|]). destruct Hin.
    + eapply Forall_impl; [exact Hsh|]. intros t H Hty.
      unfold tokenShape in H. cbn zeta in H. rewrite Hty in H. exact H.
Qed.

End AntimonyFacts.

(* ===================================================================== *)
(** ** Navigation to the latest annotation *)
(* ===================================================================== *)

Module PositionIndexFacts.

Import Model PositionIndex.

Lemma last_filter_split {A} (p : A -> bool) (l : list A) (x : A) :
  last (List.filter p l) = Some x ->
  exists pre post, l = pre ++ x :: post /\ p x = true /\ Forall (fun y => p y = false) post.
Proof.
  induction l as [|y l IH]; simpl; [discriminate|].
  destruct (p y) eqn:Hy.
  - destruct (List.filter p l) as [|z fl] eqn:E.
    + simpl. intros [= ->]. exists [], l. split; [reflexivity|]. split; [exact Hy|].
      apply Forall_forall. intros z Hz. apply list_elem_of_In in Hz.
      destruct (p z) eqn:Hpz; [|reflexivity]. exfalso.
      assert (Hin : In z (List.filter p l)) by (apply filter_In; auto).
      rewrite E in Hin. destruct Hin.
    + intros Hl. rewrite last_cons_cons in Hl.
      destruct (IH Hl) as (pre & post & -> & Hx & Hpost).
      exists (y :: pre), post. auto.
  - intros Hl. destruct (IH Hl) as (pre & post & -> & Hx & Hpost).
    exists (y :: pre), post. auto.
Qed.

Lemma last_is_Some {A} (l : list A) : l <> [] -> exists x, last l = Some x.
Proof.
  intros Hne. destruct (last l) as [x|] eqn:E; [eauto|].
  apply last_None in E. congruence.
Qed.

(** C1. When a name has a matching annotation statement,
    [latestAnnotationFor] returns a matching statement after which no
    statement of the document matches, and navigation goes to its line;
    in a document kept in source order its position is at or after that
    of every matching statement. *)
Theorem latestAnnotationFor_last annotations name a :
  In a (annotationsFor annotations name) ->
  exists l pre post,
    latestAnnotationFor annotations name = Some l /\
    subjectName l = name /\
    annotations = pre ++ l :: post /\
    Forall (fun b => subjectName b <> name) post /\
    (forall maxColumn,
       navigateToAnnotation annotations name maxColumn
       = Some (line (start (annotationRange l)),
               {| startLineNumber := line (start (annotationRange l)); startColumn := 1;
                  endLineNumber := line (start (annotationRange l));
                  endColumn := maxColumn |})) /\
    (documentOrder annotations ->
     forall b, In b (annotationsFor annotations name) ->
       positionLe (start (annotationRange b)) (start (annotationRange l))).
Proof.
  intros Ha. unfold navigateToAnnotation, latestAnnotationFor.
  destruct (last_is_Some (annotationsFor annotations name)) as (l & Hl).
  { intros E. rewrite E in Ha. destruct Ha. }
  pose proof Hl as Hsplit. unfold annotationsFor in Hsplit.
  apply last_filter_split in Hsplit. destruct Hsplit as (pre & post & Heq & Hx & Hpost).
  exists l, pre, post. split; [exact Hl|]. split; [apply String.eqb_eq, Hx|].
  split; [exact Heq|]. split; [|split].
  - eapply Forall_impl; [exact Hpost|]. intros b Hb. simpl in Hb.
    apply String.eqb_neq, Hb.
  - intros maxColumn. rewrite Hl. reflexivity.
  - intros Hord b Hb. unfold annotationsFor in Hb. apply filter_In in Hb.
    destruct Hb as [Hb Hbn]. rewrite Heq in Hb, Hord.
    apply in_app_iff in Hb. destruct Hb as [Hb|[<-|Hb]].
    + apply StronglySorted_app_1_elem_of with (x1 := b) (x2 := l) in Hord; auto.
      * apply list_elem_of_In, Hb.
      * apply list_elem_of_In. left. reflexivity.
    + unfold positionLe, positionCompare. rewrite !Nat.compare_refl. discriminate.
    + exfalso. rewrite Forall_forall in Hpost.
      specialize (Hpost b (proj2 (list_elem_of_In _ _) Hb)). simpl in Hpost. congruence.
Qed.

(** The subject annotated at lines 19 and 66: navigation selects line 66. *)
Lemma latestAnnotationFor_last_witness :
  navigateToAnnotation sampleAnnotations "ProteinD" 80
  = Some (66, {| startLineNumber := 66; startColumn := 1;
                 endLineNumber := 66; endColumn := 80 |}).
Proof.
  destruct (latestAnnotationFor_last sampleAnnotations "ProteinD"
              (annotationAt "ProteinD" 19))
    as (l & pre & post & Hl & _ & _ & _ & Hnav & _).
  - vm_compute. left. reflexivity.
  - rewrite Hnav. vm_compute in Hl. injection Hl as <-. reflexivity.
Defined.

End PositionIndexFacts.

(* ===================================================================== *)
(** ** Merged diagnostics *)
(* ===================================================================== *)

Module DiagnosticsFacts.

Import Model Diagnostics.

Global Instance diagLe_total : Total diagLe.
Proof.
  intros d e. unfold diagLe, diagBefore.
  destruct (decide (lexico (sortKey e) (sortKey d))) as [Hlt|Hn]; [right|left; exact Hn].
  intros Hlt'. exact (strict_anti_symm _ _ Hlt Hlt').
Qed.

Global Instance diagLe_trans : Transitive diagLe.
Proof.
  intros d e f Hde Hef Hfd. unfold diagLe, diagBefore in *.
  destruct (trichotomy lexico (sortKey e) (sortKey d)) as [Hlt|[Heq|Hgt]].
  - exact (Hde Hlt).
  - apply Hef. rewrite Heq. exact Hfd.
  - apply Hef. etrans; eauto.
Qed.

Lemma dedupe_incl l d : In d (dedupe l) -> In d l.
Proof.
  revert d. induction l as [|x l IH]; intros d; simpl; [tauto|].
  intros [->|Hin]; [left; reflexivity|].
  apply filter_In in Hin. right. apply IH. tauto.
Qed.

Lemma sameDiagnostic_eq d e : sameDiagnostic d e = true <-> diagIdentity d = diagIdentity e.
Proof. unfold sameDiagnostic. apply bool_decide_eq_true. Qed.

Lemma dedupe_covers l d :
  In d l -> exists d', In d' (dedupe l) /\ sameDiagnostic d' d = true.
Proof.
  induction l as [|x l IH]; intros Hin; [destruct Hin|].
  destruct (sameDiagnostic x d) eqn:Hx.
  - exists x. split; [left; reflexivity|exact Hx].
  - destruct Hin as [->|Hin].
    + exfalso. assert (sameDiagnostic d d = true) by (apply sameDiagnostic_eq; reflexivity).
      congruence.
    + destruct (IH Hin) as (d' & Hd' & Hsame). exists d'. split; [|exact Hsame].
      simpl. right. apply filter_In. split; [exact Hd'|].
      apply negb_true_iff. destruct (sameDiagnostic x d') eqn:Hxd; [|reflexivity].
      apply sameDiagnostic_eq in Hxd, Hsame.
      assert (sameDiagnostic x d = true) by (apply sameDiagnostic_eq; congruence).
      congruence.
Qed.

Lemma dedupe_NoDup l : NoDup (map diagIdentity (dedupe l)).
Proof.
  induction l as [|x l IH]; simpl; [constructor|].
  apply NoDup_cons. split.
  - intros Hin. apply list_elem_of_In, in_map_iff in Hin.
    destruct Hin as (y & Hy & Hin). apply filter_In in Hin. destruct Hin as [_ Hneg].
    apply negb_true_iff in Hneg.
    assert (sameDiagnostic x y = true) by (apply sameDiagnostic_eq; congruence).
    congruence.
  - clear -IH. induction (dedupe l) as [|y k IHk]; simpl; [constructor|].
    simpl in IH. apply NoDup_cons in IH. destruct IH as [Hy Hk].
    destruct (negb (sameDiagnostic x y)); [|auto].
    simpl. apply NoDup_cons. split; [|auto].
    intros Hin. apply Hy. apply list_elem_of_In, in_map_iff in Hin.
    destruct Hin as (z & Hz & Hin). apply filter_In in Hin.
    apply list_elem_of_In, in_map_iff. exists z. tauto.
Qed.

(** C6. [merge] returns the concatenation of its arguments without exact
    duplicates (one diagnostic for each range, code and message that
    occurs), sorted by range start, then severity descending, then code. *)
Theorem merge_sorted_dedup (syntaxDiagnostics semanticDiagnostics : list Diagnostic) :
  let merged := merge syntaxDiagnostics semanticDiagnostics in
  StronglySorted diagLe merged /\
  NoDup (map diagIdentity merged) /\
  (forall d, In d merged -> In d (syntaxDiagnostics ++ semanticDiagnostics)) /\
  (forall d, In d (syntaxDiagnostics ++ semanticDiagnostics) ->
     exists d', In d' merged /\ diagIdentity d' = diagIdentity d) /\
  merged ≡ₚ dedupe (syntaxDiagnostics ++ semanticDiagnostics).
Proof.
  intros merged. subst merged. unfold merge.
  set (l := syntaxDiagnostics ++ semanticDiagnostics).
  pose proof (merge_sort_Permutation diagLe (dedupe l)) as Hperm.
  split; [apply StronglySorted_merge_sort; apply _|].
  split; [rewrite Hperm; apply dedupe_NoDup|].
  split; [|split; [|exact Hperm]].
  - intros d Hin. apply dedupe_incl. apply list_elem_of_In.
    rewrite <- Hperm. apply list_elem_of_In, Hin.
  - intros d Hin. destruct (dedupe_covers l d Hin) as (d' & Hd' & Hsame).
    exists d'. split; [|apply sameDiagnostic_eq, Hsame].
    apply list_elem_of_In. rewrite Hperm. apply list_elem_of_In, Hd'.
Qed.

End DiagnosticsFacts.

(* ===================================================================== *)
(** ** Normalized notes *)
(* ===================================================================== *)

Module NotesFacts.

Import Chars Notes.

Lemma tagTable_ok : tableOk tagTable = true.
Proof. reflexivity. Qed.

Lemma isChar_eq x c : isChar x c = true <-> x = c.
Proof. apply Ascii.eqb_eq. Qed.

Lemma markup_not_lt c : isMarkup c = true -> isChar "<" c = false.
Proof.
  unfold isMarkup. intros H. apply orb_true_iff in H.
  destruct H as [H|H]; apply isChar_eq in H; subst c; reflexivity.
Qed.

Lemma markup_not_tick c : isMarkup c = true -> isChar "`" c = false.
Proof.
  unfold isMarkup. intros H. apply orb_true_iff in H.
  destruct H as [H|H]; apply isChar_eq in H; subst c; reflexivity.
Qed.

Lemma stripPrefix_Some k s r : stripPrefix k s = Some r <-> s = k ++ r.
Proof.
  revert s. induction k as [|c k IH]; intros s; simpl.
  - split; [intros [= ->]; reflexivity|intros ->; reflexivity].
  - destruct s as [|d s].
    + split; [discriminate|intros H; discriminate H].
    + destruct (isChar c d) eqn:E.
      * apply isChar_eq in E. subst d. rewrite IH. split; [intros ->; reflexivity|].
        intros [= ->]. reflexivity.
      * split; [discriminate|]. intros [= -> _].
        unfold isChar in E. rewrite Ascii.eqb_refl in E. discriminate.
Qed.

Lemma stripPrefix_app k r : stripPrefix k (k ++ r) = Some r.
Proof. apply stripPrefix_Some. reflexivity. Qed.

Lemma stripPrefix_head c k d s :
  isChar c d = false -> stripPrefix (c :: k) (d :: s) = None.
Proof. simpl. intros ->. reflexivity. Qed.

Lemma stripPrefix_window k : forall a x,
  length k <= length a ->
  stripPrefix k (a ++ x) = option_map (fun r => r ++ x) (stripPrefix k a).
Proof.
  induction k as [|c k IH]; intros a x Hlen; [reflexivity|].
  destruct a as [|d a]; [simpl in Hlen; lia|]. simpl in Hlen. cbn [app stripPrefix].
  destruct (isChar c d); [apply IH; lia|reflexivity].
Qed.

Section Conversion.
Variable table : list (list ascii * list ascii).
Hypothesis table_ok : tableOk table = true.

Lemma table_entry tag rep :
  In (tag, rep) table -> tagOk tag = true /\ repOk rep = true.
Proof.
  intros Hin. unfold tableOk in table_ok. rewrite forallb_forall in table_ok.
  specialize (table_ok _ Hin). simpl in table_ok.
  apply andb_true_iff in table_ok. exact table_ok.
Qed.

Lemma tagAt_Some s rep rest :
  tagAt table s = Some (rep, rest) ->
  exists tag, In (tag, rep) table /\ s = tag ++ rest.
Proof.
  clear table_ok. induction table as [|[tag' rep'] t IH]; simpl; [discriminate|].
  destruct (stripPrefix tag' s) as [r|] eqn:E.
  - intros [= <- <-]. exists tag'. split; [left; reflexivity|].
    apply stripPrefix_Some, E.
  - intros H. destruct (IH H) as (tag & Hin & Heq). exists tag. split; [right; exact Hin|exact Heq].
Qed.

Lemma tagAt_None s :
  tagAt table s = None <-> forall tag rep, In (tag, rep) table -> stripPrefix tag s = None.
Proof.
  clear table_ok. induction table as [|[tag' rep'] t IH]; simpl.
  - split; [intros _ tag rep []|reflexivity].
  - destruct (stripPrefix tag' s) as [r|] eqn:E.
    + split; [discriminate|]. intros H. specialize (H tag' rep' (or_introl eq_refl)). congruence.
    + rewrite IH. split.
      * intros H tag rep [[= <- <-]|Hin]; [exact E|eauto].
      * intros H tag rep Hin. eauto.
Qed.

(** A tag is found at an angle bracket only, is not empty, and its
    replacement is markup. *)
Lemma tagAt_shape s rep rest :
  tagAt table s = Some (rep, rest) ->
  exists tail, s = "<"%char :: tail ++ rest /\ forallb plain tail = true /\
               rep <> [] /\ forallb isMarkup rep = true.
Proof.
  intros H. destruct (tagAt_Some _ _ _ H) as (tag & Hin & ->).
  destruct (table_entry _ _ Hin) as [Htag Hrep].
  destruct tag as [|c tail]; [discriminate|]. simpl in Htag.
  apply andb_true_iff in Htag. destruct Htag as [Hc Htail].
  apply isChar_eq in Hc. subst c. exists tail. split; [reflexivity|].
  split; [exact Htail|]. destruct rep; [discriminate|]. split; [discriminate|exact Hrep].
Qed.

Lemma tagAt_not_lt c s : isChar "<" c = false -> tagAt table (c :: s) = None.
Proof.
  intros Hc. destruct (tagAt table (c :: s)) as [[rep rest]|] eqn:E; [|reflexivity].
  destruct (tagAt_shape _ _ _ E) as (tail & Heq & _). injection Heq as -> _. discriminate.
Qed.

Lemma tagAt_shorter s rep rest :
  tagAt table s = Some (rep, rest) -> length rest < length s.
Proof.
  intros H. destruct (tagAt_shape _ _ _ H) as (tail & -> & _).
  simpl. rewrite length_app. lia.
Qed.

Lemma convertLoop_fuel n m s :
  length s <= n -> length s <= m -> convertLoop table n s = convertLoop table m s.
Proof.
  revert m s. induction n as [|n IH]; intros m s Hn Hm.
  - destruct s; [|simpl in Hn; lia]. destruct m; reflexivity.
  - destruct m as [|m].
    + destruct s; [reflexivity|simpl in Hm; lia].
    + destruct s as [|c s']; [reflexivity|]. simpl in Hn, Hm. cbn [convertLoop].
      destruct (tagAt table (c :: s')) as [[rep rest]|] eqn:E.
      * apply tagAt_shorter in E. simpl in E. f_equal. apply IH; lia.
      * f_equal. apply IH; lia.
Qed.

Lemma convertMarkup_nil : convertMarkup table [] = [].
Proof. reflexivity. Qed.

Lemma convertMarkup_tag s rep rest :
  tagAt table s = Some (rep, rest) ->
  convertMarkup table s = rep ++ convertMarkup table rest.
Proof.
  intros H. pose proof (tagAt_shorter _ _ _ H) as Hlt.
  unfold convertMarkup. destruct s as [|c s']; [simpl in Hlt; lia|].
  cbn [length convertLoop]. rewrite H. f_equal. simpl in Hlt.
  apply convertLoop_fuel; lia.
Qed.

Lemma convertMarkup_char c s :
  tagAt table (c :: s) = None ->
  convertMarkup table (c :: s) = c :: convertMarkup table s.
Proof. intros H. unfold convertMarkup. cbn [length convertLoop]. rewrite H. reflexivity. Qed.

(** Induction along the conversion. *)
Lemma convertMarkup_ind (P : list ascii -> Prop) :
  P [] ->
  (forall s rep rest, tagAt table s = Some (rep, rest) -> P rest -> P s) ->
  (forall c s, tagAt table (c :: s) = None -> P s -> P (c :: s)) ->
  forall s, P s.
Proof.
  intros Hnil Htag Hchar s.
  remember (length s) as n eqn:Hn. revert s Hn.
  induction n as [n IH] using lt_wf_ind. intros s Hn.
  destruct s as [|c s']; [exact Hnil|].
  destruct (tagAt table (c :: s')) as [[rep rest]|] eqn:E.
  - apply (Htag _ _ _ E). pose proof (tagAt_shorter _ _ _ E).
    apply (IH (length rest)); [lia|reflexivity].
  - apply Hchar; [exact E|]. apply (IH (length s')); [simpl in Hn; lia|reflexivity].
Qed.

Lemma convertMarkup_markup_app rep x :
  forallb isMarkup rep = true ->
  convertMarkup table (rep ++ x) = rep ++ convertMarkup table x.
Proof.
  induction rep as [|m rep IH]; intros H; [reflexivity|].
  simpl in H. apply andb_true_iff in H. destruct H as [Hm H].
  simpl. rewrite convertMarkup_char by (apply tagAt_not_lt, markup_not_lt, Hm).
  rewrite IH by exact H. reflexivity.
Qed.

(** A text free of markup characters that starts the converted text
    starts the text itself. *)
Lemma convertMarkup_prefix u : forall s t y,
  forallb (fun c => negb (isMarkup c)) u = true ->
  convertMarkup table s ++ t = u ++ y ->
  exists y', s ++ t = u ++ y'.
Proof.
  induction u as [|d u IH]; intros s t y Hu Heq; [eexists; reflexivity|].
  simpl in Hu. apply andb_true_iff in Hu. destruct Hu as [Hd Hu].
  apply negb_true_iff in Hd.
  destruct s as [|c s'].
  - rewrite convertMarkup_nil in Heq. exists y. exact Heq.
  - destruct (tagAt table (c :: s')) as [[rep rest]|] eqn:E.
    + exfalso. rewrite (convertMarkup_tag _ _ _ E) in Heq.
      destruct (tagAt_shape _ _ _ E) as (_ & _ & _ & Hne & Hrep).
      destruct rep as [|m rep]; [congruence|]. simpl in Heq, Hrep.
      injection Heq as -> _. apply andb_true_iff in Hrep. destruct Hrep as [Hm _].
      congruence.
    + rewrite (convertMarkup_char _ _ E) in Heq. simpl in Heq. injection Heq as -> Heq.
      destruct (IH _ _ _ Hu Heq) as (y' & Hy'). exists y'. simpl. congruence.
Qed.

Lemma plain_not_markup tail :
  forallb plain tail = true -> forallb (fun c => negb (isMarkup c)) tail = true.
Proof.
  intros H. rewrite forallb_forall in *. intros c Hc. specialize (H c Hc).
  unfold plain in H. apply andb_true_iff in H. tauto.
Qed.

Lemma tagAt_converted c s :
  tagAt table (c :: s) = None -> tagAt table (c :: convertMarkup table s) = None.
Proof.
  rewrite !tagAt_None. intros H tag rep Hin.
  destruct (stripPrefix tag (c :: convertMarkup table s)) as [r|] eqn:E; [|reflexivity].
  exfalso. destruct (table_entry _ _ Hin) as [Htag _].
  destruct tag as [|c' tail]; [discriminate|]. simpl in Htag.
  apply andb_true_iff in Htag. destruct Htag as [_ Htail].
  apply stripPrefix_Some in E. simpl in E. injection E as <- E.
  destruct (convertMarkup_prefix tail s [] r (plain_not_markup _ Htail)) as (y' & Hy').
  { rewrite app_nil_r. exact E. }
  rewrite app_nil_r in Hy'. specialize (H _ _ Hin). subst s.
  change (c :: tail ++ y') with ((c :: tail) ++ y') in H.
  rewrite stripPrefix_app in H. discriminate.
Qed.

(** Converting converted text changes nothing. *)
Lemma convertMarkup_idem s :
  convertMarkup table (convertMarkup table s) = convertMarkup table s.
Proof.
  induction s as [|s rep rest E IH|c s E IH] using convertMarkup_ind.
  - reflexivity.
  - rewrite (convertMarkup_tag _ _ _ E).
    destruct (tagAt_shape _ _ _ E) as (_ & _ & _ & _ & Hrep).
    rewrite convertMarkup_markup_app by exact Hrep. rewrite IH. reflexivity.
  - rewrite (convertMarkup_char _ _ E).
    rewrite convertMarkup_char by (apply tagAt_converted, E).
    rewrite IH. reflexivity.
Qed.

Lemma stripPrefix_tail_app tail : forall s t,
  forallb plain tail = true -> startsTag t = true ->
  stripPrefix tail s = None -> stripPrefix tail (s ++ t) = None.
Proof.
  induction tail as [|x tail IH]; intros s t Htail Ht H; [discriminate H|].
  simpl in Htail. apply andb_true_iff in Htail. destruct Htail as [Hx Htail].
  destruct s as [|y s].
  - cbn [app]. destruct t as [|d t]; [reflexivity|].
    simpl in Ht. apply isChar_eq in Ht. subst d. cbn [stripPrefix].
    unfold plain in Hx. apply andb_true_iff in Hx. destruct Hx as [Hx _].
    apply negb_true_iff in Hx.
    destruct (isChar x "<") eqn:E; [|reflexivity].
    apply isChar_eq in E. subst x. discriminate Hx.
  - cbn [app stripPrefix] in *. destruct (isChar x y); [eauto|reflexivity].
Qed.

Lemma stripPrefix_tag_app tag c s t :
  tagOk tag = true -> startsTag t = true ->
  stripPrefix tag (c :: s) = None -> stripPrefix tag ((c :: s) ++ t) = None.
Proof.
  intros Htag Ht H. destruct tag as [|x tail]; [discriminate Htag|].
  simpl in Htag. apply andb_true_iff in Htag. destruct Htag as [_ Htail].
  cbn [app stripPrefix] in *. destruct (isChar x c); [|reflexivity].
  apply stripPrefix_tail_app; assumption.
Qed.

Lemma tagAt_app c s t :
  startsTag t = true ->
  tagAt table ((c :: s) ++ t)
  = option_map (fun rr => (fst rr, snd rr ++ t)) (tagAt table (c :: s)).
Proof.
  intros Ht. unfold tableOk in table_ok. revert table_ok.
  induction table as [|[tag rep] tb IH]; intros Hok; [reflexivity|].
  cbn [forallb fst snd] in Hok. apply andb_true_iff in Hok. destruct Hok as [Hent Hok].
  apply andb_true_iff in Hent. destruct Hent as [Htag _].
  cbn [tagAt]. destruct (stripPrefix tag (c :: s)) as [r|] eqn:E.
  - apply stripPrefix_Some in E. rewrite E, <- app_assoc, stripPrefix_app. reflexivity.
  - rewrite (stripPrefix_tag_app _ _ _ _ Htag Ht E). apply IH, Hok.
Qed.

(** Conversion runs through a text and what follows it separately when
    what follows starts with an angle bracket. *)
Lemma convertMarkup_app a t :
  startsTag t = true ->
  convertMarkup table (a ++ t) = convertMarkup table a ++ convertMarkup table t.
Proof.
  intros Ht. induction a as [|s rep rest E IH|c s E IH] using convertMarkup_ind.
  - reflexivity.
  - destruct (tagAt_shape _ _ _ E) as (tail & Hs & _).
    assert (E' : tagAt table (s ++ t) = Some (rep, rest ++ t)).
    { rewrite Hs in E |- *.
      change (("<"%char :: tail ++ rest) ++ t) with (("<"%char :: (tail ++ rest)) ++ t).
      rewrite tagAt_app by exact Ht. rewrite E. reflexivity. }
    rewrite (convertMarkup_tag _ _ _ E), (convertMarkup_tag _ _ _ E'), IH.
    rewrite <- app_assoc. reflexivity.
  - assert (E' : tagAt table ((c :: s) ++ t) = None).
    { rewrite tagAt_app by exact Ht. rewrite E. reflexivity. }
    cbn [app] in *. rewrite (convertMarkup_char _ _ E), (convertMarkup_char _ _ E'), IH.
    reflexivity.
Qed.

Lemma convertMarkup_plain x :
  forallb (fun c => negb (isChar "<" c)) x = true -> convertMarkup table x = x.
Proof.
  induction x as [|c x IH]; intros H; [reflexivity|].
  simpl in H. apply andb_true_iff in H. destruct H as [Hc H].
  apply negb_true_iff in Hc.
  rewrite convertMarkup_char by (apply tagAt_not_lt, Hc). rewrite IH by exact H.
  reflexivity.
Qed.

(** *** Fences *)

Lemma fence_head c s : isChar "`" c = false -> stripPrefix fence (c :: s) = None.
Proof. intros H. unfold fence. simpl. rewrite H. reflexivity. Qed.

Lemma splitAtFence_Some r : forall b p,
  splitAtFence r = Some (b, p) -> r = b ++ fence ++ p.
Proof.
  induction r as [|c r IH]; intros b p; cbn [splitAtFence].
  - unfold fence. simpl. discriminate.
  - destruct (stripPrefix fence (c :: r)) as [r'|] eqn:E.
    + intros [= <- <-]. apply stripPrefix_Some in E. exact E.
    + destruct (splitAtFence r) as [[b' p']|]; [|discriminate].
      intros [= <- <-]. cbn [app]. f_equal. apply IH. reflexivity.
Qed.

Lemma splitAtFence_cons_inv c s b p :
  splitAtFence (c :: s) = Some (c :: b, p) ->
  stripPrefix fence (c :: s) = None /\ splitAtFence s = Some (b, p).
Proof.
  cbn [splitAtFence]. destruct (stripPrefix fence (c :: s)) as [r'|]; [discriminate|].
  destruct (splitAtFence s) as [[b' p']|]; [|discriminate].
  intros [= <- <-]. split; reflexivity.
Qed.

Lemma splitAtFence_cons c s b p :
  stripPrefix fence (c :: s) = None -> splitAtFence s = Some (b, p) ->
  splitAtFence (c :: s) = Some (c :: b, p).
Proof. intros H1 H2. cbn [splitAtFence]. rewrite H1, H2. reflexivity. Qed.

Lemma splitAtFence_app_inv a : forall x b p,
  splitAtFence (a ++ x) = Some (a ++ b, p) -> splitAtFence x = Some (b, p).
Proof.
  induction a as [|c a IH]; intros x b p H; [exact H|].
  cbn [app] in H. apply splitAtFence_cons_inv in H. destruct H as [_ H]. eauto.
Qed.

Lemma splitAtFence_pass a : forall x b p,
  forallb (fun c => negb (isChar "`" c)) a = true ->
  splitAtFence x = Some (b, p) -> splitAtFence (a ++ x) = Some (a ++ b, p).
Proof.
  induction a as [|c a IH]; intros x b p Ha H; [exact H|].
  simpl in Ha. apply andb_true_iff in Ha. destruct Ha as [Hc Ha].
  apply negb_true_iff in Hc. cbn [app]. apply splitAtFence_cons; [apply fence_head, Hc|eauto].
Qed.

(** Where a block ends does not depend on what follows its fence. *)
Lemma splitAtFence_post body : forall post post',
  splitAtFence (body ++ fence ++ post) = Some (body, post) ->
  splitAtFence (body ++ fence ++ post') = Some (body, post').
Proof.
  induction body as [|c body IH]; intros post post' H.
  - cbn [app]. destruct (fence ++ post') as [|d x] eqn:E; [discriminate E|].
    cbn [splitAtFence]. rewrite <- E, stripPrefix_app. reflexivity.
  - cbn [app] in *. apply splitAtFence_cons_inv in H. destruct H as [Hno H].
    apply splitAtFence_cons; [|eapply IH, H].
    change (c :: body ++ fence ++ post) with ((c :: body) ++ fence ++ post) in Hno.
    change (c :: body ++ fence ++ post') with ((c :: body) ++ fence ++ post').
    rewrite app_assoc in *.
    rewrite stripPrefix_window in * by (rewrite length_app; simpl; lia).
    destruct (stripPrefix fence ((c :: body) ++ fence)); [discriminate Hno|reflexivity].
Qed.

(** Conversion moves no fence: the block still ends where it did. *)
Lemma splitAtFence_converted body : forall post,
  splitAtFence (body ++ fence ++ post) = Some (body, post) ->
  splitAtFence (convertMarkup table body ++ fence ++ post)
  = Some (convertMarkup table body, post).
Proof.
  induction body as [|s rep rest E IH|c s E IH] using convertMarkup_ind; intros post H.
  - exact H.
  - rewrite (convertMarkup_tag _ _ _ E).
    destruct (tagAt_Some _ _ _ E) as (tag & _ & ->).
    destruct (tagAt_shape _ _ _ E) as (_ & _ & _ & _ & Hrep).
    rewrite <- app_assoc in H. apply splitAtFence_app_inv in H.
    rewrite <- app_assoc. apply splitAtFence_pass; [|apply IH, H].
    rewrite forallb_forall in *. intros m Hm. specialize (Hrep m Hm).
    rewrite (markup_not_tick _ Hrep). reflexivity.
  - rewrite (convertMarkup_char _ _ E). cbn [app] in H.
    apply splitAtFence_cons_inv in H. destruct H as [Hno H].
    cbn [app]. apply splitAtFence_cons; [|apply IH, H].
    destruct (stripPrefix fence (c :: convertMarkup table s ++ fence ++ post)) as [r|] eqn:Er;
      [|reflexivity].
    exfalso. apply stripPrefix_Some in Er.
    change (fence ++ r) with ("`"%char :: chars "``" ++ r) in Er.
    injection Er as -> Er.
    destruct (convertMarkup_prefix (chars "``") s (fence ++ post) r eq_refl Er) as (y' & Hy').
    rewrite Hy' in Hno.
    change ("`"%char :: chars "``" ++ y') with (fence ++ y') in Hno.
    rewrite stripPrefix_app in Hno. discriminate.
Qed.

End Conversion.

(** *** Block headers *)

Lemma spanBlank_spec s : forall ws r,
  spanBlank s = (ws, r) ->
  s = ws ++ r /\ forallb isBlank ws = true.
Proof.
  induction s as [|c s IH]; intros ws r; simpl.
  - intros [= <- <-]. split; reflexivity.
  - destruct (isBlank c) eqn:Hc.
    + destruct (spanBlank s) as [ws' r'] eqn:E. intros [= <- <-].
      destruct (IH _ _ eq_refl) as [-> Hall]. split; [reflexivity|].
      simpl. rewrite Hc. exact Hall.
    + intros [= <- <-]. split; reflexivity.
Qed.

Lemma spanBlank_app ws r :
  forallb isBlank ws = true ->
  match r with [] => true | d :: _ => negb (isBlank d) end = true ->
  spanBlank (ws ++ r) = (ws, r).
Proof.
  intros Hws Hr. induction ws as [|c ws IH]; simpl.
  - destruct r as [|d r]; [reflexivity|]. simpl. apply negb_true_iff in Hr.
    rewrite Hr. reflexivity.
  - simpl in Hws. apply andb_true_iff in Hws. destruct Hws as [Hc Hws].
    rewrite Hc, (IH Hws). reflexivity.
Qed.

Lemma openBlock_Some s hdr r :
  openBlock s = Some (hdr, r) ->
  exists ws, forallb isBlank ws = true /\ hdr = keyword ++ ws ++ fence /\ s = hdr ++ r.
Proof.
  unfold openBlock. destruct (stripPrefix keyword s) as [r1|] eqn:E1; [|discriminate].
  destruct (spanBlank r1) as [ws r2] eqn:E2.
  destruct (stripPrefix fence r2) as [r3|] eqn:E3; [|discriminate].
  intros Heq.
  assert (Hh : hdr = keyword ++ ws ++ fence) by congruence.
  assert (Hr : r = r3) by congruence. clear Heq. subst hdr r. exists ws.
  apply stripPrefix_Some in E1, E3. apply spanBlank_spec in E2. destruct E2 as [E2 Hws].
  split; [exact Hws|]. split; [reflexivity|]. subst. rewrite <- !app_assoc. reflexivity.
Qed.

Lemma openBlock_header ws r :
  forallb isBlank ws = true ->
  openBlock (keyword ++ ws ++ fence ++ r) = Some (keyword ++ ws ++ fence, r).
Proof.
  intros Hws. unfold openBlock. rewrite stripPrefix_app.
  rewrite (spanBlank_app ws (fence ++ r) Hws eq_refl).
  rewrite stripPrefix_app. reflexivity.
Qed.

Lemma openBlock_nil : openBlock [] = None.
Proof. reflexivity. Qed.

Section Normalizer.
Variable table : list (list ascii * list ascii).
Hypothesis table_ok : tableOk table = true.

Abbreviation convert := (convertMarkup table).
Abbreviation normalize := (normalizeWith table).

Lemma block_shorter s hdr r body post :
  openBlock s = Some (hdr, r) -> splitAtFence r = Some (body, post) ->
  length post < length s.
Proof.
  intros Ho Hs. apply openBlock_Some in Ho. destruct Ho as (ws & _ & -> & ->).
  apply splitAtFence_Some in Hs. subst r. rewrite !length_app.
  unfold keyword. simpl. lia.
Qed.

Lemma normalizeLoop_fuel n : forall m s,
  length s <= n -> length s <= m -> normalizeLoop table n s = normalizeLoop table m s.
Proof.
  induction n as [|n IH]; intros m s Hn Hm.
  - destruct s; [|simpl in Hn; lia]. destruct m; reflexivity.
  - destruct m as [|m].
    + destruct s; [reflexivity|simpl in Hm; lia].
    + destruct s as [|c s']; [reflexivity|]. cbn [normalizeLoop].
      destruct (openBlock (c :: s')) as [[hdr r]|] eqn:Eo.
      * destruct (splitAtFence r) as [[body post]|] eqn:Es; [|reflexivity].
        pose proof (block_shorter _ _ _ _ _ Eo Es) as Hlt. simpl in Hlt, Hn, Hm.
        do 3 f_equal. apply IH; lia.
      * simpl in Hn, Hm. f_equal. apply IH; lia.
Qed.

Lemma normalize_block s hdr r body post :
  openBlock s = Some (hdr, r) -> splitAtFence r = Some (body, post) ->
  normalize s = hdr ++ convert body ++ fence ++ normalize post.
Proof.
  intros Ho Hs. pose proof (block_shorter _ _ _ _ _ Ho Hs) as Hlt.
  unfold normalizeWith. destruct s as [|c s']; [simpl in Hlt; lia|].
  cbn [length normalizeLoop]. rewrite Ho, Hs. do 3 f_equal.
  simpl in Hlt. apply normalizeLoop_fuel; lia.
Qed.

Lemma normalize_open s hdr r :
  openBlock s = Some (hdr, r) -> splitAtFence r = None -> normalize s = s.
Proof.
  intros Ho Hs. unfold normalizeWith. destruct s as [|c s']; [reflexivity|].
  cbn [length normalizeLoop]. rewrite Ho, Hs. reflexivity.
Qed.

Lemma normalize_char c s :
  openBlock (c :: s) = None -> normalize (c :: s) = c :: normalize s.
Proof.
  intros Ho. unfold normalizeWith. cbn [length normalizeLoop]. rewrite Ho. reflexivity.
Qed.

(** Induction along the normalizer. *)
Lemma normalize_ind (P : list ascii -> Prop) :
  P [] ->
  (forall s hdr r body post,
     openBlock s = Some (hdr, r) -> splitAtFence r = Some (body, post) -> P post -> P s) ->
  (forall s hdr r, openBlock s = Some (hdr, r) -> splitAtFence r = None -> P s) ->
  (forall c s, openBlock (c :: s) = None -> P s -> P (c :: s)) ->
  forall s, P s.
Proof.
  intros Hnil Hblock Hopen Hchar s.
  remember (length s) as n eqn:Hn. revert s Hn.
  induction n as [n IH] using lt_wf_ind. intros s Hn.
  destruct s as [|c s']; [exact Hnil|].
  destruct (openBlock (c :: s')) as [[hdr r]|] eqn:Eo.
  - destruct (splitAtFence r) as [[body post]|] eqn:Es.
    + apply (Hblock _ _ _ _ _ Eo Es). pose proof (block_shorter _ _ _ _ _ Eo Es).
      apply (IH (length post)); [lia|reflexivity].
    + apply (Hopen _ _ _ Eo Es).
  - apply Hchar; [exact Eo|]. apply (IH (length s')); [simpl in Hn; lia|reflexivity].
Qed.

Lemma keyword_head hdr ws x :
  hdr = keyword ++ ws ++ x -> exists tl, hdr = "n"%char :: tl.
Proof. intros ->. unfold keyword. simpl. eexists. reflexivity. Qed.

(** A text without the letter n that starts the normalized text starts
    the text itself. *)
Lemma normalize_prefix u : forall s x,
  forallb (fun c => negb (isChar "n" c)) u = true ->
  normalize s = u ++ x -> exists x', s = u ++ x'.
Proof.
  induction u as [|d u IH]; intros s x Hu Heq; [eexists; reflexivity|].
  simpl in Hu. apply andb_true_iff in Hu. destruct Hu as [Hd Hu].
  apply negb_true_iff in Hd.
  destruct s as [|c s']; [discriminate Heq|].
  destruct (openBlock (c :: s')) as [[hdr r]|] eqn:Eo.
  - exfalso. pose proof Eo as Eo'. apply openBlock_Some in Eo'.
    destruct Eo' as (ws & _ & Hhdr & Hs).
    destruct (keyword_head _ _ _ Hhdr) as (tl & Htl).
    destruct (splitAtFence r) as [[body post]|] eqn:Es.
    + rewrite (normalize_block _ _ _ _ _ Eo Es), Htl in Heq. simpl in Heq.
      injection Heq as <- _. discriminate.
    + rewrite (normalize_open _ _ _ Eo Es), Hs, Htl in Heq. simpl in Heq.
      injection Heq as <- _. discriminate.
  - rewrite (normalize_char _ _ Eo) in Heq. simpl in Heq. injection Heq as -> Heq.
    destruct (IH _ _ Hu Heq) as (x' & ->). eexists. reflexivity.
Qed.

Lemma blank_not_n ws :
  forallb isBlank ws = true -> forallb (fun c => negb (isChar "n" c)) ws = true.
Proof.
  intros H. rewrite forallb_forall in *. intros c Hc. specialize (H c Hc).
  unfold isBlank in H.
  repeat (apply orb_true_iff in H; destruct H as [H|H]);
    apply isChar_eq in H; subst c; reflexivity.
Qed.

Lemma openBlock_normalized c s :
  openBlock (c :: s) = None -> openBlock (c :: normalize s) = None.
Proof.
  intros Hno. destruct (openBlock (c :: normalize s)) as [[hdr r]|] eqn:Eo; [|reflexivity].
  exfalso. apply openBlock_Some in Eo. destruct Eo as (ws & Hws & -> & Heq).
  change keyword with ("n"%char :: chars "otes") in Heq.
  rewrite <- !app_assoc in Heq. cbn [app] in Heq. injection Heq as -> Heq.
  destruct (normalize_prefix (chars "otes" ++ ws ++ fence) s r) as (x' & Hx').
  { rewrite !forallb_app. rewrite (blank_not_n _ Hws). reflexivity. }
  { rewrite <- !app_assoc. exact Heq. }
  subst s. rewrite <- !app_assoc in Hno.
  change ("n"%char :: chars "otes" ++ ws ++ fence ++ x')
    with (keyword ++ ws ++ fence ++ x') in Hno.
  rewrite openBlock_header in Hno by exact Hws. discriminate.
Qed.

(** Normalizing normalized text changes nothing. *)
Lemma normalize_idem s : normalize (normalize s) = normalize s.
Proof.
  induction s as [|s hdr r body post Eo Es IH|s hdr r Eo Es|c s Eo IH] using normalize_ind.
  - reflexivity.
  - rewrite (normalize_block _ _ _ _ _ Eo Es).
    destruct (openBlock_Some _ _ _ Eo) as (ws & Hws & -> & _).
    pose proof (splitAtFence_Some _ _ _ Es) as ->.
    rewrite <- !app_assoc.
    rewrite (normalize_block _ (keyword ++ ws ++ fence)
               (convert body ++ fence ++ normalize post) (convert body) (normalize post)).
    + rewrite (convertMarkup_idem table table_ok), IH, <- !app_assoc. reflexivity.
    + apply openBlock_header, Hws.
    + apply (splitAtFence_converted table table_ok).
      eapply splitAtFence_post, Es.
  - rewrite (normalize_open _ _ _ Eo Es). apply (normalize_open _ _ _ Eo Es).
  - rewrite (normalize_char _ _ Eo).
    rewrite normalize_char by (apply openBlock_normalized, Eo).
    rewrite IH. reflexivity.
Qed.

(** Text without a closed block is returned as it is. *)
Lemma normalize_plain s : hasNotesBlock s = false -> normalize s = s.
Proof.
  induction s as [|s hdr r body post Eo Es IH|s hdr r Eo Es|c s Eo IH] using normalize_ind;
    intros Hno.
  - reflexivity.
  - exfalso. destruct s; cbn [hasNotesBlock] in Hno; rewrite Eo, Es in Hno; discriminate.
  - apply (normalize_open _ _ _ Eo Es).
  - rewrite (normalize_char _ _ Eo). f_equal. apply IH.
    cbn [hasNotesBlock] in Hno. apply orb_false_iff in Hno. tauto.
Qed.

(** Text before the first block header is copied. *)
Lemma normalize_before pre : forall rest,
  (forall i, i < length pre -> openBlock (drop i (pre ++ rest)) = None) ->
  normalize (pre ++ rest) = pre ++ normalize rest.
Proof.
  induction pre as [|c pre IH]; intros rest H; [reflexivity|].
  cbn [app]. rewrite normalize_char by (apply (H 0); simpl; lia).
  f_equal. apply IH. intros i Hi. apply (H (S i)). simpl. lia.
Qed.

End Normalizer.

(** C2. [normalizeNotes] is idempotent, and it returns a text without a
    closed notes block as it is. *)
Theorem normalizeNotes_idempotent (s : list ascii) :
  normalizeNotes (normalizeNotes s) = normalizeNotes s /\
  (hasNotesBlock s = false -> normalizeNotes s = s).
Proof.
  split.
  - apply (normalize_idem tagTable tagTable_ok).
  - apply (normalize_plain tagTable).
Qed.

Lemma normalizeNotes_idempotent_witness :
  normalizeNotes (normalizeNotes (chars "no notes")) = normalizeNotes (chars "no notes") /\
  normalizeNotes (chars "no notes") = chars "no notes".
Proof.
  split.
  - exact (proj1 (normalizeNotes_idempotent (chars "no notes"))).
  - exact (proj2 (normalizeNotes_idempotent (chars "no notes")) eq_refl).
Defined.

Lemma bold_open rest :
  tagAt tagTable (chars "<b>" ++ rest) = Some (chars "**", rest).
Proof. reflexivity. Qed.

Lemma bold_close rest :
  tagAt tagTable (chars "</b>" ++ rest) = Some (chars "**", rest).
Proof. reflexivity. Qed.

Lemma convert_bold a x b :
  convertMarkup tagTable (a ++ chars "<b>" ++ x ++ chars "</b>" ++ b)
  = convertMarkup tagTable a ++ chars "**" ++ convertMarkup tagTable x
    ++ chars "**" ++ convertMarkup tagTable b.
Proof.
  rewrite (convertMarkup_app tagTable tagTable_ok a) by reflexivity.
  rewrite (convertMarkup_tag tagTable tagTable_ok _ _ _ (bold_open _)).
  rewrite (convertMarkup_app tagTable tagTable_ok x) by reflexivity.
  rewrite (convertMarkup_tag tagTable tagTable_ok _ _ _ (bold_close _)).
  reflexivity.
Qed.

(** C4. In a text whose first notes block has the body [body],
    [normalizeNotes] copies what stands before the block, the block header
    and the closing fence, converts the body, and goes on after the
    fence; in the body a bold tag pair becomes the enclosed text between
    double asterisks, and text without angle brackets is kept. *)
Theorem normalizeNotes_frame (pre ws body post : list ascii) :
  (forall i, i < length pre ->
     openBlock (drop i (pre ++ keyword ++ ws ++ fence ++ body ++ fence ++ post)) = None) ->
  forallb isBlank ws = true ->
  splitAtFence (body ++ fence ++ post) = Some (body, post) ->
  normalizeNotes (pre ++ keyword ++ ws ++ fence ++ body ++ fence ++ post)
  = pre ++ keyword ++ ws ++ fence ++ convertMarkup tagTable body ++ fence
    ++ normalizeNotes post
  /\ (forall a x b,
        convertMarkup tagTable (a ++ chars "<b>" ++ x ++ chars "</b>" ++ b)
        = convertMarkup tagTable a ++ chars "**" ++ convertMarkup tagTable x
          ++ chars "**" ++ convertMarkup tagTable b)
  /\ (forall x, forallb (fun c => negb (isChar "<" c)) x = true ->
                convertMarkup tagTable x = x).
Proof.
  intros Hpre Hws Hbody. split; [|split].
  - unfold normalizeNotes. rewrite (normalize_before tagTable pre _ Hpre).
    f_equal.
    rewrite (normalize_block tagTable _ (keyword ++ ws ++ fence)
               (body ++ fence ++ post) body post).
    + rewrite <- !app_assoc. reflexivity.
    + apply openBlock_header, Hws.
    + exact Hbody.
  - exact convert_bold.
  - exact (convertMarkup_plain tagTable tagTable_ok).
Qed.

Lemma normalizeNotes_frame_witness :
  normalizeNotes scenarioD = chars "model notes ```
**x**
```
end".
Proof.
  pose proof (normalizeNotes_frame (chars "model ") (chars " ")
                (chars "
<b>x</b>
") (chars "
end")) as H.
  destruct H as (H & Hbold & Hplain).
  - intros i Hi. do 6 (destruct i as [|i]; [reflexivity|]). simpl in Hi. lia.
  - reflexivity.
  - reflexivity.
  - unfold scenarioD.
    transitivity (chars "model " ++ keyword ++ chars " " ++ fence
                  ++ convertMarkup tagTable (chars "
<b>x</b>
") ++ fence ++ normalizeNotes (chars "
end")); [exact H|].
    change (chars "
<b>x</b>
") with (chars "
" ++ chars "<b>" ++ chars "x" ++ chars "</b>" ++ chars "
").
    rewrite Hbold. rewrite !Hplain by reflexivity. reflexivity.
Defined.

(** The test of [processContent]. *)
Lemma processContent_test :
  normalizeNotes antimonyWithNotes = chars "A: lprll1p2r1lplp laplfsdf
model notes ```
		**convert this to markdown**
	```
end".
Proof. vm_compute. reflexivity. Qed.

End NotesFacts.

(* ===================================================================== *)
(** ** Cutoff and low matches *)
(* ===================================================================== *)

Module ModalFacts.

Import Modal.

Lemma handleCutoff_keeps cutoff value :
  inUnit cutoff = true -> inUnit (handleCutoff cutoff value) = true.
Proof.
  unfold handleCutoff. intros H.
  destruct (PrimFloat.leb 0 value && PrimFloat.leb value 1) eqn:E; [exact E|exact H].
Qed.

Lemma fold_handleCutoff_keeps events cutoff :
  inUnit cutoff = true -> inUnit (fold_left handleCutoff events cutoff) = true.
Proof.
  revert cutoff. induction events as [|v events IH]; intros cutoff H; [exact H|].
  simpl. apply IH, handleCutoff_keeps, H.
Qed.

(** C9. The cutoff starts at 0.01 and stays within [0, 1] through every
    sequence of change events; a value outside the range, NaN included,
    leaves the stored cutoff as it was. *)
Theorem cutoff_invariant (events : list float) :
  cutoffAfter [] = 0.01%float /\
  inUnit (cutoffAfter events) = true /\
  (forall cutoff value, inUnit value = false -> handleCutoff cutoff value = cutoff) /\
  (forall cutoff, handleCutoff cutoff nan = cutoff) /\
  (forall cutoff value, inUnit value = true -> handleCutoff cutoff value = value).
Proof.
  split; [reflexivity|]. split.
  - apply fold_handleCutoff_keeps. vm_compute. reflexivity.
  - split; [|split].
    + intros cutoff value H. unfold handleCutoff. unfold inUnit in H. rewrite H. reflexivity.
    + intros cutoff. reflexivity.
    + intros cutoff value H. unfold handleCutoff. unfold inUnit in H. rewrite H. reflexivity.
Qed.

Lemma existsb_filter {A} (f g : A -> bool) (l : list A) :
  existsb f (List.filter g l) = existsb (fun x => g x && f x) l.
Proof.
  induction l as [|x l IH]; [reflexivity|]. simpl.
  destruct (g x); simpl; rewrite IH; reflexivity.
Qed.

Lemma checkLowMatch_mark group : checkLowMatch group = map (mark group) group.
Proof.
  unfold checkLowMatch. apply map_ext. intros rec. unfold mark.
  rewrite existsb_filter. reflexivity.
Qed.

Lemma eqb_zero_not_one v : PrimFloat.eqb v 0 = true -> PrimFloat.eqb v 1 = false.
Proof.
  rewrite !FloatAxioms.eqb_spec.
  replace (Prim2SF 0) with (S754_zero false) by reflexivity.
  replace (Prim2SF 1) with (S754_finite false 4503599627370496%positive (-52)%Z)
    by (vm_compute; reflexivity).
  destruct (Prim2SF v) as [s|s| |s m e]; intros H.
  - reflexivity.
  - destruct s; discriminate H.
  - discriminate H.
  - destruct s; discriminate H.
Qed.

Lemma setLowMatch_same rec : setLowMatch rec (isLowMatch rec || false) = rec.
Proof. destruct rec. unfold setLowMatch. simpl. rewrite orb_false_r. reflexivity. Qed.

Lemma key_setLowMatch rec b :
  getRecommendationKey (setLowMatch rec b) = getRecommendationKey rec.
Proof. reflexivity. Qed.

Lemma key_mark group rec : getRecommendationKey (mark group rec) = getRecommendationKey rec.
Proof. unfold mark. destruct (PrimFloat.eqb (existing rec) 1); reflexivity. Qed.

Lemma grouping table : forall g0,
  Forall plainId table ->
  exists g, fold_left groupStep table (Some g0) = Some g /\
    forall k, g !! k =
      match List.filter (sameId k) table with
      | [] => g0 !! k
      | l => Some (default [] (g0 !! k) ++ l)
      end.
Proof.
  induction table as [|r t IH]; intros g0 Hplain.
  - exists g0. split; [reflexivity|]. intros k. reflexivity.
  - apply Forall_cons in Hplain. destruct Hplain as [Hr Ht]. unfold plainId in Hr.
    set (g1 := <[id r := default [] (g0 !! id r) ++ [r]]> g0).
    assert (Hstep : groupStep (Some g0) r = Some g1).
    { unfold groupStep. rewrite Hr. subst g1. destruct (g0 !! id r); reflexivity. }
    destruct (IH g1 Ht) as (g & Hg & Hlook).
    exists g. split; [cbn [fold_left]; rewrite Hstep; exact Hg|].
    intros k. rewrite Hlook. cbn [List.filter].
    replace (sameId k r) with (String.eqb (id r) k) by reflexivity.
    destruct (String.eqb_spec (id r) k) as [<-|Hne].
    + subst g1. rewrite lookup_insert_eq. simpl.
      destruct (List.filter (sameId (id r)) t) as [|x l]; [reflexivity|].
      rewrite <- app_assoc. reflexivity.
    + subst g1. rewrite lookup_insert_ne by exact Hne. reflexivity.
Qed.

Lemma groupedRecommendations_lookup table :
  Forall plainId table ->
  exists g, groupedRecommendations table = Some g /\
    forall rec, In rec table -> g !! id rec = Some (List.filter (sameId (id rec)) table).
Proof.
  intros Hplain. destruct (grouping table ∅ Hplain) as (g & Hg & Hlook).
  exists g. split; [exact Hg|]. intros rec Hin. rewrite Hlook.
  destruct (List.filter (sameId (id rec)) table) as [|x l] eqn:E; [|reflexivity].
  exfalso. assert (Hf : In rec (List.filter (sameId (id rec)) table)).
  { apply filter_In. split; [exact Hin|]. unfold sameId. apply String.eqb_refl. }
  rewrite E in Hf. destruct Hf.
Qed.

Lemma find_by_key (f : Recommendation -> Recommendation) l rec :
  (forall r, getRecommendationKey (f r) = getRecommendationKey r) ->
  NoDup (map getRecommendationKey l) -> In rec l ->
  List.find (fun r => String.eqb (getRecommendationKey r) (getRecommendationKey rec))
            (map f l) = Some (f rec).
Proof.
  intros Hkey. induction l as [|x l IH]; intros Hnd Hin; [destruct Hin|].
  simpl in Hnd. apply NoDup_cons in Hnd. destruct Hnd as [Hx Hnd].
  simpl. rewrite Hkey.
  destruct (String.eqb_spec (getRecommendationKey x) (getRecommendationKey rec)) as [He|Hne].
  - destruct Hin as [->|Hin]; [reflexivity|]. exfalso. apply Hx.
    rewrite He. apply list_elem_of_In, in_map, Hin.
  - destruct Hin as [->|Hin]; [congruence|]. apply IH; assumption.
Qed.

Lemma NoDup_map_filter {A B} (key : A -> B) (p : A -> bool) (l : list A) :
  NoDup (map key l) -> NoDup (map key (List.filter p l)).
Proof.
  induction l as [|x l IH]; intros Hnd; [constructor|].
  simpl in Hnd. apply NoDup_cons in Hnd. destruct Hnd as [Hx Hnd].
  simpl. destruct (p x); [|apply IH, Hnd].
  simpl. apply NoDup_cons. split; [|apply IH, Hnd].
  intros Hin. apply Hx. apply list_elem_of_In in Hin. apply in_map_iff in Hin.
  destruct Hin as (y & Hy & Hin). apply filter_In in Hin. destruct Hin as [Hin _].
  apply list_elem_of_In. rewrite <- Hy. apply in_map, Hin.
Qed.

Lemma processOne_mark table g rec :
  NoDup (map getRecommendationKey table) -> In rec table ->
  g !! id rec = Some (List.filter (sameId (id rec)) table) ->
  processOne g rec = Some (mark (List.filter (sameId (id rec)) table) rec).
Proof.
  intros Hnd Hin Hg. unfold processOne. rewrite Hg. rewrite checkLowMatch_mark.
  rewrite (find_by_key (mark _) _ rec).
  - f_equal. unfold mark. destruct (PrimFloat.eqb (existing rec) 1).
    + simpl. rewrite orb_false_r. reflexivity.
    + apply setLowMatch_same.
  - apply key_mark.
  - apply NoDup_map_filter, Hnd.
  - apply filter_In. split; [exact Hin|]. unfold sameId. apply String.eqb_refl.
Qed.

(** C10. [checkLowMatch] marks a recommendation with [existing] 1 as a
    low match exactly when a recommendation of its group with [existing] 0
    has a strictly greater match score, and returns every recommendation
    with [existing] 0 as it is; over a table with distinct keys the
    processed recommendations are the table with each row so marked
    within the rows of its id. *)
Theorem low_match_marking :
  (forall group, checkLowMatch group = map (mark group) group) /\
  (forall group rec, PrimFloat.eqb (existing rec) 1 = true ->
     existing (mark group rec) = existing rec /\
     matchScore (mark group rec) = matchScore rec /\
     getRecommendationKey (mark group rec) = getRecommendationKey rec /\
     (isLowMatch (mark group rec) = true <->
      exists z, In z group /\ PrimFloat.eqb (existing z) 0 = true
                /\ PrimFloat.ltb (matchScore rec) (matchScore z) = true)) /\
  (forall group rec, PrimFloat.eqb (existing rec) 0 = true -> mark group rec = rec) /\
  (forall table,
     NoDup (map getRecommendationKey table) -> Forall plainId table ->
     processedRecommendations table
     = Some (map (fun rec => mark (List.filter (sameId (id rec)) table) rec) table)).
Proof.
  split; [exact checkLowMatch_mark|]. split; [|split].
  - intros group rec H1. unfold mark. rewrite H1. simpl.
    split; [reflexivity|]. split; [reflexivity|]. split; [reflexivity|].
    rewrite existsb_exists. split.
    + intros (z & Hz & Hb). apply andb_true_iff in Hb. exists z. tauto.
    + intros (z & Hz & H0 & Hlt). exists z. split; [exact Hz|]. rewrite H0, Hlt. reflexivity.
  - intros group rec H0. unfold mark. rewrite (eqb_zero_not_one _ H0). reflexivity.
  - intros table Hnd Hplain. unfold processedRecommendations.
    destruct (groupedRecommendations_lookup table Hplain) as (g & Hg & Hlook).
    rewrite Hg. apply mapM_Some. apply Forall2_fmap_r, Forall_Forall2_diag, Forall_forall.
    intros rec Hin. apply list_elem_of_In in Hin. simpl.
    apply processOne_mark; auto.
Qed.

Lemma low_match_marking_witness :
  option_map (map isLowMatch) (processedRecommendations sampleTable)
  = Some [true; false; false].
Proof.
  rewrite (proj2 (proj2 (proj2 low_match_marking)) sampleTable).
  - vm_compute. reflexivity.
  - apply (bool_decide_unpack _). vm_compute. exact I.
  - repeat constructor.
Defined.

(** *** Grouping *)

Lemma fold_groupStep_None table : fold_left groupStep table None = None.
Proof. induction table as [|r t IH]; [reflexivity|exact IH]. Qed.

Lemma grouping_fails table : forall g0,
  Exists (fun rec => ~ plainId rec) table ->
  fold_left groupStep table (Some g0) = None.
Proof.
  induction table as [|r t IH]; intros g0 H; inversion H as [x l Hr|x l Ht]; subst.
  - cbn [fold_left]. unfold groupStep at 2. unfold plainId in Hr.
    apply not_false_is_true in Hr. rewrite Hr. apply fold_groupStep_None.
  - cbn [fold_left]. destruct (groupStep (Some g0) r) as [g1|];
      [apply IH, Ht|apply fold_groupStep_None].
Qed.

Lemma plainId_dec rec : {plainId rec} + {~ plainId rec}.
Proof. unfold plainId. apply bool_dec. Qed.

Lemma grouping_lookup table :
  Forall plainId table ->
  exists g, groupedRecommendations table = Some g /\
    forall k, g !! k = match List.filter (sameId k) table with
                       | [] => None
                       | l => Some l
                       end.
Proof.
  intros Hplain. destruct (grouping table ∅ Hplain) as (g & Hg & Hlook).
  exists g. split; [exact Hg|]. intros k. rewrite Hlook, lookup_empty.
  destruct (List.filter (sameId k) table); reflexivity.
Qed.

(** X10. Grouping the table by id gives, for every id of the table, its
    rows in table order, and nothing for any other id; it fails (the
    [TypeError] of [push] on an inherited property) exactly when a row
    has an id that every object inherits, such as [constructor] or
    [toString]. *)
Theorem grouping_outcome table :
  match groupedRecommendations table with
  | Some g =>
      Forall plainId table /\
      forall k, g !! k = match List.filter (sameId k) table with
                         | [] => None
                         | l => Some l
                         end
  | None => Exists (fun rec => ~ plainId rec) table
  end.
Proof.
  destruct (Forall_Exists_dec plainId (fun rec => ~ plainId rec) plainId_dec table)
    as [Hplain|Hex].
  - destruct (grouping_lookup table Hplain) as (g & -> & Hlook). auto.
  - unfold groupedRecommendations. rewrite (grouping_fails table ∅ Hex). exact Hex.
Qed.

(** *** Rows with the same key *)

Lemma find_map_key (f : Recommendation -> Recommendation) l rec :
  (forall r, getRecommendationKey (f r) = getRecommendationKey r) ->
  List.find (fun r => String.eqb (getRecommendationKey r) (getRecommendationKey rec))
            (map f l)
  = option_map f (List.find (sameKey rec) l).
Proof.
  intros Hkey. induction l as [|x l IH]; [reflexivity|].
  cbn [map List.find]. unfold sameKey at 1. rewrite Hkey.
  destruct (String.eqb (getRecommendationKey x) (getRecommendationKey rec));
    [reflexivity|exact IH].
Qed.

Lemma Forall2_In_l {A B} (P Q : A -> B -> Prop) l k :
  Forall2 P l k -> (forall x y, In x l -> P x y -> Q x y) -> Forall2 Q l k.
Proof.
  induction 1 as [|x y l k Hxy Hlk IH]; intros H; constructor.
  - apply H; [left; reflexivity|exact Hxy].
  - apply IH. intros x' y' Hin. apply H. right. exact Hin.
Qed.

Lemma firstWithKey_Some table rec :
  In rec table -> exists r0, firstWithKey table rec = Some r0.
Proof.
  intros Hin. unfold firstWithKey.
  destruct (List.find (sameKey rec) (group table rec)) as [r0|] eqn:E; [eauto|].
  exfalso.
  assert (Hg : In rec (group table rec)).
  { apply filter_In. split; [exact Hin|]. unfold sameId. apply String.eqb_refl. }
  pose proof (find_none _ _ E rec Hg) as H.
  unfold sameKey in H. rewrite String.eqb_refl in H. discriminate.
Qed.

Lemma processed_rows table out :
  processedRecommendations table = Some out ->
  Forall2 (fun rec o => exists b, o = setLowMatch rec b) table out.
Proof.
  unfold processedRecommendations. intros H.
  destruct (groupedRecommendations table) as [g|]; [|discriminate].
  apply mapM_Some in H. eapply Forall2_impl; [exact H|].
  intros rec o Ho. unfold processOne in Ho.
  destruct (g !! id rec); [|discriminate]. injection Ho as <-. eauto.
Qed.

(** X11. The processed recommendations are the rows of the table in
    their order, each with nothing but its flag set anew: the flag
    [checkLowMatch] gives, within the rows of the same id, to the first
    row with the same key. Rows that repeat an id and an annotation so
    all carry the flag of the first of them. *)
Theorem duplicate_keys_share_flag table out :
  processedRecommendations table = Some out ->
  Forall2 (fun rec o =>
             exists r0, firstWithKey table rec = Some r0 /\
                        o = setLowMatch rec (isLowMatch (mark (group table rec) r0)))
          table out.
Proof.
  unfold processedRecommendations. intros H.
  pose proof (grouping_outcome table) as Hg.
  destruct (groupedRecommendations table) as [g|]; [|discriminate].
  destruct Hg as [_ Hlook]. apply mapM_Some in H.
  eapply Forall2_In_l; [exact H|]. clear H. intros rec o Hin Ho. cbn beta in Ho.
  destruct (firstWithKey_Some table rec Hin) as (r0 & Hr0). exists r0.
  split; [exact Hr0|].
  unfold processOne in Ho. rewrite Hlook in Ho.
  unfold firstWithKey, group in Hr0 |- *.
  destruct (List.filter (sameId (id rec)) table) as [|x l] eqn:E; [discriminate|].
  rewrite checkLowMatch_mark, (find_map_key _ _ _ (key_mark _)), Hr0 in Ho.
  cbn [option_map] in Ho. rewrite orb_false_r in Ho. congruence.
Qed.

Lemma duplicate_keys_share_flag_witness :
  exists out,
    processedRecommendations duplicateTable = Some out /\
    map isLowMatch out = [true; false; true; false] /\
    Forall2 (fun rec o =>
               exists r0, firstWithKey duplicateTable rec = Some r0 /\
                          o = setLowMatch rec
                                (isLowMatch (mark (group duplicateTable rec) r0)))
            duplicateTable out.
Proof.
  eexists. split; [vm_compute; reflexivity|]. split; [reflexivity|].
  apply duplicate_keys_share_flag. vm_compute. reflexivity.
Defined.

(** *** Keys *)

Lemma append_nil s : "" +:+ s = s.
Proof. reflexivity. Qed.

Lemma append_cons c s t : String c s +:+ t = String c (s +:+ t).
Proof. reflexivity. Qed.

(** A key has a hyphen, so it is no name an object inherits. *)
Lemma key_hyphen i : forall k a,
  hyphenFree k = true -> i +:+ "-" +:+ a <> k.
Proof.
  induction i as [|c i IH]; intros [|d k] a Hk Heq;
    rewrite ?append_nil, ?append_cons, ?append_nil in Heq; try discriminate Heq.
  - injection Heq as <- _. discriminate Hk.
  - injection Heq as <- Heq.
    unfold hyphenFree in Hk. cbn [String.list_ascii_of_string forallb] in Hk.
    apply andb_true_iff in Hk. destruct Hk as [_ Hk]. exact (IH k a Hk Heq).
Qed.

Lemma key_not_inherited rec :
  existsb (String.eqb (getRecommendationKey rec)) objectPrototypeKeys = false /\
  String.eqb (getRecommendationKey rec) "__proto__" = false.
Proof.
  assert (H : forall k, hyphenFree k = true ->
                        String.eqb (getRecommendationKey rec) k = false).
  { intros k Hk. apply String.eqb_neq. unfold getRecommendationKey.
    apply key_hyphen, Hk. }
  split; [|apply H; reflexivity].
  unfold objectPrototypeKeys. cbn [existsb].
  rewrite !H by reflexivity. reflexivity.
Qed.

Lemma selected_key sel rec :
  selected sel (getRecommendationKey rec)
  = default false (sel !! getRecommendationKey rec).
Proof.
  unfold selected. destruct (sel !! getRecommendationKey rec); [reflexivity|].
  apply key_not_inherited.
Qed.

(** X12. The key of a recommendation tells its id and its annotation
    apart from those of every other recommendation, as long as ids
    contain no hyphen: two recommendations with hyphen-free ids and the
    same key have the same id and the same annotation. *)
Theorem key_injective r1 r2 :
  hyphenFree (id r1) = true -> hyphenFree (id r2) = true ->
  getRecommendationKey r1 = getRecommendationKey r2 ->
  id r1 = id r2 /\ annotation r1 = annotation r2.
Proof.
  unfold getRecommendationKey.
  generalize (annotation r1) (annotation r2) (id r2). clear r2.
  induction (id r1) as [|c i1 IH]; intros a1 a2 [|d i2] H1 H2 Heq;
    rewrite ?append_nil, ?append_cons, ?append_nil in Heq.
  - injection Heq as ->. auto.
  - injection Heq as <- _. discriminate H2.
  - injection Heq as -> _. discriminate H1.
  - injection Heq as <- Heq.
    unfold hyphenFree in H1, H2. cbn [String.list_ascii_of_string forallb] in H1, H2.
    apply andb_true_iff in H1, H2. destruct H1 as [_ H1]. destruct H2 as [_ H2].
    destruct (IH a1 a2 i2 H1 H2 Heq) as [-> ->]. auto.
Qed.

Lemma key_injective_witness :
  id (recommendation "S1" "CHEBI:15377" 0.5 1)
  = id (recommendation "S1" "CHEBI:15377" 0.9 0) /\
  annotation (recommendation "S1" "CHEBI:15377" 0.5 1)
  = annotation (recommendation "S1" "CHEBI:15377" 0.9 0).
Proof.
  apply (key_injective (recommendation "S1" "CHEBI:15377" 0.5 1)
                       (recommendation "S1" "CHEBI:15377" 0.9 0));
    reflexivity.
Defined.

(** With a hyphen in an id, different ids can give one key. *)
Lemma key_collision :
  getRecommendationKey (recommendation "a-b" "c" 0.5 1)
  = getRecommendationKey (recommendation "a" "b-c" 0.5 1).
Proof. reflexivity. Qed.

(** *** The selection *)

Lemma selectStep_insert acc rec :
  selectStep acc rec = <[getRecommendationKey rec := existingOne rec]> acc.
Proof.
  unfold selectStep. cbn zeta. rewrite (proj2 (key_not_inherited rec)). reflexivity.
Qed.

Lemma fold_selectStep table : forall acc k,
  fold_left selectStep table acc !! k
  = match last (List.filter (fun r => String.eqb (getRecommendationKey r) k) table) with
    | Some r => Some (existingOne r)
    | None => acc !! k
    end.
Proof.
  induction table as [|r t IH]; intros acc k; [reflexivity|].
  cbn [fold_left List.filter]. rewrite IH, selectStep_insert.
  destruct (String.eqb_spec (getRecommendationKey r) k) as [<-|Hne].
  - destruct (List.filter _ t) as [|x l] eqn:E.
    + cbn [last]. apply lookup_insert_eq.
    + rewrite last_cons_cons. destruct (last (x :: l)) eqn:El; [reflexivity|].
      apply last_None in El. discriminate.
  - rewrite lookup_insert_ne by exact Hne. reflexivity.
Qed.

(** X13. The selection a generated table starts with holds, for every
    key of the table, whether the last row with that key has [existing]
    1, and holds nothing for any other key. *)
Theorem initial_selection table k :
  initialSelection table !! k
  = option_map existingOne
      (last (List.filter (fun r => String.eqb (getRecommendationKey r) k) table)).
Proof.
  unfold initialSelection. rewrite fold_selectStep, lookup_empty.
  destruct (last _); reflexivity.
Qed.

Lemma selected_handleSelect sel k k' :
  selected (handleSelect sel k) k'
  = if String.eqb k k' then negb (selected sel k) else selected sel k'.
Proof.
  unfold handleSelect. destruct (String.eqb_spec k k') as [<-|Hne].
  - unfold selected at 1. rewrite lookup_insert_eq. reflexivity.
  - unfold selected at 1 3. rewrite lookup_insert_ne by exact Hne. reflexivity.
Qed.

Lemma timesClicked_cons k x keys :
  timesClicked k (x :: keys)
  = if String.eqb k x then S (timesClicked k keys) else timesClicked k keys.
Proof. unfold timesClicked. cbn [List.filter]. destruct (String.eqb k x); reflexivity. Qed.

Lemma selected_clicks keys : forall sel k,
  selected (clicks keys sel) k
  = xorb (selected sel k) (Nat.odd (timesClicked k keys)).
Proof.
  induction keys as [|x keys IH]; intros sel k.
  - unfold timesClicked. cbn. rewrite xorb_false_r. reflexivity.
  - unfold clicks. cbn [fold_left]. fold (clicks keys (handleSelect sel x)).
    rewrite IH, selected_handleSelect, timesClicked_cons, (String.eqb_sym k x).
    destruct (String.eqb_spec x k) as [->|Hne]; [|reflexivity].
    rewrite Nat.odd_succ, <- Nat.negb_odd.
    destruct (selected sel k), (Nat.odd (timesClicked k keys)); reflexivity.
Qed.

(** X14. After any sequence of clicks on checkboxes a key is selected
    exactly when it was selected before and has been clicked an even
    number of times, or was not and has been clicked an odd number of
    times: clicks on other keys leave it as it is, two clicks on it
    restore it. The recommendations handed to the recommender are, in
    the order of the table, the rows whose key is so selected. *)
Theorem selection_after_clicks keys sel recommendations :
  (forall k, selected (clicks keys sel) k
             = xorb (selected sel k) (Nat.odd (timesClicked k keys))) /\
  chosen recommendations (clicks keys sel)
  = List.filter (fun rec => xorb (selected sel (getRecommendationKey rec))
                                 (Nat.odd (timesClicked (getRecommendationKey rec) keys)))
                recommendations.
Proof.
  split; [apply selected_clicks|].
  unfold chosen. apply filter_ext. intros rec. apply selected_clicks.
Qed.

Lemma Forall2_In_r {A B} (P : A -> B -> Prop) l k y :
  Forall2 P l k -> In y k -> exists x, In x l /\ P x y.
Proof.
  induction 1 as [|x y' l k Hxy Hlk IH]; intros Hin; [destruct Hin|].
  destruct Hin as [->|Hin].
  - exists x. split; [left; reflexivity|exact Hxy].
  - destruct (IH Hin) as (x' & Hx' & HP). exists x'. split; [right; exact Hx'|exact HP].
Qed.

Lemma filter_unique_key table rec :
  NoDup (map getRecommendationKey table) -> In rec table ->
  List.filter (fun r => String.eqb (getRecommendationKey r) (getRecommendationKey rec))
              table = [rec].
Proof.
  induction table as [|x t IH]; intros Hnd Hin; [destruct Hin|].
  cbn [map] in Hnd. apply NoDup_cons in Hnd. destruct Hnd as [Hx Hnd].
  cbn [List.filter].
  destruct (String.eqb_spec (getRecommendationKey x) (getRecommendationKey rec))
    as [He|Hne].
  - destruct Hin as [->|Hin].
    + f_equal. destruct (List.filter _ t) as [|y l] eqn:E; [reflexivity|]. exfalso.
      assert (Hy : In y (List.filter
                (fun r => String.eqb (getRecommendationKey r) (getRecommendationKey rec)) t))
        by (rewrite E; left; reflexivity).
      apply filter_In in Hy. destruct Hy as [Hy Hk]. apply String.eqb_eq in Hk.
      apply Hx. rewrite <- Hk. apply list_elem_of_In, in_map, Hy.
    + exfalso. apply Hx. rewrite He. apply list_elem_of_In, in_map, Hin.
  - destruct Hin as [->|Hin]; [congruence|]. apply IH; assumption.
Qed.

(** X15. Over a table with distinct keys, the recommendations handed to
    the recommender after any clicks are the processed rows, in table
    order, whose [existing] is 1 and whose checkbox was clicked an even
    number of times, or whose [existing] is not 1 and whose checkbox was
    clicked an odd number of times; with no click at all they are the
    rows with [existing] 1. *)
Theorem chosen_after_generation table recs keys :
  processedRecommendations table = Some recs ->
  NoDup (map getRecommendationKey table) ->
  chosen recs (clicks keys (initialSelection table))
  = List.filter (fun rec => xorb (existingOne rec)
                                 (Nat.odd (timesClicked (getRecommendationKey rec) keys)))
                recs /\
  chosen recs (initialSelection table) = List.filter existingOne recs.
Proof.
  intros Hproc Hnd.
  assert (Hsel : forall o, In o recs ->
            selected (initialSelection table) (getRecommendationKey o) = existingOne o).
  { pose proof (processed_rows table recs Hproc) as Hrows.
    intros o Ho.
    destruct (Forall2_In_r _ _ _ _ Hrows Ho) as (rec & Hrec & b & ->).
    rewrite selected_key, key_setLowMatch. unfold initialSelection.
    rewrite fold_selectStep, (filter_unique_key table rec Hnd Hrec). reflexivity. }
  split.
  - unfold chosen. apply filter_ext_in. intros o Ho.
    rewrite selected_clicks, (Hsel o Ho). reflexivity.
  - unfold chosen. apply filter_ext_in. exact Hsel.
Qed.

Lemma chosen_after_generation_witness :
  option_map (fun recs => map annotation (chosen recs (initialSelection sampleTable)))
             (processedRecommendations sampleTable)
  = Some ["CHEBI:15377"; "CHEBI:17234"]%string.
Proof.
  destruct (processedRecommendations sampleTable) as [recs|] eqn:E;
    [|vm_compute in E; discriminate].
  cbn [option_map].
  rewrite (proj2 (chosen_after_generation sampleTable recs [] E
                    ltac:(apply (bool_decide_unpack _); vm_compute; exact I))).
  vm_compute in E. injection E as <-. vm_compute. reflexivity.
Defined.

(** *** Sorting *)

Lemma handleSort_twice cfg f :
  handleSort (handleSort cfg f) f
  = {| field := Some f; order := flip (order (handleSort cfg f)) |}.
Proof.
  unfold handleSort. cbn [field order]. rewrite String.eqb_refl. cbn [andb].
  destruct (_ && _); reflexivity.
Qed.

(** X16. Clicks on one column header alternate the order: after the
    first click the rows are sorted by that column, descending if the
    table was sorted by it ascending and ascending otherwise (so always
    ascending from the unsorted table), and every further click on the
    same header reverses the order. *)
Theorem sort_clicks cfg f n :
  Nat.iter (S n) (fun c => handleSort c f) cfg
  = {| field := Some f;
       order := if Nat.even n then order (handleSort cfg f)
                else flip (order (handleSort cfg f)) |} /\
  (order (handleSort cfg f) = DESC <-> field cfg = Some f /\ order cfg = ASC) /\
  handleSort initialSortConfig f = {| field := Some f; order := ASC |}.
Proof.
  split; [|split; [|reflexivity]].
  - induction n as [|n IH]; [reflexivity|].
    change (Nat.iter (S (S n)) (fun c => handleSort c f) cfg)
      with (handleSort (Nat.iter (S n) (fun c => handleSort c f) cfg) f).
    rewrite IH. unfold handleSort at 1. cbn [field order].
    rewrite String.eqb_refl, Nat.even_succ, <- Nat.negb_even. cbn [andb].
    destruct (Nat.even n), (order (handleSort cfg f)); reflexivity.
  - unfold handleSort. cbn [order]. destruct cfg as [[g|] o]; cbn [field order].
    + destruct (String.eqb_spec g f) as [->|Hne]; destruct o; cbn [andb];
        split; try discriminate; try tauto; intros [H1 H2]; congruence.
    + split; [discriminate|]. intros [H _]. discriminate.
Qed.

(** *** The handlers *)

Section HandlerFacts.

Context {Prediction : Type}.
Implicit Type env : @Env Prediction.

Ltac step_handler :=
  cbv [mbind mret M_bind M_ret bind ret emit call lift];
  cbn [app fst snd].

Lemma generateTry_cases env :
  (exists pre e, generateTry env = (pre, Throw e) /\
                 forallb (fun ev => negb (ending ev)) pre = true) \/
  (exists recom predSpec predReac table recs numSpecies numReactions,
     createRecommendationTable env recom predSpec predReac = Ok table /\
     processedRecommendations table = Some recs /\
     generateTry env
     = (progressSteps env numSpecies numReactions
        ++ [ SetRecommendations recs;
             SetSelectedRecommendations (initialSelection table); SetStep 3 ], Ok tt)).
Proof.
  unfold generateTry. step_handler.
  destruct (createRecommender env (fileContent env) (fileName env)) as [recom|e];
    step_handler; [|left; eexists _, e; split; reflexivity].
  destruct (getSpeciesIDs recom) as [numSpecies|e];
    step_handler; [|left; eexists _, e; split; reflexivity].
  destruct (getReactionIDs recom) as [numReactions|e];
    step_handler; [|left; eexists _, e; split; reflexivity].
  destruct (predictSpecies env recom (mssc env) (cutoff env)) as [predSpec|e];
    step_handler; [|left; eexists _, e; split; reflexivity].
  destruct (predictReactions env recom (mssc env) (cutoff env)) as [predReac|e];
    step_handler; [|left; eexists _, e; split; reflexivity].
  destruct (createRecommendationTable env recom predSpec predReac) as [table|e] eqn:E;
    step_handler; [|left; eexists _, e; split; reflexivity].
  unfold showRecommendations. step_handler.
  destruct (processedRecommendations table) as [recs|] eqn:Ep.
  - right. exists recom, predSpec, predReac, table, recs, numSpecies, numReactions.
    split; [exact E|]. split; [exact Ep|reflexivity].
  - left. eexists _, _. split; reflexivity.
Qed.

(** X17. A generation ends in one of two ways. Either an exception
    stopped it (a call that failed, or a table with an id that every
    object inherits): then the error is logged and the modal closed, and
    neither the recommendations nor the selection nor the third step
    have been set. Or every call succeeded: then, after the progress
    steps, the recommendations are set to the processed table, the
    selection to the first selection of the table and the step to 3, and
    the modal stays open. *)
Theorem generation_outcome env :
  (exists pre e,
     handleGenerateAnnotations env
     = pre ++ [ConsoleError generateError (Some e); OnClose] /\
     forallb (fun ev => negb (ending ev)) pre = true) \/
  (exists recom predSpec predReac table recs numSpecies numReactions,
     createRecommendationTable env recom predSpec predReac = Ok table /\
     processedRecommendations table = Some recs /\
     handleGenerateAnnotations env
     = progressSteps env numSpecies numReactions
       ++ [ SetRecommendations recs;
            SetSelectedRecommendations (initialSelection table); SetStep 3 ]).
Proof.
  unfold handleGenerateAnnotations.
  destruct (generateTry_cases env)
    as [(pre & e & -> & Hpre)|(recom & ps & pr & table & recs & n1 & n2 & Ht & Hp & ->)].
  - left. exists pre, e. split; [reflexivity|exact Hpre].
  - right. exists recom, ps, pr, table, recs, n1, n2. auto.
Qed.

Ltac split_calls :=
  repeat match goal with
         | |- context [match ?R with Ok _ => _ | Throw _ => _ end] =>
             destruct R; step_handler
         | |- context [match ?R with Some _ => _ | None => _ end] =>
             destruct R; step_handler
         | |- context [if ?b then _ else _] =>
             destruct b; step_handler
         end.

(** The predictions are asked with the criteria and the cutoff of the
    state. *)
Lemma generateTry_predictions env :
  Forall (fun ev => match ev with
                    | PredictSpecies m c | PredictReactions m c =>
                        m = mssc env /\ c = cutoff env
                    | _ => True
                    end) (fst (generateTry env)).
Proof.
  unfold generateTry, showRecommendations. step_handler.
  split_calls; repeat constructor.
Qed.

(** X18. The predictions of species and of reactions are asked with
    the same criteria and cutoff, those of the state; as the cutoff of
    the state is what the change events of the cutoff field left, the
    recommender is never asked with a cutoff outside of 0 to 1. *)
Theorem predictions_in_range env events :
  cutoff env = cutoffAfter events ->
  Forall (askedInRange env) (handleGenerateAnnotations env).
Proof.
  intros Hc.
  assert (Hin : inUnit (cutoff env) = true).
  { rewrite Hc. apply fold_handleCutoff_keeps. vm_compute. reflexivity. }
  pose proof (generateTry_predictions env) as Htr.
  unfold handleGenerateAnnotations.
  destruct (generateTry env) as [tr [a|e]]; cbn [fst] in Htr.
  - eapply Forall_impl; [exact Htr|]. intros [] H; cbn in *; try exact I;
      destruct H as [-> ->]; auto.
  - apply Forall_app. split; [|repeat constructor].
    eapply Forall_impl; [exact Htr|]. intros [] H; cbn in *; try exact I;
      destruct H as [-> ->]; auto.
Qed.

Lemma updateTry_open env :
  forallb (fun ev => negb (closes ev)) (fst (updateTry env)) = true.
Proof.
  unfold updateTry, updateDatabase. step_handler. split_calls; reflexivity.
Qed.

(** X19. Whatever happens in [handleUpdateAnnotations] (no recommender,
    no converter, a call that fails), the modal is closed, once, and
    after everything else. *)
Theorem update_always_closes env :
  exists tr, handleUpdateAnnotations env = tr ++ [OnClose] /\
             forallb (fun ev => negb (closes ev)) tr = true.
Proof.
  pose proof (updateTry_open env) as Hopen. unfold handleUpdateAnnotations.
  destruct (updateTry env) as [tr [a|e]]; cbn [fst] in Hopen.
  - exists tr. auto.
  - exists (tr ++ [ConsoleError updateError (Some e)]).
    split; [rewrite <- app_assoc; reflexivity|].
    rewrite forallb_app, Hopen. reflexivity.
Qed.

Lemma updateTry_texts env c :
  In (SetFileContent c) (fst (updateTry env)) ->
  Forall (oneText env c) (fst (updateTry env)) /\
  In (SetItem "current_file" c) (fst (updateTry env)).
Proof.
  unfold updateTry, updateDatabase. step_handler.
  split_calls; cbn [In]; intros H;
    repeat match type of H with
           | _ \/ _ => destruct H as [H|H]; [try discriminate H|]
           | False => destruct H
           end;
    injection H as <-; (split; [repeat constructor; auto|tauto]).
Qed.

Lemma updateTry_unconverted env :
  isConverted env = true -> convertSBMLToAntimony env = None ->
  forallb (fun ev => negb (writes ev)) (fst (updateTry env)) = true.
Proof.
  intros Hi Hc. unfold updateTry. rewrite Hi, Hc. step_handler.
  split_calls; reflexivity.
Qed.

(** X20. What [handleUpdateAnnotations] writes is one text: when the
    file content is set to a text, the local storage is asked to store
    the same text under [current_file], the record put into the database
    holds it under the name of the file, and it is the text stored in
    the global of the converted or of the unconverted document. When the
    file was converted from Antimony and no converter is installed
    nothing is written at all. *)
Theorem update_writes_one_text env :
  (forall c, In (SetFileContent c) (handleUpdateAnnotations env) ->
     Forall (oneText env c) (handleUpdateAnnotations env) /\
     In (SetItem "current_file" c) (handleUpdateAnnotations env)) /\
  (isConverted env = true -> convertSBMLToAntimony env = None ->
   forallb (fun ev => negb (writes ev)) (handleUpdateAnnotations env) = true).
Proof.
  pose proof (updateTry_texts env) as Htexts.
  pose proof (updateTry_unconverted env) as Hun.
  unfold handleUpdateAnnotations.
  destruct (updateTry env) as [tr [a|e]]; cbn [fst] in Htexts, Hun.
  - split.
    + intros c Hin. apply in_app_iff in Hin.
      destruct Hin as [Hin|[Hin|[]]]; [|discriminate Hin].
      destruct (Htexts c Hin) as [Hall Hitem]. split.
      * apply Forall_app. split; [exact Hall|repeat constructor].
      * apply in_app_iff. left. exact Hitem.
    + intros Hi Hc. rewrite forallb_app, (Hun Hi Hc). reflexivity.
  - split.
    + intros c Hin. apply in_app_iff in Hin.
      destruct Hin as [Hin|[Hin|[Hin|[]]]]; [|discriminate Hin|discriminate Hin].
      destruct (Htexts c Hin) as [Hall Hitem]. split.
      * apply Forall_app. split; [exact Hall|repeat constructor].
      * apply in_app_iff. left. exact Hitem.
    + intros Hi Hc. rewrite forallb_app, (Hun Hi Hc). reflexivity.
Qed.

End HandlerFacts.

(** A species called [constructor] ends the generation with the
    [TypeError] of the grouping. *)
Lemma generation_with_inherited_id :
  handleGenerateAnnotations inheritedIdEnv
  = progressSteps inheritedIdEnv 2 0
    ++ [ConsoleError generateError (Some "TypeError"%string); OnClose].
Proof. vm_compute. reflexivity. Qed.

Lemma predictions_in_range_witness :
  Forall (askedInRange sampleEnv) (handleGenerateAnnotations sampleEnv) /\
  In (PredictSpecies TOP 0.5) (handleGenerateAnnotations sampleEnv).
Proof.
  split.
  - apply (predictions_in_range sampleEnv [0.5%float; 7%float]). reflexivity.
  - vm_compute. tauto.
Defined.

Lemma update_writes_one_text_witness :
  In (SetItem "current_file" "S1 -> S2") (handleUpdateAnnotations convertingEnv) /\
  forallb (fun ev => negb (writes ev)) (handleUpdateAnnotations sampleEnv) = true.
Proof.
  split.
  - apply (proj1 (update_writes_one_text convertingEnv) "S1 -> S2"%string).
    vm_compute. tauto.
  - apply (proj2 (update_writes_one_text sampleEnv)); reflexivity.
Defined.

End ModalFacts.
